(** * romba: DAT parsing, depot-root accounting and the refresh pipeline

    A shallow embedding of
      - the parser package (hash coercion, the rom/game statements of the
        text grammar, [fixHashes], the digest and line-counting readers,
        [ParseXml], [ParseDat]),
      - archive/depot_root.go ([adjustSize], [writeBloomFilterWithBackup]),
      - db/db.go ([refreshWorker.Process], [Refresh]),
    together with the properties the specification states about them.

    Conventions.  A Go [string] is a Rocq [string] (a sequence of 8-bit
    characters, so [String.length] is Go's [len]).  A Go [[]byte] that may be
    [nil] is an [option (list byte)]: [None] is the nil slice and [Some []] an
    empty, non-nil one.  An [int64] is a [Z] with the wrap-around written
    out.  A Go [error] is an [option] of an error value, [None] being [nil]. *)

From Stdlib Require Import ZArith NArith Lia List Ascii String.
From Stdlib.Strings Require Import Byte.
From stdpp Require Import base option list gmap strings.
Import ListNotations.

Local Open Scope string_scope.
Local Open Scope Z_scope.

(** A possibly-nil byte slice. *)
Abbreviation slice := (option (list byte)).

(* ===================================================================== *)
(** ** encoding/hex and strings (Go standard library)                     *)
(* ===================================================================== *)

Module Hex.

Inductive hexError : Type :=
| InvalidByteError (c : ascii)
| ErrLength.

(** [reverseHexTable]: the value of a hexadecimal digit, 255 for every
    other byte. *)
Definition reverseHexTable (c : ascii) : N :=
  let n := N_of_ascii c in
  if ((48 <=? n) && (n <=? 57))%N then (n - 48)%N
  else if ((97 <=? n) && (n <=? 102))%N then (n - 87)%N
  else if ((65 <=? n) && (n <=? 70))%N then (n - 55)%N
  else 255%N.

(** The byte [(a << 4) | b]. *)
Definition packByte (a b : N) : byte :=
  byte_of_ascii (ascii_of_N (N.lor (N.shiftl a 4) b)).

(** [Decode]: the bytes decoded before the first error, and the error.
    The loop reads two characters at a time, checks the first then the
    second, and reports a bad trailing character before a bad length. *)
Fixpoint Decode (src : string) : list byte * option hexError :=
  match src with
  | EmptyString => ([], None)
  | String p EmptyString =>
      if (15 <? reverseHexTable p)%N then ([], Some (InvalidByteError p))
      else ([], Some ErrLength)
  | String p (String q rest) =>
      let a := reverseHexTable p in
      let b := reverseHexTable q in
      if (15 <? a)%N then ([], Some (InvalidByteError p))
      else if (15 <? b)%N then ([], Some (InvalidByteError q))
      else let (out, err) := Decode rest in (packByte a b :: out, err)
  end.

(** [DecodeString]: "If the input is malformed, DecodeString returns the
    bytes decoded before the error" (encoding/hex since Go 1.10).  The
    returned slice is [src[:n]] of a fresh copy of the string and so is
    never nil. *)
Definition DecodeString (s : string) : slice * option hexError :=
  let (out, err) := Decode s in (Some out, err).

Definition hextable (n : N) : ascii :=
  if (n <? 10)%N then ascii_of_N (48 + n) else ascii_of_N (87 + n).

(** [EncodeToString]: two lower-case digits per byte. *)
Fixpoint EncodeToString (src : list byte) : string :=
  match src with
  | [] => EmptyString
  | v :: rest =>
      let n := Byte.to_N v in
      String (hextable (N.shiftr n 4))
        (String (hextable (N.land n 15)) (EncodeToString rest))
  end.

(** A string of hexadecimal digits. *)
Fixpoint isHex (s : string) : bool :=
  match s with
  | EmptyString => true
  | String c rest => (reverseHexTable c <=? 15)%N && isHex rest
  end.

(** ASCII lower-casing of one character and of a string. *)
Definition lowerChar (c : ascii) : ascii :=
  let n := N_of_ascii c in
  if ((65 <=? n) && (n <=? 90))%N then ascii_of_N (n + 32) else c.

Fixpoint toLower (s : string) : string :=
  match s with
  | EmptyString => EmptyString
  | String c rest => String (lowerChar c) (toLower rest)
  end.

End Hex.

Module Strings.

(** [strings.Repeat] of a one-character string. *)
Fixpoint Repeat (c : ascii) (count : nat) : string :=
  match count with
  | O => EmptyString
  | S k => String c (Repeat c k)
  end.

(** The UTF-8 encodings of the runes [unicode.IsSpace] accepts: the ASCII
    white space, U+0085, U+00A0, U+1680, U+2000..U+200A, U+2028, U+2029,
    U+202F, U+205F and U+3000. *)
Definition spaceRunes : list (list ascii) :=
  let a := ascii_of_nat in
  [ [a 9]; [a 10]; [a 11]; [a 12]; [a 13]; [a 32];
    [a 194; a 133]; [a 194; a 160];
    [a 225; a 154; a 128];
    [a 226; a 128; a 128]; [a 226; a 128; a 129]; [a 226; a 128; a 130];
    [a 226; a 128; a 131]; [a 226; a 128; a 132]; [a 226; a 128; a 133];
    [a 226; a 128; a 134]; [a 226; a 128; a 135]; [a 226; a 128; a 136];
    [a 226; a 128; a 137]; [a 226; a 128; a 138];
    [a 226; a 128; a 168]; [a 226; a 128; a 169]; [a 226; a 128; a 175];
    [a 226; a 129; a 159];
    [a 227; a 128; a 128] ]%nat.

(** [stripPrefix p l]: [l] without its prefix [p], when it has it. *)
Fixpoint stripPrefix (p l : list ascii) : option (list ascii) :=
  match p, l with
  | [], _ => Some l
  | _ :: _, [] => None
  | c :: p', d :: l' => if Ascii.eqb c d then stripPrefix p' l' else None
  end.

(** The first rune of [runes] that [l] starts with, removed. *)
Fixpoint stripAny (runes : list (list ascii)) (l : list ascii)
  : option (list ascii) :=
  match runes with
  | [] => None
  | p :: more =>
      match stripPrefix p l with
      | Some l' => Some l'
      | None => stripAny more l
      end
  end.

(** Remove leading runes of [runes]; every removal shortens [l], so
    [length l] rounds are enough. *)
Fixpoint trimLeftN (runes : list (list ascii)) (n : nat) (l : list ascii)
  : list ascii :=
  match n with
  | O => l
  | S k =>
      match stripAny runes l with
      | Some l' => trimLeftN runes k l'
      | None => l
      end
  end.

Definition trimLeft (runes : list (list ascii)) (l : list ascii) :=
  trimLeftN runes (length l) l.

(** [strings.TrimSpace]: leading and trailing white space removed. *)
Definition TrimSpace (s : string) : string :=
  let l := trimLeft spaceRunes (list_ascii_of_string s) in
  let r := trimLeft (map (@rev ascii) spaceRunes) (rev l) in
  string_of_list_ascii (rev r).

End Strings.

(* ===================================================================== *)
(** ** package parser                                                     *)
(* ===================================================================== *)

Module Parser.
Import Hex Strings.

(** [len(s)] as a Go [int]. *)
Definition len (s : string) : Z := Z.of_nat (String.length s).

(** [stringValue2Bytes]: "-" and "" are nil; otherwise the input is
    trimmed, left-padded with "0" to [expectedLength] when shorter, and
    hex-decoded. *)
Definition stringValue2Bytes (input : string) (expectedLength : Z)
  : slice * option hexError :=
  if String.eqb input "-" || String.eqb input "" then (None, None)
  else
    let input := TrimSpace input in
    let input :=
      if len input <? expectedLength
      then Repeat "0"%char (Z.to_nat (expectedLength - len input)) ++ input
      else input in
    DecodeString input.

(** *** strconv.Atoi (Go standard library), for a 64-bit [int] *)

Inductive numError : Type := ErrSyntax | ErrRange.

Definition digitVal (c : ascii) : option Z :=
  let n := Z.of_N (N_of_ascii c) in
  if (48 <=? n) && (n <=? 57) then Some (n - 48) else None.

Fixpoint parseDigits (acc : Z) (s : string) : option Z :=
  match s with
  | EmptyString => Some acc
  | String c rest =>
      match digitVal c with
      | Some d => parseDigits (10 * acc + d) rest
      | None => None
      end
  end.

Definition Atoi (s : string) : Z * option numError :=
  let '(neg, body) :=
    match s with
    | String "+"%char rest => (false, rest)
    | String "-"%char rest => (true, rest)
    | _ => (false, s)
    end in
  match body with
  | EmptyString => (0, Some ErrSyntax)
  | _ =>
      match parseDigits 0 body with
      | None => (0, Some ErrSyntax)
      | Some n =>
          let v := if neg then - n else n in
          if v <? - 2 ^ 63 then (- 2 ^ 63, Some ErrRange)
          else if 2 ^ 63 - 1 <? v then (2 ^ 63 - 1, Some ErrRange)
          else (v, None)
      end
  end.

(** [stringValue2Int]: "-" is zero, anything else goes through [Atoi]. *)
Definition stringValue2Int (input : string) : Z * option numError :=
  if String.eqb input "-" then (0, None) else Atoi input.

(** *** The catalog types *)

(** Modelled from the spec: the types package is not among the sources.
    "Rom ... Attributes: Name (string), Size (integer), Crc, Md5, Sha1 (raw
    bytes) ... Missing/absent hash fields are nil".  The parser assigns the
    [int] result of [consumeIntegerValue] to [Size]. *)
Record Rom : Type := mkRom {
  rName : string;
  rSize : Z;
  rCrc : slice;
  rMd5 : slice;
  rSha1 : slice
}.

(** [&types.Rom{}] *)
Definition emptyRom : Rom := mkRom "" 0 None None None.

(** Modelled from the spec: the types package is not among the sources.
    "Game ... Attributes: Name, Description, ordered list of Rom"; in the XML
    shape an entry carries "rom/disk/part/region collections", all of them
    lists of [Rom] since [fixHashes] is applied to their elements. *)
Record Game : Type := mkGame {
  gName : string;
  gDescription : string;
  gRoms : list Rom;
  gDisks : list Rom;
  gParts : list Rom;
  gRegions : list Rom
}.

(** [&types.Game{}] *)
Definition emptyGame : Game := mkGame "" "" [] [] [] [].

(** Modelled from the spec: the types package is not among the sources.
    "Dat ... Attributes: Name (string), Description (string), ordered list of
    Game, ordered list of Software (software-list variant with the same
    nested shape)". *)
Record Dat : Type := mkDat {
  dName : string;
  dDescription : string;
  dGames : list Game;
  dSoftware : list Game
}.

(** [&types.Dat{}] *)
Definition emptyDat : Dat := mkDat "" "" [] [].

(** *** The token stream *)

(** Modelled from the spec: the lexer is not among the sources.  "The
    tokenizer recognizes: open/close braces, the catalog header keyword, the
    game keyword, the rom keyword, field keywords (name, description, size,
    crc, md5, sha1 and equivalents), quoted strings, bare (unquoted) values,
    end-of-stream, and a lexical-error token".  The kinds are named as the
    parser names them; [itemOther] stands for any further kind (the parser's
    switches ignore them). *)
Inductive itemType : Type :=
| itemError | itemEOF | itemOpenBrace | itemCloseBrace
| itemQuotedString | itemValue
| itemClrMamePro | itemGame | itemRom
| itemName | itemDescription | itemSize | itemCrc | itemMd5 | itemSha1
| itemOther (k : Z).

#[export] Instance itemType_eq_dec : EqDecision itemType.
Proof. solve_decision. Defined.

Record item : Type := mkItem { typ : itemType; val : string }.

(** Modelled from the spec: the lexer "converts a byte stream into a
    sequence of typed tokens".  Its state is the list of items that its
    [nextItem] calls are still to return; once the list is used up
    [nextItem] keeps returning an end-of-file item. *)
Definition lexer : Type := list item.

Definition nextItem (ll : lexer) : item * lexer :=
  match ll with
  | [] => (mkItem itemEOF "", [])
  | i :: rest => (i, rest)
  end.

Inductive parseError : Type :=
| ErrExpectedStringOrValue (got : item)
    (* "expected quoted string or value, got %v" *)
| ErrExpectedValue (got : item)            (* "expected value, got %v" *)
| ErrExpectedToken (want : itemType) (got : item)
    (* "expected token of type %v, got %v instead" *)
| ErrUnexpectedEnd                         (* "unexpected end of input" *)
| ErrLexer (i : item)                      (* "lexer error: %v" *)
| ErrHex (e : hexError)
| ErrNum (e : numError).

Abbreviation error := (option parseError).

(** How a call ends. *)
Inductive outcome (A : Type) : Type :=
| Returns (a : A)   (* the call returns [a] *)
| Panics            (* run-time panic (slice bounds out of range) *)
| OutOfFuel.        (* the bound of the model's loop was reached *)
Arguments Returns {A} a.
Arguments Panics {A}.
Arguments OutOfFuel {A}.

(** [v[1 : len(v)-1]]: panics unless [len(v) >= 2]. *)
Definition unquote (v : string) : outcome string :=
  if 2 <=? len v then Returns (substring 1 (String.length v - 2) v)
  else Panics.

Definition hexErr (r : slice * option hexError) : slice * error :=
  (fst r, option_map ErrHex (snd r)).

Definition numErr (r : Z * option numError) : Z * error :=
  (fst r, option_map ErrNum (snd r)).

(** [p.match] *)
Definition matchItem (i : item) (t : itemType) : error :=
  if bool_decide (typ i = t) then None else Some (ErrExpectedToken t i).

(** The loops of the three statements stop at a closing brace, at the end
    of the input and at a lexical error. *)
Definition endsStmt (t : itemType) : bool :=
  match t with
  | itemCloseBrace | itemEOF | itemError => true
  | _ => false
  end.

(** What one round of a statement's loop does: go on with the updated
    value, or return from the function. *)
Inductive round (A R : Type) : Type :=
| Goes (a : A)
| Leaves (r : R).
Arguments Goes {A R} a.
Arguments Leaves {A R} r.

Section TextGrammar.

(** The numeric value of an item kind ([itemType] is an [int] enumeration
    declared with the lexer); [consumeStringValue] compares kinds with
    [itemValue]. *)
Variable rank : itemType -> Z.

Definition consumeStringValue (ll : lexer) : outcome (string * error) * lexer :=
  let (i, ll) := nextItem ll in
  match typ i with
  | itemQuotedString =>
      match unquote (val i) with
      | Returns s => (Returns (s, None), ll)
      | _ => (Panics, ll)
      end
  | itemValue => (Returns (val i, None), ll)
  | t =>
      if rank itemValue <? rank t then (Returns (val i, None), ll)
      else (Returns ("", Some (ErrExpectedStringOrValue i)), ll)
  end.

Definition consumeIntegerValue (ll : lexer) : outcome (Z * error) * lexer :=
  let (i, ll) := nextItem ll in
  match typ i with
  | itemValue => (Returns (numErr (stringValue2Int (val i))), ll)
  | itemQuotedString =>
      match unquote (val i) with
      | Returns s => (Returns (numErr (stringValue2Int s)), ll)
      | _ => (Panics, ll)
      end
  | _ => (Returns (0, Some (ErrExpectedValue i)), ll)
  end.

Definition consumeHexBytes (expectedLength : Z) (ll : lexer)
  : outcome (slice * error) * lexer :=
  let (i, ll) := nextItem ll in
  match typ i with
  | itemValue => (Returns (hexErr (stringValue2Bytes (val i) expectedLength)), ll)
  | itemQuotedString =>
      match unquote (val i) with
      | Returns s => (Returns (hexErr (stringValue2Bytes s expectedLength)), ll)
      | _ => (Panics, ll)
      end
  | _ => (Returns (None, Some (ErrExpectedValue i)), ll)
  end.

(** After a statement's loop: the item that ended it decides the result. *)
Definition afterLoop {A : Type} (i : item) (a : A) (nil : A) : A * error :=
  match typ i with
  | itemEOF => (nil, Some ErrUnexpectedEnd)
  | itemError => (nil, Some (ErrLexer i))
  | _ => (a, None)
  end.

(** **** [romStmt] *)

Definition setRName (r : Rom) (v : string) : Rom :=
  mkRom v (rSize r) (rCrc r) (rMd5 r) (rSha1 r).
Definition setRSize (r : Rom) (v : Z) : Rom :=
  mkRom (rName r) v (rCrc r) (rMd5 r) (rSha1 r).
Definition setRCrc (r : Rom) (v : slice) : Rom :=
  mkRom (rName r) (rSize r) v (rMd5 r) (rSha1 r).
Definition setRMd5 (r : Rom) (v : slice) : Rom :=
  mkRom (rName r) (rSize r) (rCrc r) v (rSha1 r).
Definition setRSha1 (r : Rom) (v : slice) : Rom :=
  mkRom (rName r) (rSize r) (rCrc r) (rMd5 r) v.

(** One round of [romStmt]'s loop, at item [i].  A failing [name] or [size]
    returns the error; a failing [md5], [crc] or [sha1] returns [nil, nil]. *)
Definition romRound (r : Rom) (i : item) (ll : lexer)
  : outcome (round Rom (option Rom * error)) * lexer :=
  match typ i with
  | itemName =>
      match consumeStringValue ll with
      | (Returns (v, err), ll) =>
          let r := setRName r v in
          match err with
          | Some _ => (Returns (Leaves (None, err)), ll)
          | None => (Returns (Goes r), ll)
          end
      | (Panics, ll) => (Panics, ll)
      | (OutOfFuel, ll) => (OutOfFuel, ll)
      end
  | itemSize =>
      match consumeIntegerValue ll with
      | (Returns (v, err), ll) =>
          let r := setRSize r v in
          match err with
          | Some _ => (Returns (Leaves (None, err)), ll)
          | None => (Returns (Goes r), ll)
          end
      | (Panics, ll) => (Panics, ll)
      | (OutOfFuel, ll) => (OutOfFuel, ll)
      end
  | itemMd5 =>
      match consumeHexBytes 32 ll with
      | (Returns (v, err), ll) =>
          let r := setRMd5 r v in
          match err with
          | Some _ => (Returns (Leaves (None, None)), ll)
          | None => (Returns (Goes r), ll)
          end
      | (Panics, ll) => (Panics, ll)
      | (OutOfFuel, ll) => (OutOfFuel, ll)
      end
  | itemCrc =>
      match consumeHexBytes 8 ll with
      | (Returns (v, err), ll) =>
          let r := setRCrc r v in
          match err with
          | Some _ => (Returns (Leaves (None, None)), ll)
          | None => (Returns (Goes r), ll)
          end
      | (Panics, ll) => (Panics, ll)
      | (OutOfFuel, ll) => (OutOfFuel, ll)
      end
  | itemSha1 =>
      match consumeHexBytes 40 ll with
      | (Returns (v, err), ll) =>
          let r := setRSha1 r v in
          match err with
          | Some _ => (Returns (Leaves (None, None)), ll)
          | None => (Returns (Goes r), ll)
          end
      | (Panics, ll) => (Panics, ll)
      | (OutOfFuel, ll) => (OutOfFuel, ll)
      end
  | _ => (Returns (Goes r), ll)
  end.

(** [romStmt]'s [for] loop, entered with the item [i] just read. *)
Fixpoint romLoop (fuel : nat) (r : Rom) (i : item) (ll : lexer)
  : outcome (option Rom * error) * lexer :=
  if endsStmt (typ i) then (Returns (afterLoop i (Some r) None), ll)
  else
    match fuel with
    | O => (OutOfFuel, ll)
    | S fuel =>
        match romRound r i ll with
        | (Returns (Goes r), ll) =>
            let (i, ll) := nextItem ll in romLoop fuel r i ll
        | (Returns (Leaves res), ll) => (Returns res, ll)
        | (Panics, ll) => (Panics, ll)
        | (OutOfFuel, ll) => (OutOfFuel, ll)
        end
    end.

(** [romStmt].  Every round of the loop but the last takes at least one
    item, so one round more than there are items is enough. *)
Definition romStmt (ll : lexer) : outcome (option Rom * error) * lexer :=
  let (i, ll) := nextItem ll in
  match matchItem i itemOpenBrace with
  | Some e => (Returns (None, Some e), ll)
  | None =>
      let r := emptyRom in
      let (i, ll) := nextItem ll in
      romLoop (S (length ll)) r i ll
  end.

(** The canonical hex length of the hash keyword [t], if it is one. *)
Definition hashLength (t : itemType) : option Z :=
  match t with
  | itemMd5 => Some 32
  | itemCrc => Some 8
  | itemSha1 => Some 40
  | _ => None
  end.

(** The rounds of [romStmt]'s loop that go on: from the rom [r] at item
    [i] they lead to the rom [r'] at item [i']. *)
Inductive romReaches : Rom -> item -> lexer -> Rom -> item -> lexer -> Prop :=
| reaches_here (r : Rom) (i : item) (ll : lexer) :
    romReaches r i ll r i ll
| reaches_round (r r1 r' : Rom) (i i' : item) (ll ll1 ll' : lexer) :
    endsStmt (typ i) = false ->
    romRound r i ll = (Returns (Goes r1), ll1) ->
    romReaches r1 (fst (nextItem ll1)) (snd (nextItem ll1)) r' i' ll' ->
    romReaches r i ll r' i' ll'.

(** **** [gameStmt] *)

Definition setGName (g : Game) (v : string) : Game :=
  mkGame v (gDescription g) (gRoms g) (gDisks g) (gParts g) (gRegions g).
Definition setGDescription (g : Game) (v : string) : Game :=
  mkGame (gName g) v (gRoms g) (gDisks g) (gParts g) (gRegions g).
Definition setGRoms (g : Game) (v : list Rom) : Game :=
  mkGame (gName g) (gDescription g) v (gDisks g) (gParts g) (gRegions g).

(** One round of [gameStmt]'s loop.  A rom statement that returns a nil rom
    and no error adds nothing to [g.Roms]. *)
Definition gameRound (g : Game) (i : item) (ll : lexer)
  : outcome (round Game (option Game * error)) * lexer :=
  match typ i with
  | itemName =>
      match consumeStringValue ll with
      | (Returns (v, err), ll) =>
          let g := setGName g v in
          match err with
          | Some _ => (Returns (Leaves (None, err)), ll)
          | None => (Returns (Goes g), ll)
          end
      | (Panics, ll) => (Panics, ll)
      | (OutOfFuel, ll) => (OutOfFuel, ll)
      end
  | itemDescription =>
      match consumeStringValue ll with
      | (Returns (v, err), ll) =>
          let g := setGDescription g v in
          match err with
          | Some _ => (Returns (Leaves (None, err)), ll)
          | None => (Returns (Goes g), ll)
          end
      | (Panics, ll) => (Panics, ll)
      | (OutOfFuel, ll) => (OutOfFuel, ll)
      end
  | itemRom =>
      match romStmt ll with
      | (Returns (r, err), ll) =>
          match err with
          | Some _ => (Returns (Leaves (None, err)), ll)
          | None =>
              match r with
              | Some r => (Returns (Goes (setGRoms g (gRoms g ++ [r]))), ll)
              | None => (Returns (Goes g), ll)
              end
          end
      | (Panics, ll) => (Panics, ll)
      | (OutOfFuel, ll) => (OutOfFuel, ll)
      end
  | _ => (Returns (Goes g), ll)
  end.

Fixpoint gameLoop (fuel : nat) (g : Game) (i : item) (ll : lexer)
  : outcome (option Game * error) * lexer :=
  if endsStmt (typ i) then (Returns (afterLoop i (Some g) None), ll)
  else
    match fuel with
    | O => (OutOfFuel, ll)
    | S fuel =>
        match gameRound g i ll with
        | (Returns (Goes g), ll) =>
            let (i, ll) := nextItem ll in gameLoop fuel g i ll
        | (Returns (Leaves res), ll) => (Returns res, ll)
        | (Panics, ll) => (Panics, ll)
        | (OutOfFuel, ll) => (OutOfFuel, ll)
        end
    end.

Definition gameStmt (ll : lexer) : outcome (option Game * error) * lexer :=
  let (i, ll) := nextItem ll in
  match matchItem i itemOpenBrace with
  | Some e => (Returns (None, Some e), ll)
  | None =>
      let g := emptyGame in
      let (i, ll) := nextItem ll in
      gameLoop (S (length ll)) g i ll
  end.

(** **** [datStmt] and [parse] *)

(** The parser: its lexer and the catalog it fills in. *)
Record parser : Type := mkParser { p_ll : lexer; p_d : Dat }.

Definition setDName (d : Dat) (v : string) : Dat :=
  mkDat v (dDescription d) (dGames d) (dSoftware d).
Definition setDDescription (d : Dat) (v : string) : Dat :=
  mkDat (dName d) v (dGames d) (dSoftware d).
Definition setDGames (d : Dat) (v : list Game) : Dat :=
  mkDat (dName d) (dDescription d) v (dSoftware d).

Definition datRound (i : item) (p : parser)
  : outcome (round unit error) * parser :=
  match typ i with
  | itemName =>
      match consumeStringValue (p_ll p) with
      | (Returns (v, err), ll) =>
          let p := mkParser ll (setDName (p_d p) v) in
          match err with
          | Some _ => (Returns (Leaves err), p)
          | None => (Returns (Goes tt), p)
          end
      | (Panics, ll) => (Panics, mkParser ll (p_d p))
      | (OutOfFuel, ll) => (OutOfFuel, mkParser ll (p_d p))
      end
  | itemDescription =>
      match consumeStringValue (p_ll p) with
      | (Returns (v, err), ll) =>
          let p := mkParser ll (setDDescription (p_d p) v) in
          match err with
          | Some _ => (Returns (Leaves err), p)
          | None => (Returns (Goes tt), p)
          end
      | (Panics, ll) => (Panics, mkParser ll (p_d p))
      | (OutOfFuel, ll) => (OutOfFuel, mkParser ll (p_d p))
      end
  | _ => (Returns (Goes tt), p)
  end.

Fixpoint datLoop (fuel : nat) (i : item) (p : parser)
  : outcome error * parser :=
  if endsStmt (typ i) then (Returns (snd (afterLoop i tt tt)), p)
  else
    match fuel with
    | O => (OutOfFuel, p)
    | S fuel =>
        match datRound i p with
        | (Returns (Goes _), p) =>
            let (i, ll) := nextItem (p_ll p) in
            datLoop fuel i (mkParser ll (p_d p))
        | (Returns (Leaves err), p) => (Returns err, p)
        | (Panics, p) => (Panics, p)
        | (OutOfFuel, p) => (OutOfFuel, p)
        end
    end.

Definition datStmt (p : parser) : outcome error * parser :=
  let (i, ll) := nextItem (p_ll p) in
  let p := mkParser ll (p_d p) in
  match matchItem i itemOpenBrace with
  | Some e => (Returns (Some e), p)
  | None =>
      let (i, ll) := nextItem (p_ll p) in
      datLoop (S (length ll)) i (mkParser ll (p_d p))
  end.

(** [parse]'s loop stops at the end of the input and at a lexical error. *)
Definition endsParse (t : itemType) : bool :=
  match t with
  | itemEOF | itemError => true
  | _ => false
  end.

Definition parseRound (i : item) (p : parser)
  : outcome (round unit error) * parser :=
  match typ i with
  | itemClrMamePro =>
      match datStmt p with
      | (Returns (Some e), p) => (Returns (Leaves (Some e)), p)
      | (Returns None, p) => (Returns (Goes tt), p)
      | (Panics, p) => (Panics, p)
      | (OutOfFuel, p) => (OutOfFuel, p)
      end
  | itemGame =>
      match gameStmt (p_ll p) with
      | (Returns (g, err), ll) =>
          match err with
          | Some _ => (Returns (Leaves err), mkParser ll (p_d p))
          | None =>
              match g with
              | Some g =>
                  (Returns (Goes tt),
                   mkParser ll (setDGames (p_d p) (dGames (p_d p) ++ [g])))
              | None => (Returns (Goes tt), mkParser ll (p_d p))
              end
          end
      | (Panics, ll) => (Panics, mkParser ll (p_d p))
      | (OutOfFuel, ll) => (OutOfFuel, mkParser ll (p_d p))
      end
  | _ => (Returns (Goes tt), p)
  end.

Fixpoint parseLoop (fuel : nat) (i : item) (p : parser)
  : outcome error * parser :=
  if endsParse (typ i) then
    (Returns (match typ i with
              | itemError => Some (ErrLexer i)
              | _ => None
              end), p)
  else
    match fuel with
    | O => (OutOfFuel, p)
    | S fuel =>
        match parseRound i p with
        | (Returns (Goes _), p) =>
            let (i, ll) := nextItem (p_ll p) in
            parseLoop fuel i (mkParser ll (p_d p))
        | (Returns (Leaves err), p) => (Returns err, p)
        | (Panics, p) => (Panics, p)
        | (OutOfFuel, p) => (OutOfFuel, p)
        end
    end.

Definition parse (p : parser) : outcome error * parser :=
  let (i, ll) := nextItem (p_ll p) in
  parseLoop (S (length ll)) i (mkParser ll (p_d p)).

End TextGrammar.

(** *** [fixHashes] *)

(** What [fixHashes] does to one hash field: a non-nil field is taken as
    hex text and decoded; on a decoding error the field is set to nil, and
    then, error or not, to the slice [v] that [DecodeString] returned. *)
Definition fixHash (h : slice) : slice :=
  match h with
  | Some text =>
      let (v, err) := DecodeString (string_of_list_byte text) in
      let h := match err with Some _ => None | None => h end in
      let h := v in
      h
  | None => None
  end.

Definition fixHashes (rom : Rom) : Rom :=
  let rom := setRCrc rom (fixHash (rCrc rom)) in
  let rom := setRMd5 rom (fixHash (rMd5 rom)) in
  let rom := setRSha1 rom (fixHash (rSha1 rom)) in
  rom.

(** A hash field that is nil or empty. *)
Definition nilOrEmpty (h : slice) : Prop := h = None \/ h = Some [].

(** The two loops of [ParseXml] over [d.Games] and [d.Software]. *)
Definition fixGame (g : Game) : Game :=
  mkGame (gName g) (gDescription g)
    (map fixHashes (gRoms g)) (map fixHashes (gDisks g))
    (map fixHashes (gParts g)) (map fixHashes (gRegions g)).

Definition fixDat (d : Dat) : Dat :=
  mkDat (dName d) (dDescription d)
    (map fixGame (dGames d)) (map fixGame (dSoftware d)).

(** *** Readers *)

Inductive ioError : Type := io_EOF | io_Err (msg : string).

(** What one [Read(buf)] call gives: the bytes [buf[:n]] and the error. *)
Definition readResult : Type := (list byte * option ioError)%type.

(** An [io.Reader] is the list of the results its [Read] calls are still to
    give; after them every call gives [0, io.EOF]. *)
Definition Reader : Type := list readResult.

Definition Read (r : Reader) : readResult * Reader :=
  match r with
  | [] => (([], Some io_EOF), [])
  | res :: rest => (res, rest)
  end.

(** The bytes of the leading calls that report no error: these are the
    bytes that reach the hash. *)
Fixpoint hashedBytes (r : Reader) : list byte :=
  match r with
  | (buf, None) :: rest => (buf ++ hashedBytes rest)%list
  | _ => []
  end.

(** The bytes delivered up to and with the first call that reports an
    error: these are the bytes taken from the stream. *)
Fixpoint deliveredBytes (r : Reader) : list byte :=
  match r with
  | (buf, None) :: rest => (buf ++ deliveredBytes rest)%list
  | (buf, Some _) :: _ => buf
  | [] => []
  end.

(** No call hands over bytes together with an error. *)
Fixpoint cleanStream (r : Reader) : bool :=
  match r with
  | (buf, None) :: rest => cleanStream rest
  | (buf, Some _) :: rest =>
      match buf with [] => cleanStream rest | _ => false end
  | [] => true
  end.

(** [hashingReader]: [h] is the hash state, that is the bytes written into
    it so far.  Both fields are references (interface values), so a call on
    a copy of the struct still advances the one reader and the one hash. *)
Record hashingReader : Type := mkHashingReader {
  hr_ir : Reader;
  hr_h : list byte
}.

(** [hashingReader.Read]: the bytes are written into the hash only when the
    inner [Read] reports no error. *)
Definition hashingReader_Read (r : hashingReader)
  : readResult * hashingReader :=
  let (res, ir) := Read (hr_ir r) in
  let (buf, err) := res in
  let h := match err with
           | None => (hr_h r ++ buf)%list
           | Some _ => hr_h r
           end in
  ((buf, err), mkHashingReader ir h).

(** [int] and [int64] arithmetic on 64 bits. *)
Definition wrap64 (z : Z) : Z := (z + 2 ^ 63) mod 2 ^ 64 - 2 ^ 63.

Record lineCountingReader : Type := mkLineCountingReader {
  lc_ir : hashingReader;
  lc_line : Z
}.

Definition isNewline (b : byte) : bool := Byte.eqb b x0a.

(** [r.line++] for every newline of [buf]. *)
Definition countLines (line : Z) (buf : list byte) : Z :=
  fold_left (fun l b => if isNewline b then wrap64 (l + 1) else l) buf line.

(** The body of [lineCountingReader.Read], run on the struct [r] it is
    given: the result of the call and [r] as the body leaves it. *)
Definition lineCountingReader_Read_body (r : lineCountingReader)
  : readResult * lineCountingReader :=
  let (res, ir) := hashingReader_Read (lc_ir r) in
  let (buf, err) := res in
  let line := match err with
              | None => countLines (lc_line r) buf
              | Some _ => lc_line r
              end in
  ((buf, err), mkLineCountingReader ir line).

(** [lineCountingReader.Read] has a value receiver: the body runs on a copy
    of the caller's struct, and the copy is dropped when the call returns.
    The inner reader is shared through [ir]; the counter [line] is a plain
    field of the copy, so the caller's counter is what it was. *)
Definition lineCountingReader_Read (r : lineCountingReader)
  : readResult * lineCountingReader :=
  let (res, copy) := lineCountingReader_Read_body r in
  (res, mkLineCountingReader (lc_ir copy) (lc_line r)).

(** [n] calls of [Read] on [lr], as the XML decoder makes them; the bytes
    they deliver, and the reader afterwards. *)
Fixpoint readCalls (n : nat) (lr : lineCountingReader)
  : list byte * lineCountingReader :=
  match n with
  | O => ([], lr)
  | S n =>
      let (res, lr) := lineCountingReader_Read lr in
      let (rest, lr) := readCalls n lr in
      ((fst res ++ rest)%list, lr)
  end.

(** Errors of the two entry points. *)
Inductive datError : Type :=
| ErrInFile (path : string) (line : Z) (err : parseError).
    (* "error in file %s on line %d: %v" *)

Inductive xmlParsingError (X : Type) : Type :=
| ErrXmlParsing (line : Z) (err : X).
    (* "xml parsing error %d: %v" *)
Arguments ErrXmlParsing {X} line err.

Section EntryPoints.

(** [crypto/sha1]: the digest of the bytes written into the hash. *)
Variable Sum : list byte -> list byte.

(** [types.Dat.Normalize], not among the sources. *)
Variable Normalize : Dat -> Dat.

(** **** [ParseXml] *)

(** [encoding/xml]: the decoder behind [xml.NewDecoder(lr).Decode(d)].
    Given the results that the [Read] calls on its reader will give, it
    makes a number of these calls and ends with the decoded catalog or an
    error. *)
Variable xmlError : Type.
Variable xmlDecode : Reader -> nat * (Dat * option xmlError).

(** [ParseXml].  [br] stands for [bufio.NewReader(r)]: [r] lists the results
    of the [Read] calls on it.  The decoder reads through a copy of [lr];
    the [lr] whose [line] goes into the error is the local variable. *)
Definition ParseXml (r : Reader) (path : string)
  : option Dat * slice * option (xmlParsingError xmlError) :=
  let br := r in
  let hr := mkHashingReader br [] in
  let lr := mkLineCountingReader hr 0 in
  let '(calls, (d, err)) := xmlDecode br in
  let (_, lr) := readCalls calls lr in
  match err with
  | Some e => (None, None, Some (ErrXmlParsing (lc_line lr) e))
  | None =>
      let d := fixDat d in
      (Some (Normalize d), Some (Sum (hr_h (lc_ir lr))), None)
  end.

(** **** [ParseDat] *)

(** The lexer, not among the sources: [tokenize] gives the items for the
    bytes of the input and [lineNumber] the line the lexer is at. *)
Variable rank : itemType -> Z.
Variable tokenize : list byte -> lexer.
Variable lineNumber : lexer -> Z.

(** The lexer reads [hr] until a [Read] reports an error (the end of the
    stream or a failure) and, as [io.Reader] asks of its callers, it takes
    the bytes a call delivers before it looks at the error of that call.
    The result is the bytes it has taken and the reader afterwards. *)
Fixpoint readToEnd (fuel : nat) (hr : hashingReader)
  : list byte * hashingReader :=
  match fuel with
  | O => ([], hr)
  | S fuel =>
      let (res, hr) := hashingReader_Read hr in
      match snd res with
      | Some _ => (fst res, hr)
      | None =>
          let (rest, hr) := readToEnd fuel hr in
          ((fst res ++ rest)%list, hr)
      end
  end.

(** [ParseDat].  A parse that succeeds has reached the end-of-file item, so
    the lexer has read its input to the end. *)
Definition ParseDat (r : Reader) (path : string)
  : outcome (option Dat * slice * option datError) :=
  let hr := mkHashingReader r [] in
  let (input, hr) := readToEnd (S (length r)) hr in
  let p := mkParser (tokenize input) emptyDat in
  match parse rank p with
  | (Returns (Some err), p) =>
      Returns (None, None, Some (ErrInFile path (lineNumber (p_ll p)) err))
  | (Returns None, p) =>
      Returns (Some (Normalize (p_d p)), Some (Sum (hr_h hr)), None)
  | (Panics, _) => Panics
  | (OutOfFuel, _) => OutOfFuel
  end.

End EntryPoints.

End Parser.

(* ===================================================================== *)
(** ** package archive: depot roots                                       *)
(* ===================================================================== *)

Module Archive.
Import Parser.
Local Open Scope list_scope.

(** *** [adjustSize] *)

Section DepotRoot.

(** [bloom.BloomFilter] (github.com/willf/bloom) and its [Add]. *)
Variable BloomFilter : Type.
Variable bf_Add : BloomFilter -> list byte -> BloomFilter.

Record depotRoot : Type := mkDepotRoot {
  dr_path : string;
  bloomReady : bool;
  bf : BloomFilter;
  touched : bool;
  size : Z;
  maxSize : Z;
  numBfAdded : Z
}.

(** Modelled from the spec: the [Depot] struct is not among the sources.
    "Model the set of shards as an owned, indexable collection": [roots],
    the only field that [adjustSize] uses. *)
Record Depot : Type := mkDepot { roots : list depotRoot }.

Definition setSize (dr : depotRoot) (v : Z) : depotRoot :=
  mkDepotRoot (dr_path dr) (bloomReady dr) (bf dr) (touched dr) v
    (maxSize dr) (numBfAdded dr).
Definition setBf (dr : depotRoot) (v : BloomFilter) : depotRoot :=
  mkDepotRoot (dr_path dr) (bloomReady dr) v (touched dr) (size dr)
    (maxSize dr) (numBfAdded dr).
Definition setTouched (dr : depotRoot) (v : bool) : depotRoot :=
  mkDepotRoot (dr_path dr) (bloomReady dr) (bf dr) v (size dr)
    (maxSize dr) (numBfAdded dr).

(** [adjustSize], run under the root's lock.  [depot.roots[index]] panics
    when [index] is out of range: the result is [None] then. *)
Definition adjustSize (depot : Depot) (index : Z) (delta : Z)
    (sha1Hex : string) : option Depot :=
  if index <? 0 then None
  else
    match roots depot !! Z.to_nat index with
    | None => None
    | Some dr =>
        let dr := setSize dr (wrap64 (size dr + delta)) in
        let dr := if size dr <? 0 then setSize dr 0 else dr in
        let dr :=
          if negb (String.eqb sha1Hex "") && bloomReady dr
          then setBf dr (bf_Add (bf dr) (list_byte_of_string sha1Hex))
          else dr in
        let dr := setTouched dr true in
        Some (mkDepot (<[Z.to_nat index := dr]> (roots depot)))
    end.

(** The root that [adjustSize] leaves at [index], in closed form (see
    [adjustSize_eq]). *)
Definition adjusted (dr : depotRoot) (delta : Z) (sha1Hex : string)
  : depotRoot :=
  mkDepotRoot (dr_path dr) (bloomReady dr)
    (if negb (String.eqb sha1Hex "") && bloomReady dr
     then bf_Add (bf dr) (list_byte_of_string sha1Hex) else bf dr)
    true
    (Z.max 0 (wrap64 (size dr + delta)))
    (maxSize dr) (numBfAdded dr).

End DepotRoot.

Arguments dr_path {BloomFilter} d.
Arguments bloomReady {BloomFilter} d.
Arguments bf {BloomFilter} d.
Arguments touched {BloomFilter} d.
Arguments size {BloomFilter} d.
Arguments maxSize {BloomFilter} d.
Arguments numBfAdded {BloomFilter} d.
Arguments roots {BloomFilter} d.
Arguments mkDepot {BloomFilter} roots.
Arguments mkDepotRoot {BloomFilter}.
Arguments adjustSize {BloomFilter} bf_Add depot index delta sha1Hex.
Arguments adjusted {BloomFilter} bf_Add dr delta sha1Hex.

(** *** [writeBloomFilterWithBackup] *)

(** The file system: the content of every file that exists. *)
Abbreviation FS := (gmap string (list byte)).

Inductive osError : Type :=
| ErrNotExist
| ErrOS (msg : string).

(** Which of the system calls of one run fail, and how far a failing write
    gets. *)
Record faults : Type := mkFaults {
  failExists : option osError;
  failRename : option osError;
  failCreate : option osError;
  failWrite : option (nat * osError)
}.

(** Modelled from the spec: [PathExists] is not among the sources.  The
    rename is for an "existing filter file": the call tells whether the file
    exists, or fails with an error. *)
Definition PathExists (flt : faults) (p : string) (fs : FS)
  : bool * option osError :=
  match failExists flt with
  | Some e => (false, Some e)
  | None => (bool_decide (is_Some (fs !! p)), None)
  end.

(** [os.Rename]: atomic; on failure nothing has changed. *)
Definition Rename (flt : faults) (oldpath newpath : string) (fs : FS)
  : option osError * FS :=
  match failRename flt with
  | Some e => (Some e, fs)
  | None =>
      match fs !! oldpath with
      | None => (Some ErrNotExist, fs)
      | Some data => (None, <[newpath := data]> (delete oldpath fs))
      end
  end.

(** [os.Create]: the file exists and is empty afterwards. *)
Definition Create (flt : faults) (p : string) (fs : FS)
  : option osError * FS :=
  match failCreate flt with
  | Some e => (Some e, fs)
  | None => (None, <[p := []]> fs)
  end.

(** The states of the file system while the first [upto] bytes of [data]
    go into the file, one state per byte. *)
Definition writeStates (p : string) (data : list byte) (upto : nat) (fs : FS)
  : list FS :=
  map (fun n => <[p := take n data]> fs) (seq 1 upto).

(** [WriteTo] on the created file: all of [data], or the bytes that made it
    before the failure. *)
Definition WriteTo (flt : faults) (p : string) (data : list byte) (fs : FS)
  : option osError * list FS :=
  match failWrite flt with
  | Some (n, e) => (Some e, writeStates p data (Nat.min n (length data)) fs)
  | None => (None, writeStates p data (length data) fs)
  end.

Definition lastState (fs : FS) (states : list FS) : FS := List.last states fs.

Section BloomFile.

Variable BloomFilter : Type.

(** The bytes [bf.WriteTo] produces. *)
Variable serialize : BloomFilter -> list byte.

(** [filepath.Join] and the two file names, declared outside the sources at
    hand. *)
Variable Join : string -> string -> string.
Variable bloomFilterFilename : string.
Variable backupBloomFilterFilename : string.

(** [writeBloomFilterWithBackup]: the error it returns and the states the
    file system goes through, in order; a crash leaves the file system in
    the initial state or in one of them. *)
Definition writeBloomFilterWithBackup (root : string) (bf : BloomFilter)
    (flt : faults) (fs : FS) : option osError * list FS :=
  let bfFilePath := Join root bloomFilterFilename in
  let (exists_, err) := PathExists flt bfFilePath fs in
  match err with
  | Some e => (Some e, [])
  | None =>
      let '(err, states) :=
        if exists_ then
          let backupBfFilePath := Join root backupBloomFilterFilename in
          let (err, fs) := Rename flt bfFilePath backupBfFilePath fs in
          match err with
          | Some e => (Some e, [])
          | None => (None, [fs])
          end
        else (None, []) in
      match err with
      | Some e => (Some e, states)
      | None =>
          let (err, fs) := Create flt bfFilePath (lastState fs states) in
          match err with
          | Some e => (Some e, states)
          | None =>
              let (err, written) := WriteTo flt bfFilePath (serialize bf) fs in
              (err, states ++ [fs] ++ written)
          end
      end
  end.

End BloomFile.

Arguments writeBloomFilterWithBackup {BloomFilter} serialize Join
  bloomFilterFilename backupBloomFilterFilename root bf flt fs.

End Archive.

(* ===================================================================== *)
(** ** package db: the refresh pipeline                                   *)
(* ===================================================================== *)

Module DB.
Import Parser.
Local Open Scope list_scope.

Definition MaxBatchSize : Z := 10485760.

(** The [RomBatch] interface over a batch state [B], with errors [E]. *)
Class RomBatch (B E : Type) : Type := {
  batch_IndexRom : Rom -> B -> option E * B;
  batch_IndexDat : option Dat -> slice -> B -> option E * B;
  batch_Size : B -> Z;
  batch_Flush : B -> option E * B;
  batch_Close : B -> option E * B
}.

(** The part of the [RomDB] interface that the refresh uses, over an index
    state [D]. *)
Class RomDB (D B E : Type) : Type := {
  db_StartBatch : D -> B * D;
  db_OrphanDats : D -> option E * D;
  db_Flush : D -> D
}.

(** The calls a run makes on the index, on a batch, on the parser and on
    the scheduler, in the order it makes them. *)
Inductive call : Type :=
| CallOrphanDats
| CallWork (name : string) (paths : list string)
| CallStartBatch
| CallSize
| CallFlush
| CallParse (path : string)
| CallIndexDat (dat : option Dat) (sha1 : slice)
| CallClose
| CallDBFlush.

Inductive processError (E P : Type) : Type :=
| ErrFailedToFlush (e : E)     (* "failed to flush: %v" *)
| ErrParse (e : P)
| ErrBatch (e : E).
Arguments ErrFailedToFlush {E P} e.
Arguments ErrParse {E P} e.
Arguments ErrBatch {E P} e.

Section Refresh.

Context {D B E : Type} {HB : RomBatch B E} {HD : RomDB D B E}.
Context {P ProgressTracker : Type}.

(** [parser.Parse], which reads the file at [path], with errors [P]. *)
Variable Parse : string -> option Dat * slice * option P.

(** [romBatch] is nil after [Close]. *)
Record refreshWorker : Type := mkRefreshWorker { romBatch : option B }.

(** [refreshWorker.Process]: the error, the worker afterwards and the calls
    made.  A call on a nil [romBatch] panics: [None]. *)
Definition Process (pw : refreshWorker) (path : string) (size : Z)
  : option (option (processError E P) * refreshWorker * list call) :=
  match romBatch pw with
  | None => None
  | Some b =>
      let log := [CallSize] in
      let '(err, b, log) :=
        if MaxBatchSize <=? batch_Size b then
          let log := log ++ [CallSize] in
          let (err, b) := batch_Flush b in
          (err, b, log ++ [CallFlush])
        else (None, b, log) in
      match err with
      | Some e => Some (Some (ErrFailedToFlush e), mkRefreshWorker (Some b), log)
      | None =>
          let '(dat, sha1Bytes, err) := Parse path in
          let log := log ++ [CallParse path] in
          match err with
          | Some e => Some (Some (ErrParse e), mkRefreshWorker (Some b), log)
          | None =>
              let (err, b) := batch_IndexDat dat sha1Bytes b in
              Some (option_map ErrBatch err, mkRefreshWorker (Some b),
                    log ++ [CallIndexDat dat sha1Bytes])
          end
      end
  end.

(** What [Process] does after the threshold test, on the batch [b], in
    closed form (see [Process_below] and [Process_above]). *)
Definition parseAndIndex (b : B) (path : string)
  : option (processError E P) * B * list call :=
  let '(dat, sha1Bytes, err) := Parse path in
  match err with
  | Some e => (Some (ErrParse e), b, [CallParse path])
  | None =>
      (option_map ErrBatch (fst (batch_IndexDat dat sha1Bytes b)),
       snd (batch_IndexDat dat sha1Bytes b),
       [CallParse path; CallIndexDat dat sha1Bytes])
  end.

(** [refreshWorker.Close] *)
Definition Close (pw : refreshWorker)
  : option (option E * refreshWorker * list call) :=
  match romBatch pw with
  | None => None
  | Some b =>
      let (err, _) := batch_Close b in
      Some (err, mkRefreshWorker None, [CallClose])
  end.

(** [pt] is a [worker.ProgressTracker], declared with the scheduler. *)
Record refreshMaster : Type := mkRefreshMaster {
  romdb : D;
  numWorkers : Z;
  pt : ProgressTracker
}.

(** [filepath.Ext]: the suffix from the last dot of the last path element,
    empty when there is none. *)
Fixpoint extFrom (rpath acc : list ascii) : string :=
  match rpath with
  | [] => ""
  | c :: rest =>
      if Ascii.eqb c "/" then ""
      else if Ascii.eqb c "." then string_of_list_ascii (c :: acc)
      else extFrom rest (c :: acc)
  end.

Definition Ext (path : string) : string :=
  extFrom (rev (list_ascii_of_string path)) [].

Definition Accept (pm : refreshMaster) (path : string) : bool :=
  let ext := Ext path in
  String.eqb ext ".dat" || String.eqb ext ".xml".

Definition NewWorker (pm : refreshMaster) (workerIndex : Z)
  : refreshWorker * refreshMaster * list call :=
  let (b, db) := db_StartBatch (romdb pm) in
  (mkRefreshWorker (Some b), mkRefreshMaster db (numWorkers pm) (pt pm),
   [CallStartBatch]).

Definition FinishUp (pm : refreshMaster)
  : option E * refreshMaster * list call :=
  (None, mkRefreshMaster (db_Flush (romdb pm)) (numWorkers pm) (pt pm),
   [CallDBFlush]).

(** The error of a walk. *)
Inductive workError : Type :=
| ErrDB (e : E)
| ErrProcess (e : processError E P)
| ErrPanic.

(** [worker.Work], the scheduler, declared outside the sources at hand: the
    report and error of the walk, the index afterwards and the calls the
    walk made, in the order they were issued. *)
Variable Work :
  string -> list string -> refreshMaster ->
  (string * option workError) * D * list call.

(** [Refresh] *)
Definition Refresh (romdb : D) (datsPath : string) (numWorkers : Z)
    (pt : ProgressTracker) : (string * option workError) * D * list call :=
  let (err, romdb) := db_OrphanDats romdb in
  let log := [CallOrphanDats] in
  match err with
  | Some e => (("", Some (ErrDB e)), romdb, log)
  | None =>
      let pm := mkRefreshMaster romdb numWorkers pt in
      let '(res, romdb, walk) := Work "refresh dats" [datsPath] pm in
      (res, romdb, log ++ CallWork "refresh dats" [datsPath] :: walk)
  end.

End Refresh.

Arguments Process {B E HB P} Parse pw path size.
Arguments parseAndIndex {B E HB P} Parse b path.
Arguments Refresh {D B E HD P ProgressTracker} Work romdb datsPath numWorkers pt.

(** Modelled from the spec: [worker.Work] is not among the sources.  This
    is a scheduler with one worker after the "worker-pool contract" ("a
    master supplies accept, newWorker, numWorkers, progressTracker,
    finishUp; a worker supplies process and close"), to run [Refresh] on an
    example: the worker is made by [NewWorker], processes in turn the
    accepted files of the tree, stops at the first error and is then closed,
    and [FinishUp] ends the walk. *)
Section OneWorker.

Context {D B E : Type} {HB : RomBatch B E} {HD : RomDB D B E}.
Context {P ProgressTracker : Type}.
Variable Parse : string -> option Dat * slice * option P.

Fixpoint processAll (pw : refreshWorker) (files : list string)
  : option (option (processError E P) * refreshWorker * list call) :=
  match files with
  | [] => Some (None, pw, [])
  | path :: rest =>
      match Process Parse pw path 0 with
      | None => None
      | Some (Some e, pw, log) => Some (Some e, pw, log)
      | Some (None, pw, log) =>
          match processAll pw rest with
          | None => None
          | Some (err, pw, more) => Some (err, pw, log ++ more)
          end
      end
  end.

Definition oneWorker (tree : list string) (name : string)
    (paths : list string) (pm : @refreshMaster D ProgressTracker)
  : (string * option (@workError E P)) * D * list call :=
  let files := List.filter (Accept pm) tree in
  let '(pw, pm, started) := NewWorker pm 0 in
  match processAll pw files with
  | None => (("", Some ErrPanic), romdb pm, started)
  | Some (err, pw, processed) =>
      match Close pw with
      | None => (("", Some ErrPanic), romdb pm, started ++ processed)
      | Some (_, _, closed) =>
          let '(_, pm, finished) := FinishUp pm in
          ((name, option_map ErrProcess err), romdb pm,
           started ++ processed ++ closed ++ finished)
      end
  end.

End OneWorker.

End DB.

(* ===================================================================== *)
(** ** Sample inputs                                                      *)
(* ===================================================================== *)

Module Samples.
Import Hex Parser Archive DB.
Local Open Scope list_scope.

(** A depot: the filter is the list of the content ids added, the first
    shard holds 5 bytes and its filter is ready. *)
Definition sampleRoot : depotRoot (list (list byte)) :=
  mkDepotRoot "depot0" true [] false 5 100 0.

Definition sampleDepot : Depot (list (list byte)) :=
  mkDepot [sampleRoot; mkDepotRoot "depot1" false [] false 7 100 0].

Definition sampleAdd (f : list (list byte)) (x : list byte) := x :: f.

(** A run of the filter write: the old filter is the byte 01, the new one
    the bytes 02 03, and the write fails after one byte. *)
Definition sampleJoin (dir name : string) : string := (dir ++ "/" ++ name)%string.

Definition sampleFS : FS := {[ "d/bloomfilter" := [x01] ]}.

Definition sampleFaults : faults :=
  mkFaults None None None (Some (1%nat, ErrOS "no space left on device")).

(** A batch that only keeps its size: every catalog adds 6000000 bytes and
    a flush empties it. *)
#[export] Instance sampleBatch : RomBatch Z string := {
  batch_IndexRom _ b := (None, b + 1);
  batch_IndexDat _ _ b := (None, b + 6000000);
  batch_Size b := b;
  batch_Flush _ := (None, 0);
  batch_Close b := (None, b)
}.

(** An index that records what was done to it. *)
#[export] Instance sampleDB : RomDB (list string) Z string := {
  db_StartBatch d := (0, d);
  db_OrphanDats d := (None, d ++ ["orphaned"%string]);
  db_Flush d := d ++ ["flushed"%string]
}.

(** An index whose orphan marking fails. *)
Definition failingDB : RomDB (list string) Z string := {|
  db_StartBatch d := (0, d);
  db_OrphanDats d := (Some "index is read-only"%string, d);
  db_Flush d := d ++ ["flushed"%string]
|}.

(** Every file parses to the empty catalog with the digest 00. *)
Definition sampleParse (path : string) : option Dat * slice * option string :=
  (Some emptyDat, Some [x00], None).

Definition sampleTree : list string :=
  ["dats/a.dat"; "dats/readme.txt"; "dats/b.xml"]%string.

(** Roms as the XML decoder leaves them: the hash fields hold the text of
    the attributes. *)
Definition xmlRom : Rom :=
  mkRom "a.bin" 3 (Some (list_byte_of_string "1a2b3c4d")) None None.

Definition xmlRomBadSha1 : Rom :=
  mkRom "a.bin" 3 (Some (list_byte_of_string "1a2b3c4d")) None
    (Some (list_byte_of_string "12zz")).

(** A stand-in for the lexer, enough for inputs whose items are separated
    by blanks or newlines. *)
Definition sampleItem (w : string) : item :=
  let t :=
    if String.eqb w "(" then itemOpenBrace
    else if String.eqb w ")" then itemCloseBrace
    else if String.eqb w "clrmamepro" then itemClrMamePro
    else if String.eqb w "game" then itemGame
    else if String.eqb w "rom" then itemRom
    else if String.eqb w "name" then itemName
    else if String.eqb w "description" then itemDescription
    else if String.eqb w "size" then itemSize
    else if String.eqb w "crc" then itemCrc
    else if String.eqb w "md5" then itemMd5
    else if String.eqb w "sha1" then itemSha1
    else itemValue in
  mkItem t w.

Definition sampleWord (cur : list ascii) : list string :=
  match cur with
  | [] => []
  | _ => [string_of_list_ascii cur]
  end.

Fixpoint sampleWords (l cur : list ascii) : list string :=
  match l with
  | [] => sampleWord cur
  | c :: rest =>
      if Ascii.eqb c " " || Ascii.eqb c (ascii_of_nat 10)
      then sampleWord cur ++ sampleWords rest []
      else sampleWords rest (cur ++ [c])
  end.

Definition sampleTokenize (input : list byte) : lexer :=
  map sampleItem (sampleWords (map ascii_of_byte input) []).

Definition sampleRank (t : itemType) : Z :=
  match t with
  | itemError => 0 | itemEOF => 1 | itemOpenBrace => 2 | itemCloseBrace => 3
  | itemQuotedString => 4 | itemValue => 5
  | itemClrMamePro => 7 | itemGame => 8 | itemRom => 9
  | itemName => 10 | itemDescription => 11 | itemSize => 12
  | itemCrc => 13 | itemMd5 => 14 | itemSha1 => 15
  | itemOther k => k
  end.

(** The items after a [game] keyword: a rom with a malformed sha1, then a
    well-formed rom. *)
Definition sampleGameItems : lexer :=
  sampleTokenize (list_byte_of_string
    "( name g rom ( name a.bin sha1 zz size 3 ) rom ( name b.bin size 4 ) )").

(** A stream that hands over its only bytes together with the end of the
    stream, and one that reports the end in a call of its own. *)
Definition sampleText : list byte := list_byte_of_string "game ( name g )".

Definition sampleEofStream : Reader := [(sampleText, Some io_EOF)].

Definition sampleCleanStream : Reader :=
  [(firstn 6 sampleText, None); (skipn 6 sampleText, None); ([], Some io_EOF)].

(** An XML input of three lines, read in two calls, on which the decoder
    fails after it has read everything. *)
Definition sampleXmlStream : Reader :=
  [(list_byte_of_string "<datafile>" ++ [x0a]
      ++ list_byte_of_string "<game>" ++ [x0a], None);
   (list_byte_of_string "</datafile>" ++ [x0a], None)].

Definition sampleXmlDecode (r : Reader) : nat * (Dat * option string) :=
  (S (length r), (emptyDat, Some "element <game> closed by </datafile>"%string)).

End Samples.

(* ===================================================================== *)
(** ** strconv: decimal formatting (Go standard library)                  *)
(* ===================================================================== *)

Module Strconv.
Import Parser.

(** The character of the decimal digit [d]. *)
Definition digitChar (d : Z) : ascii := ascii_of_N (Z.to_N (48 + d)).

(** [formatBits] in base 10: the digits of [u] go in front of [acc], the
    last digit first; there is always one digit.  A [uint64] has at most 20
    digits. *)
Fixpoint formatBits (fuel : nat) (u : Z) (acc : string) : string :=
  match fuel with
  | O => acc
  | S fuel =>
      let acc := String (digitChar (u mod 10)) acc in
      if u / 10 =? 0 then acc else formatBits fuel (u / 10) acc
  end.

Definition FormatUint (u : Z) : string := formatBits 20 u "".

(** [strconv.FormatInt(i, 10)] *)
Definition FormatInt (i : Z) : string :=
  if i <? 0 then String "-" (FormatUint (- i)) else FormatUint i.

(** [strconv.ParseInt(s, 10, 64)]: what [Atoi] does for a 64-bit [int]. *)
Definition ParseInt (s : string) : Z * option numError := Atoi s.

End Strconv.

(* ===================================================================== *)
(** ** package db: the generation file                                    *)
(* ===================================================================== *)

Module Generation.
Import Parser Archive Strconv.
Local Open Scope list_scope.

Definition generationFilename : string := "romba-generation".

(** Which of the system calls of one run fail, and how far a failing write
    gets. *)
Record genFaults : Type := mkGenFaults {
  gfOpen : option osError;
  gfRead : option osError;
  gfCreate : option osError;
  gfWrite : option (nat * osError)
}.

Definition noGenFaults : genFaults := mkGenFaults None None None None.

(** The faults of [os.Create] and of the write, for the file-system calls
    of the depot model. *)
Definition createFaults (flt : genFaults) : faults :=
  mkFaults None None (gfCreate flt) (gfWrite flt).

Inductive genError : Type :=
| GenOS (e : osError)
| GenNum (e : numError).

Definition isNotExist (e : osError) : bool :=
  match e with ErrNotExist => true | _ => false end.

Section GenerationFile.

(** [filepath.Join] *)
Variable Join : string -> string -> string.

(** [WriteGenerationFile].  The decimal text goes into a buffered writer
    that the deferred [bw.Flush()] empties into the file before the deferred
    [file.Close()]; the error of the flush is dropped, so only a failing
    [os.Create] is reported. *)
Definition WriteGenerationFile (flt : genFaults) (root : string) (size : Z)
    (fs : FS) : option osError * FS :=
  let (err, fs) := Create (createFaults flt) (Join root generationFilename) fs in
  match err with
  | Some e => (Some e, fs)
  | None =>
      let data := list_byte_of_string (FormatInt size) in
      let (_, written) :=
        WriteTo (createFaults flt) (Join root generationFilename) data fs in
      (None, lastState fs written)
  end.

(** [os.Open]: the content of the file, or the error. *)
Definition Open (failOpen : option osError) (p : string) (fs : FS)
  : list byte + osError :=
  match failOpen with
  | Some e => inr e
  | None =>
      match fs !! p with
      | Some data => inl data
      | None => inr ErrNotExist
      end
  end.

(** [ReadGenerationFile]: a missing file is created with the value 0. *)
Definition ReadGenerationFile (flt : genFaults) (root : string) (fs : FS)
  : (Z * option genError) * FS :=
  match Open (gfOpen flt) (Join root generationFilename) fs with
  | inr e =>
      if isNotExist e then
        let (err, fs) := WriteGenerationFile flt root 0 fs in
        match err with
        | Some e => ((0, Some (GenOS e)), fs)
        | None => ((0, None), fs)
        end
      else ((0, Some (GenOS e)), fs)
  | inl bs =>
      match gfRead flt with
      | Some e => ((0, Some (GenOS e)), fs)
      | None =>
          let (v, err) := ParseInt (string_of_list_byte bs) in
          ((v, option_map GenNum err), fs)
      end
  end.

End GenerationFile.

End Generation.

(* ===================================================================== *)
(** ** package parser: [isXML] and [Parse]                                *)
(* ===================================================================== *)

Module ParseFile.
Import Hex Strings Parser Archive Generation.
Local Open Scope list_scope.

(** Which of the system calls of one [Parse] fail: the two [os.Open] and
    the read of the first bytes. *)
Record parseFaults : Type := mkParseFaults {
  pfOpenSniff : option osError;
  pfReadSniff : option osError;
  pfOpen : option osError
}.

Definition noParseFaults : parseFaults := mkParseFaults None None None.

(** [strings.HasPrefix] *)
Definition HasPrefix (s pre : string) : bool := String.prefix pre s.

(** [isXML]: the file is opened, at most 256 bytes are read through an
    [io.LimitedReader], and the snippet is tested for the prefix "<?xml". *)
Definition isXML (flt : parseFaults) (path : string) (fs : FS)
  : bool * option osError :=
  match Open (pfOpenSniff flt) path fs with
  | inr e => (false, Some e)
  | inl content =>
      match pfReadSniff flt with
      | Some e => (false, Some e)
      | None =>
          let snippet := take 256 content in
          (HasPrefix (string_of_list_byte snippet) "<?xml", None)
      end
  end.

Inductive parseFileError (X : Type) : Type :=
| ErrFile (e : osError)
| ErrXml (e : xmlParsingError X)
| ErrDat (e : datError).
Arguments ErrFile {X} e.
Arguments ErrXml {X} e.
Arguments ErrDat {X} e.

Section Parse.

Variable Sum : list byte -> list byte.
Variable Normalize : Dat -> Dat.
Variable xmlError : Type.
Variable xmlDecode : Reader -> nat * (Dat * option xmlError).
Variable rank : itemType -> Z.
Variable tokenize : list byte -> lexer.
Variable lineNumber : lexer -> Z.

(** The results of the [Read] calls on a freshly opened file with the
    given content (how the content is cut depends on the buffers of the
    caller). *)
Variable fileReads : list byte -> Reader.

(** [Parse]: the file is opened a second time for the parse itself. *)
Definition Parse (flt : parseFaults) (path : string) (fs : FS)
  : outcome (option Dat * slice * option (parseFileError xmlError)) :=
  let (isXML, err) := isXML flt path fs in
  match err with
  | Some e => Returns (None, None, Some (ErrFile e))
  | None =>
      match Open (pfOpen flt) path fs with
      | inr e => Returns (None, None, Some (ErrFile e))
      | inl content =>
          if isXML then
            let '(d, digest, err) :=
              ParseXml Sum Normalize xmlError xmlDecode (fileReads content) path in
            Returns (d, digest, option_map ErrXml err)
          else
            match ParseDat Sum Normalize rank tokenize lineNumber
                    (fileReads content) path with
            | Returns (d, digest, err) => Returns (d, digest, option_map ErrDat err)
            | Panics => Panics
            | OutOfFuel => OutOfFuel
            end
      end
  end.

End Parse.

End ParseFile.

(* ===================================================================== *)
(** ** The items of a rom statement                                       *)
(* ===================================================================== *)

Module Printing.
Import Hex Strings Parser Strconv.
Local Open Scope list_scope.

(** The two items of a hash field, none for a nil hash. *)
Definition hashItems (kw : itemType) (word : string) (h : slice) : list item :=
  match h with
  | None => []
  | Some raw => [mkItem kw word; mkItem itemValue (EncodeToString raw)]
  end.

(** The items of the statement
    [( name N size S crc C md5 M sha1 H )] that describes [r]. *)
Definition romItems (r : Rom) : list item :=
  [mkItem itemOpenBrace "("; mkItem itemName "name"; mkItem itemValue (rName r);
   mkItem itemSize "size"; mkItem itemValue (FormatInt (rSize r))]
  ++ hashItems itemCrc "crc" (rCrc r)
  ++ hashItems itemMd5 "md5" (rMd5 r)
  ++ hashItems itemSha1 "sha1" (rSha1 r)
  ++ [mkItem itemCloseBrace ")"].

(** A hash that is nil, or not empty and at least as long as the canonical
    hex length asks. *)
Definition fullHash (expectedLength : Z) (h : slice) : Prop :=
  match h with
  | None => True
  | Some raw => raw <> [] /\ expectedLength <= 2 * Z.of_nat (length raw)
  end.

Definition printableRom (r : Rom) : Prop :=
  - 2 ^ 63 <= rSize r < 2 ^ 63
  /\ fullHash 8 (rCrc r) /\ fullHash 32 (rMd5 r) /\ fullHash 40 (rSha1 r).

(** The text of a hash attribute in an XML catalog: the hex digits of the
    raw bytes. *)
Definition hexText (raw : list byte) : list byte :=
  list_byte_of_string (EncodeToString raw).

(** What a catalog looks like apart from the values of the hashes: the
    names, the sizes, which hashes are there, and the order of everything. *)
Definition romShape (r : Rom) : string * Z * (bool * bool * bool) :=
  (rName r, rSize r,
   (bool_decide (is_Some (rCrc r)), bool_decide (is_Some (rMd5 r)),
    bool_decide (is_Some (rSha1 r)))).

Definition gameShape (g : Game) :=
  (gName g, gDescription g,
   (map romShape (gRoms g), map romShape (gDisks g),
    map romShape (gParts g), map romShape (gRegions g))).

Definition datShape (d : Dat) :=
  (dName d, dDescription d,
   (map gameShape (dGames d), map gameShape (dSoftware d))).

(** The bytes of the calls without error among the first [n] calls on
    [r]. *)
Fixpoint hashedFirst (n : nat) (r : Reader) : list byte :=
  match n, r with
  | S n, (buf, None) :: rest => buf ++ hashedFirst n rest
  | S n, (_, Some _) :: rest => hashedFirst n rest
  | _, _ => []
  end.

End Printing.

(* ===================================================================== *)
(** ** Further sample inputs                                              *)
(* ===================================================================== *)

Module MoreSamples.
Import Hex Parser Archive DB Strconv Samples.
Local Open Scope list_scope.

(** The reads of a file: the content in one call, then the end. *)
Definition sampleFileReads (content : list byte) : Reader :=
  [(content, None); ([], Some io_EOF)].


(** The items of a rom statement followed by the closing brace of its
    game, and a rom with a crc only. *)
Definition sampleRomItems : lexer :=
  sampleTokenize (list_byte_of_string "( name b.bin size 4 ) )").

Definition sampleCrcRom : Rom :=
  mkRom "b.bin" 4 (Some [x1a; x2b; x3c; x4d]) None None.


(** A depot whose two roots are dirty, the filter of the first one ready,
    and two stand-ins for [writeSizeFile]: one that writes the decimal size
    into the file "size" of the root, one that always fails. *)
Definition sampleDirtyDepot : Depot (list byte) :=
  mkDepot [mkDepotRoot "depot0" true [x02; x03] true 5 100 0;
           mkDepotRoot "depot1" false [] true 7 100 0].

Definition sampleWriteSizeFile (root : string) (size : Z) (fs : FS)
  : option osError * FS :=
  (None, <[sampleJoin root "size" := list_byte_of_string (FormatInt size)]> fs).

Definition failingWriteSizeFile (root : string) (size : Z) (fs : FS)
  : option osError * FS :=
  (Some (ErrOS "read-only file system"), fs).

Definition sampleReadFrom (data : list byte) (bf : list byte)
  : list byte * option string :=
  (data, None).

Definition createDenied : faults :=
  mkFaults None None (Some (ErrOS "permission denied")) None.


(** A catalog of one game with one rom. *)
Definition sampleDat : Dat :=
  mkDat "set" "a set" [mkGame "g" "a game" [sampleCrcRom] [] [] []] [].

End MoreSamples.

(* ===================================================================== *)
(** ** archive/depot_root.go: loading and writing the filters and sizes   *)
(* ===================================================================== *)

Module Persist.
Import Parser Archive Generation.
Local Open Scope list_scope.

Definition noFaults : faults := mkFaults None None None None.

Inductive loadError (R : Type) : Type :=
| LoadOS (e : osError)
| LoadRead (e : R).
Arguments LoadOS {R} e.
Arguments LoadRead {R} e.

Section Filters.

Variable BloomFilter : Type.

(** [bf.WriteTo]: the bytes it produces; [bf.ReadFrom]: the filter after
    reading the bytes of a file, and its error. *)
Variable serialize : BloomFilter -> list byte.
Variable readError : Type.
Variable ReadFrom : list byte -> BloomFilter -> BloomFilter * option readError.

(** [filepath.Join] and the two file names, declared outside the sources at
    hand. *)
Variable Join : string -> string -> string.
Variable bloomFilterFilename : string.
Variable backupBloomFilterFilename : string.

(** [loadBloomFilter]: the filter afterwards and the error.  [flt] gives the
    fault of [PathExists], [failOpen] the one of [os.Open]. *)
Definition loadBloomFilter (root : string) (bf : BloomFilter)
    (flt : faults) (failOpen : option osError) (fs : FS)
  : BloomFilter * option (loadError readError) :=
  let bfp := Join root bloomFilterFilename in
  let (exists_, err) := PathExists flt bfp fs in
  match err with
  | Some e => (bf, Some (LoadOS e))
  | None =>
      if negb exists_ then (bf, None)
      else
        match Open failOpen bfp fs with
        | inr e => (bf, Some (LoadOS e))
        | inl data =>
            let (bf, err) := ReadFrom data bf in
            (bf, option_map LoadRead err)
        end
  end.

(** [writeBloomFilter]: the error and the states the file system goes
    through. *)
Definition writeBloomFilter (path : string) (bf : BloomFilter)
    (flt : faults) (fs : FS) : option osError * list FS :=
  let (err, fs) := Create flt path fs in
  match err with
  | Some e => (Some e, [])
  | None =>
      let (err, written) := WriteTo flt path (serialize bf) fs in
      (err, [fs] ++ written)
  end.

(** [writeSizeFile], declared outside the sources at hand: the error and
    the file system afterwards. *)
Variable writeSizeFile : string -> Z -> FS -> option osError * FS.

(** The body of the loop of [writeSizes] for one root, under its lock;
    [flt] gives the faults of its filter write. *)
Definition writeRoot (flt : faults) (dr : depotRoot BloomFilter) (fs : FS)
  : depotRoot BloomFilter * FS :=
  if touched dr then
    let (err, fs) := writeSizeFile (dr_path dr) (size dr) fs in
    let dr :=
      match err with
      | Some _ => dr (* glog.Errorf *)
      | None => setTouched BloomFilter dr false
      end in
    if bloomReady dr then
      let (err, states) :=
        writeBloomFilterWithBackup serialize Join bloomFilterFilename
          backupBloomFilterFilename (dr_path dr) (bf dr) flt fs in
      let fs := lastState fs states in
      match err with
      | Some _ => (setTouched BloomFilter dr true, fs) (* glog.Errorf *)
      | None => (dr, fs)
      end
    else (dr, fs)
  else (dr, fs).

(** The loop over [depot.roots], from the root number [i] on; [plan] gives
    the faults of the filter write of each root. *)
Fixpoint writeRoots (plan : nat -> faults) (i : nat)
    (rs : list (depotRoot BloomFilter)) (fs : FS)
  : list (depotRoot BloomFilter) * FS :=
  match rs with
  | [] => ([], fs)
  | dr :: rest =>
      let (dr, fs) := writeRoot (plan i) dr fs in
      let (rest, fs) := writeRoots plan (S i) rest fs in
      (dr :: rest, fs)
  end.

(** [writeSizes] *)
Definition writeSizes (plan : nat -> faults) (depot : Depot BloomFilter)
    (fs : FS) : Depot BloomFilter * FS :=
  let (rs, fs) := writeRoots plan 0 (roots depot) fs in
  (mkDepot rs, fs).

End Filters.

Arguments loadBloomFilter {BloomFilter readError} ReadFrom Join
  bloomFilterFilename root bf flt failOpen fs.
Arguments writeBloomFilter {BloomFilter} serialize path bf flt fs.
Arguments writeRoot {BloomFilter} serialize Join bloomFilterFilename
  backupBloomFilterFilename writeSizeFile flt dr fs.
Arguments writeRoots {BloomFilter} serialize Join bloomFilterFilename
  backupBloomFilterFilename writeSizeFile plan i rs fs.
Arguments writeSizes {BloomFilter} serialize Join bloomFilterFilename
  backupBloomFilterFilename writeSizeFile plan depot fs.

End Persist.

(* ===================================================================== *)
(** ** The items of a printed game and of a printed catalog               *)
(* ===================================================================== *)

Module CatalogText.
Import Hex Strings Parser Strconv Printing.
Local Open Scope list_scope.

Section Reaches.

Variable rank : itemType -> Z.

(** The rounds of [gameStmt]'s loop that go on: from the game [g] at item
    [i] they lead to the game [g'] at item [i']. *)
Inductive gameReaches : Game -> item -> lexer -> Game -> item -> lexer -> Prop :=
| game_here (g : Game) (i : item) (ll : lexer) :
    gameReaches g i ll g i ll
| game_round (g g1 g' : Game) (i i' : item) (ll ll1 ll' : lexer) :
    endsStmt (typ i) = false ->
    gameRound rank g i ll = (Returns (Goes g1), ll1) ->
    gameReaches g1 (fst (nextItem ll1)) (snd (nextItem ll1)) g' i' ll' ->
    gameReaches g i ll g' i' ll'.

End Reaches.

(** The items of the rom statements of a game, each after its [rom]
    keyword. *)
Definition romsItems (roms : list Rom) : list item :=
  concat (map (fun r => mkItem itemRom "rom" :: romItems r) roms).

(** The items of the statement
    [( name N description D rom ( ... ) ... rom ( ... ) )] that describes
    [g]. *)
Definition gameItems (g : Game) : list item :=
  [mkItem itemOpenBrace "("; mkItem itemName "name"; mkItem itemValue (gName g);
   mkItem itemDescription "description"; mkItem itemValue (gDescription g)]
  ++ romsItems (gRoms g)
  ++ [mkItem itemCloseBrace ")"].

Definition gamesItems (games : list Game) : list item :=
  concat (map (fun g => mkItem itemGame "game" :: gameItems g) games).

(** The items of a catalog: the header statement, then the games. *)
Definition datItems (d : Dat) : list item :=
  [mkItem itemClrMamePro "clrmamepro"; mkItem itemOpenBrace "(";
   mkItem itemName "name"; mkItem itemValue (dName d);
   mkItem itemDescription "description"; mkItem itemValue (dDescription d);
   mkItem itemCloseBrace ")"]
  ++ gamesItems (dGames d).

(** What the text format can say: roms only, each of them printable. *)
Definition printableGame (g : Game) : Prop :=
  Forall printableRom (gRoms g)
  /\ gDisks g = [] /\ gParts g = [] /\ gRegions g = [].

Definition printableDat (d : Dat) : Prop :=
  Forall printableGame (dGames d) /\ dSoftware d = [].

(** The items that the loop of [gameStmt] passes over: they end no
    statement and start no field of a game. *)
Definition inert (i : item) : bool :=
  match typ i with
  | itemName | itemDescription | itemRom
  | itemCloseBrace | itemEOF | itemError => false
  | _ => true
  end.

End CatalogText.

(* ===================================================================== *)
(** ** Hash coercion: [stringValue2Bytes]                                 *)
(* ===================================================================== *)

Module HexFacts.
Import Hex Strings Parser.

Lemma pack_hi (b : byte) :
  packByte (N.shiftr (Byte.to_N b) 4) (N.land (Byte.to_N b) 15) = b.
Proof. destruct b; reflexivity. Qed.

Lemma hextable_digit (b : byte) :
  reverseHexTable (hextable (N.shiftr (Byte.to_N b) 4)) = N.shiftr (Byte.to_N b) 4
  /\ reverseHexTable (hextable (N.land (Byte.to_N b) 15)) = N.land (Byte.to_N b) 15
  /\ (N.shiftr (Byte.to_N b) 4 <= 15)%N
  /\ (N.land (Byte.to_N b) 15 <= 15)%N.
Proof. destruct b; vm_compute; intuition discriminate. Qed.

(** Decoding undoes encoding. *)
Lemma Decode_EncodeToString (raw : list byte) :
  Decode (EncodeToString raw) = (raw, None).
Proof.
  induction raw as [|b raw IH]; [reflexivity|].
  destruct (hextable_digit b) as (Hh & Hl & Bh & Bl).
  cbn [EncodeToString Decode]. rewrite Hh, Hl.
  apply N.ltb_ge in Bh, Bl. rewrite Bh, Bl, IH, pack_hi. reflexivity.
Qed.

(** A hex digit's value, written back as a digit, is the digit in lower
    case. *)
Lemma hextable_reverse (p : ascii) :
  (reverseHexTable p <=? 15)%N = true ->
  hextable (reverseHexTable p) = lowerChar p.
Proof.
  destruct p as [[] [] [] [] [] [] [] []]; vm_compute; intros H;
    solve [discriminate H | reflexivity].
Qed.

Lemma nibble_cases (a : N) :
  (a <=? 15)%N = true ->
  In a [0; 1; 2; 3; 4; 5; 6; 7; 8; 9; 10; 11; 12; 13; 14; 15]%N.
Proof. intros H%N.leb_le. cbn [In]. lia. Qed.

Lemma unpack_packByte (a b : N) :
  (a <=? 15)%N = true -> (b <=? 15)%N = true ->
  N.shiftr (Byte.to_N (packByte a b)) 4 = a
  /\ N.land (Byte.to_N (packByte a b)) 15 = b.
Proof.
  intros Ha%nibble_cases Hb%nibble_cases. cbn [In] in Ha, Hb.
  repeat (destruct Ha as [<-|Ha]; [|]); try contradiction;
    repeat (destruct Hb as [<-|Hb]; [|]); try contradiction;
    split; reflexivity.
Qed.

Lemma append_String (c : ascii) (s t : string) :
  String c s ++ t = String c (s ++ t).
Proof. reflexivity. Qed.

Lemma isHex_app (s t : string) :
  isHex (s ++ t) = isHex s && isHex t.
Proof.
  induction s as [|c s IH]; [reflexivity|].
  rewrite append_String. cbn [isHex]. rewrite IH. apply andb_assoc.
Qed.

Lemma isHex_Repeat_zero (k : nat) : isHex (Repeat "0" k) = true.
Proof. induction k as [|k IH]; [reflexivity|]. cbn [Repeat isHex]. now rewrite IH. Qed.

Lemma length_Repeat (c : ascii) (k : nat) : String.length (Repeat c k) = k.
Proof. induction k as [|k IH]; cbn; congruence. Qed.

Lemma length_app_string (s t : string) :
  String.length (s ++ t) = (String.length s + String.length t)%nat.
Proof.
  induction s as [|c s IH]; [reflexivity|].
  rewrite append_String. cbn [String.length]. now rewrite IH.
Qed.

Lemma toLower_app (s t : string) : toLower (s ++ t) = toLower s ++ toLower t.
Proof.
  induction s as [|c s IH]; [reflexivity|].
  rewrite append_String. cbn [toLower]. now rewrite IH.
Qed.

Lemma toLower_Repeat_zero (k : nat) : toLower (Repeat "0" k) = Repeat "0" k.
Proof. induction k as [|k IH]; [reflexivity|]. cbn [Repeat toLower]. now rewrite IH. Qed.

(** A hex string of even length decodes without error, to half as many
    bytes, and these are the bytes the string spells. *)
Lemma Decode_isHex_even (n : nat) (s : string) :
  String.length s = (2 * n)%nat -> isHex s = true ->
  exists raw, Decode s = (raw, None) /\ length raw = n
              /\ EncodeToString raw = toLower s.
Proof.
  revert s; induction n as [|n IH]; intros s Hlen Hhex.
  - destruct s; [|discriminate]. exists []. auto.
  - destruct s as [|p [|q s]]; cbn [String.length] in Hlen; try lia.
    cbn [isHex] in Hhex. apply andb_prop in Hhex as [Hp Hhex].
    apply andb_prop in Hhex as [Hq Hhex].
    destruct (IH s) as (raw & Hd & Hl & He); [lia|assumption|].
    exists (packByte (reverseHexTable p) (reverseHexTable q) :: raw).
    cbn [Decode].
    pose proof Hp as Hp'. pose proof Hq as Hq'.
    apply N.leb_le, N.ltb_ge in Hp', Hq'. rewrite Hp', Hq', Hd.
    split; [reflexivity|]. split; [cbn [length]; congruence|].
    cbn [EncodeToString toLower].
    destruct (unpack_packByte _ _ Hp Hq) as [-> ->].
    rewrite !hextable_reverse by assumption. now rewrite He.
Qed.

(** No white-space rune starts or ends with a hexadecimal digit. *)
Lemma stripAny_hex (c : ascii) (l : list ascii) :
  (reverseHexTable c <=? 15)%N = true ->
  stripAny spaceRunes (c :: l) = None
  /\ stripAny (map (@rev ascii) spaceRunes) (c :: l) = None.
Proof.
  destruct c as [[] [] [] [] [] [] [] []]; vm_compute; intros H;
    try discriminate; split; reflexivity.
Qed.

Lemma trimLeft_hex_head (runes : list (list ascii)) (c : ascii) (l : list ascii) :
  stripAny runes (c :: l) = None -> trimLeft runes (c :: l) = c :: l.
Proof. intros H. unfold trimLeft. cbn [length trimLeftN]. now rewrite H. Qed.

Lemma isHex_last (s : string) (l : list ascii) (c : ascii) :
  isHex s = true -> rev (list_ascii_of_string s) = c :: l ->
  (reverseHexTable c <=? 15)%N = true.
Proof.
  intros Hhex Hrev.
  assert (Hall : forall d, In d (list_ascii_of_string s) ->
                   (reverseHexTable d <=? 15)%N = true).
  { clear Hrev. induction s as [|e s IH]; cbn; [tauto|].
    cbn [isHex] in Hhex. apply andb_prop in Hhex as [He Hs].
    intros d [<-|Hd]; auto. }
  apply Hall. apply in_rev. rewrite Hrev. now left.
Qed.

(** Trimming leaves a string of hexadecimal digits alone. *)
Lemma TrimSpace_isHex (s : string) : isHex s = true -> TrimSpace s = s.
Proof.
  intros Hhex. unfold TrimSpace.
  destruct s as [|c s]; [reflexivity|].
  assert (Hc : (reverseHexTable c <=? 15)%N = true).
  { cbn [isHex] in Hhex. now apply andb_prop in Hhex as [Hc _]. }
  cbn [list_ascii_of_string].
  destruct (stripAny_hex c (list_ascii_of_string s) Hc) as [H1 _].
  rewrite (trimLeft_hex_head _ _ _ H1).
  change (c :: list_ascii_of_string s) with (list_ascii_of_string (String c s)).
  destruct (rev (list_ascii_of_string (String c s))) as [|d l] eqn:Hrev.
  - apply (f_equal (@rev ascii)) in Hrev. rewrite rev_involutive in Hrev.
    cbn in Hrev. discriminate.
  - destruct (stripAny_hex d l (isHex_last _ _ _ Hhex Hrev)) as [_ H2].
    rewrite (trimLeft_hex_head _ _ _ H2).
    rewrite <- Hrev, rev_involutive. apply string_of_list_ascii_of_string.
Qed.

(** Trimming never lengthens a string. *)
Lemma stripPrefix_length (p l l' : list ascii) :
  stripPrefix p l = Some l' -> (length l' <= length l)%nat.
Proof.
  revert l. induction p as [|c p IH]; intros l H.
  - injection H as <-. lia.
  - destruct l as [|d l]; [discriminate|]. cbn [stripPrefix] in H.
    destruct (Ascii.eqb c d); [|discriminate].
    apply IH in H. cbn [length]. lia.
Qed.

Lemma stripAny_length (runes : list (list ascii)) (l l' : list ascii) :
  stripAny runes l = Some l' -> (length l' <= length l)%nat.
Proof.
  induction runes as [|p runes IH]; [discriminate|]. cbn [stripAny].
  destruct (stripPrefix p l) as [l1|] eqn:Hp; [|exact IH].
  intros [= <-]. eapply stripPrefix_length; eauto.
Qed.

Lemma trimLeftN_length (runes : list (list ascii)) (n : nat) (l : list ascii) :
  (length (trimLeftN runes n l) <= length l)%nat.
Proof.
  revert l. induction n as [|n IH]; intros l; [cbn; lia|]. cbn [trimLeftN].
  destruct (stripAny runes l) as [l1|] eqn:Hs; [|lia].
  apply stripAny_length in Hs. specialize (IH l1). lia.
Qed.

Lemma length_string_of_list_ascii (l : list ascii) :
  String.length (string_of_list_ascii l) = length l.
Proof. induction l as [|c l IH]; [reflexivity|]. cbn. now rewrite IH. Qed.

Lemma length_list_ascii_of_string (s : string) :
  length (list_ascii_of_string s) = String.length s.
Proof. induction s as [|c s IH]; [reflexivity|]. cbn. now rewrite IH. Qed.

Lemma TrimSpace_length (s : string) :
  (String.length (TrimSpace s) <= String.length s)%nat.
Proof.
  unfold TrimSpace, trimLeft.
  rewrite length_string_of_list_ascii, length_rev.
  etransitivity; [apply trimLeftN_length|]. rewrite length_rev.
  etransitivity; [apply trimLeftN_length|].
  now rewrite length_list_ascii_of_string.
Qed.

(** What [stringValue2Bytes] does on any input but "-" and "": the trimmed
    input, left-padded with "0" when it is shorter than [expectedLength],
    goes to the decoder. *)
Lemma stringValue2Bytes_trimmed (input : string) (expectedLength : Z) :
  input <> "-" -> input <> "" ->
  len (TrimSpace input) <= expectedLength ->
  stringValue2Bytes input expectedLength
  = DecodeString
      (Repeat "0" (Z.to_nat (expectedLength - len (TrimSpace input)))
       ++ TrimSpace input).
Proof.
  intros Hd He Hlen. unfold stringValue2Bytes.
  apply String.eqb_neq in Hd, He. rewrite Hd, He. cbn [orb].
  destruct (len (TrimSpace input) <? expectedLength) eqn:Hlt; [reflexivity|].
  apply Z.ltb_ge in Hlt.
  replace (expectedLength - len (TrimSpace input)) with 0 by lia. reflexivity.
Qed.

(** What [stringValue2Bytes] does on a non-empty string of hex digits no
    longer than [expectedLength]. *)
Lemma stringValue2Bytes_padded (input : string) (expectedLength : Z) :
  input <> "" -> isHex input = true -> len input <= expectedLength ->
  stringValue2Bytes input expectedLength
  = DecodeString (Repeat "0" (Z.to_nat (expectedLength - len input)) ++ input).
Proof.
  intros Hne Hhex Hlen.
  rewrite stringValue2Bytes_trimmed; rewrite ?(TrimSpace_isHex _ Hhex); auto.
  intros ->. discriminate Hhex.
Qed.

(** C6.  The hash-coercion step [stringValue2Bytes].  The tokens "-" and
    "" give a nil slice and no error.  Any other input shorter than the
    canonical length is decoded after it has been trimmed and left-padded
    with "0" to exactly that length.  A non-empty string of hex digits no
    longer than the canonical length is decoded as it is, left-padded with
    "0" to that length (nothing is added when it already has it); and when
    the canonical length is even, decoding succeeds with the raw bytes that
    the padded string spells, half as many as the canonical length. *)
Theorem stringValue2Bytes_coercion (input : string) (expectedLength : Z) :
  (input = "-" \/ input = "" ->
     stringValue2Bytes input expectedLength = (None, None))
  /\ (input <> "-" -> input <> "" -> len input < expectedLength ->
      let padded :=
        Repeat "0" (Z.to_nat (expectedLength - len (TrimSpace input)))
        ++ TrimSpace input in
      len padded = expectedLength
      /\ stringValue2Bytes input expectedLength = DecodeString padded)
  /\ (input <> "" -> isHex input = true -> len input <= expectedLength ->
      stringValue2Bytes input expectedLength
      = DecodeString
          (Repeat "0" (Z.to_nat (expectedLength - len input)) ++ input))
  /\ (input <> "" -> isHex input = true -> len input <= expectedLength ->
      Z.even expectedLength = true ->
      exists raw : list byte,
        stringValue2Bytes input expectedLength = (Some raw, None)
        /\ 2 * Z.of_nat (length raw) = expectedLength
        /\ EncodeToString raw
           = Repeat "0" (Z.to_nat (expectedLength - len input))
             ++ toLower input).
Proof.
  split; [|split; [|split]].
  - intros [-> | ->]; reflexivity.
  - intros Hd He Hlen padded.
    pose proof (TrimSpace_length input) as Ht.
    split.
    + unfold padded, len in *. rewrite length_app_string, length_Repeat. lia.
    + apply stringValue2Bytes_trimmed; auto. unfold len in *. lia.
  - apply stringValue2Bytes_padded.
  - intros Hne Hhex Hlen Heven.
    rewrite stringValue2Bytes_padded by assumption.
    set (k := Z.to_nat (expectedLength - len input)).
    apply Z.even_spec in Heven. destruct Heven as [h Hh].
    destruct (Decode_isHex_even (Z.to_nat h) (Repeat "0" k ++ input))
      as (raw & Hd & Hl & He).
    + rewrite length_app_string, length_Repeat. unfold len in *. lia.
    + rewrite isHex_app, isHex_Repeat_zero. exact Hhex.
    + exists raw. unfold DecodeString. rewrite Hd.
      split; [reflexivity|]. split; [unfold len in *; lia|].
      rewrite He, toLower_app, toLower_Repeat_zero. reflexivity.
Qed.

(** The spec's example: CRC input "1a2b" with expected length 8 decodes as
    "00001a2b", the bytes 00 00 1a 2b. *)
Lemma stringValue2Bytes_coercion_witness :
  stringValue2Bytes "1a2b" 8 = (Some [x00; x00; x1a; x2b], None)
  /\ stringValue2Bytes "-" 8 = (None, None).
Proof.
  destruct (stringValue2Bytes_coercion "1a2b" 8) as (_ & _ & Hpad & _).
  destruct (stringValue2Bytes_coercion "-" 8) as (Hnil & _).
  split.
  - rewrite Hpad; [reflexivity | discriminate | reflexivity | ].
    vm_compute. discriminate.
  - apply Hnil. left. reflexivity.
Defined.

(** Round trip: the canonical hex text of any non-empty byte string is
    coerced back to exactly these bytes. *)
Lemma stringValue2Bytes_EncodeToString (raw : list byte) :
  raw <> [] ->
  stringValue2Bytes (EncodeToString raw) (2 * Z.of_nat (length raw))
  = (Some raw, None).
Proof.
  intros Hne.
  assert (Hhex : isHex (EncodeToString raw) = true).
  { clear Hne. induction raw as [|b raw IH]; [reflexivity|].
    destruct (hextable_digit b) as (Hh & Hl & Bh & Bl).
    cbn [EncodeToString isHex]. rewrite Hh, Hl, IH.
    apply N.leb_le in Bh, Bl. now rewrite Bh, Bl. }
  assert (Hlen : len (EncodeToString raw) = 2 * Z.of_nat (length raw)).
  { clear. unfold len. induction raw as [|b raw IH]; [reflexivity|].
    cbn [EncodeToString String.length length]. lia. }
  rewrite stringValue2Bytes_padded; [| |assumption|lia].
  - rewrite Hlen, Z.sub_diag.
    change (DecodeString (EncodeToString raw) = (Some raw, None)).
    unfold DecodeString. now rewrite Decode_EncodeToString.
  - destruct raw; [congruence|discriminate].
Qed.

End HexFacts.

(* ===================================================================== *)
(** ** Depot-root accounting                                              *)
(* ===================================================================== *)

Module ArchiveFacts.
Import Parser Archive Samples.
Local Open Scope list_scope.

Lemma wrap64_small (z : Z) : - 2 ^ 63 <= z < 2 ^ 63 -> wrap64 z = z.
Proof. intros Hz. unfold wrap64. rewrite Z.mod_small; lia. Qed.

Lemma wrap64_bounds (z : Z) : - 2 ^ 63 <= wrap64 z < 2 ^ 63.
Proof.
  unfold wrap64.
  pose proof (Z.mod_pos_bound (z + 2 ^ 63) (2 ^ 64) ltac:(lia)). lia.
Qed.

Section AdjustSize.

Context {BloomFilter : Type} (bf_Add : BloomFilter -> list byte -> BloomFilter).

Lemma adjustSize_eq (depot : Depot BloomFilter) (index delta : Z)
    (sha1Hex : string) (dr : depotRoot BloomFilter) :
  0 <= index -> roots depot !! Z.to_nat index = Some dr ->
  adjustSize bf_Add depot index delta sha1Hex
  = Some (mkDepot (<[Z.to_nat index := adjusted bf_Add dr delta sha1Hex]> (roots depot))).
Proof.
  intros Hi Hdr. unfold adjustSize.
  destruct (index <? 0) eqn:Hneg; [apply Z.ltb_lt in Hneg; lia|].
  rewrite Hdr. do 3 f_equal. unfold adjusted, setTouched, setBf, setSize.
  cbn [size bloomReady bf dr_path touched maxSize numBfAdded].
  destruct (wrap64 (size dr + delta) <? 0) eqn:Hlt;
    cbn [size bloomReady bf dr_path touched maxSize numBfAdded];
    [apply Z.ltb_lt in Hlt | apply Z.ltb_ge in Hlt];
    destruct (negb (String.eqb sha1Hex "") && bloomReady dr);
    cbn [size bloomReady bf dr_path touched maxSize numBfAdded];
    f_equal; lia.
Qed.

(** C2.  For every shard index in range, every delta and every content id,
    [adjustSize] leaves at that index a root whose size is
    [max 0 (oldSize + delta)], the sum being the [int64] one (it is the exact
    sum whenever that fits in an [int64]); the size is never negative; the
    dirty flag is set; and the other roots are what they were. *)
Theorem adjustSize_clamps (depot : Depot BloomFilter) (index delta : Z)
    (sha1Hex : string) (dr : depotRoot BloomFilter) :
  0 <= index -> roots depot !! Z.to_nat index = Some dr ->
  exists (depot' : Depot BloomFilter) (dr' : depotRoot BloomFilter),
    adjustSize bf_Add depot index delta sha1Hex = Some depot'
    /\ roots depot' !! Z.to_nat index = Some dr'
    /\ size dr' = Z.max 0 (wrap64 (size dr + delta))
    /\ (- 2 ^ 63 <= size dr + delta < 2 ^ 63 ->
        size dr' = Z.max 0 (size dr + delta))
    /\ 0 <= size dr'
    /\ touched dr' = true
    /\ (forall j : nat, j <> Z.to_nat index ->
        roots depot' !! j = roots depot !! j).
Proof.
  intros Hi Hdr.
  exists (mkDepot (<[Z.to_nat index := adjusted bf_Add dr delta sha1Hex]> (roots depot))),
         (adjusted bf_Add dr delta sha1Hex).
  split; [now apply adjustSize_eq|].
  split; [cbn [roots]; apply list_lookup_insert_eq; eapply lookup_lt_Some; eauto|].
  split; [reflexivity|].
  split; [intros Hr; cbn [adjusted size]; now rewrite wrap64_small|].
  split; [cbn [adjusted size]; lia|].
  split; [reflexivity|].
  intros j Hj. cbn [roots]. apply list_lookup_insert_ne. congruence.
Qed.

(** C10.  [adjustSize] with the empty content id leaves the bloom filter of
    the shard (and its readiness) as it was, ready or not, while the size
    and the dirty flag come out as they do for any other content id. *)
Theorem adjustSize_empty_id (depot : Depot BloomFilter) (index delta : Z)
    (dr : depotRoot BloomFilter) :
  0 <= index -> roots depot !! Z.to_nat index = Some dr ->
  exists (depot' : Depot BloomFilter) (dr' : depotRoot BloomFilter),
    adjustSize bf_Add depot index delta "" = Some depot'
    /\ roots depot' !! Z.to_nat index = Some dr'
    /\ bf dr' = bf dr
    /\ bloomReady dr' = bloomReady dr
    /\ (forall j : nat, j <> Z.to_nat index ->
        roots depot' !! j = roots depot !! j)
    /\ size dr' = Z.max 0 (wrap64 (size dr + delta))
    /\ touched dr' = true
    /\ (forall sha1Hex : string,
        exists (depot'' : Depot BloomFilter) (dr'' : depotRoot BloomFilter),
          adjustSize bf_Add depot index delta sha1Hex = Some depot''
          /\ roots depot'' !! Z.to_nat index = Some dr''
          /\ size dr'' = size dr'
          /\ touched dr'' = touched dr').
Proof.
  intros Hi Hdr.
  assert (Hlt : (Z.to_nat index < length (roots depot))%nat)
    by (eapply lookup_lt_Some; eauto).
  exists (mkDepot (<[Z.to_nat index := adjusted bf_Add dr delta ""]> (roots depot))),
         (adjusted bf_Add dr delta "").
  split; [now apply adjustSize_eq|].
  split; [cbn [roots]; now apply list_lookup_insert_eq|].
  split; [reflexivity|]. split; [reflexivity|].
  split; [intros j Hj; cbn [roots]; apply list_lookup_insert_ne; congruence|].
  split; [reflexivity|]. split; [reflexivity|].
  intros sha1Hex.
  exists (mkDepot (<[Z.to_nat index := adjusted bf_Add dr delta sha1Hex]> (roots depot))),
         (adjusted bf_Add dr delta sha1Hex).
  split; [now apply adjustSize_eq|].
  split; [cbn [roots]; now apply list_lookup_insert_eq|].
  split; reflexivity.
Qed.

End AdjustSize.

Lemma adjustSize_clamps_witness :
  exists dr' : depotRoot (list (list byte)),
    (adjustSize sampleAdd sampleDepot 0 (-9) "ab"
       ≫= fun d => roots d !! 0%nat) = Some dr'
    /\ size dr' = 0 /\ touched dr' = true.
Proof.
  destruct (adjustSize_clamps sampleAdd sampleDepot 0 (-9) "ab" sampleRoot)
    as (depot' & dr' & Hrun & Hlook & Hsize & _ & _ & Htouched & _);
    [lia | reflexivity |].
  exists dr'. rewrite Hrun. cbn [mbind option_bind]. split; [exact Hlook|].
  split; [rewrite Hsize; reflexivity | exact Htouched].
Defined.

Lemma adjustSize_empty_id_witness :
  exists dr' : depotRoot (list (list byte)),
    (adjustSize sampleAdd sampleDepot 0 3 ""
       ≫= fun d => roots d !! 0%nat) = Some dr'
    /\ bf dr' = [] /\ size dr' = 8 /\ touched dr' = true.
Proof.
  destruct (adjustSize_empty_id sampleAdd sampleDepot 0 3 sampleRoot)
    as (depot' & dr' & Hrun & Hlook & Hbf & _ & _ & Hsize & Htouched & _);
    [lia | reflexivity |].
  exists dr'. rewrite Hrun. cbn [mbind option_bind]. split; [exact Hlook|].
  split; [exact Hbf|]. split; [rewrite Hsize; reflexivity | exact Htouched].
Defined.

(** *** Bloom filter persistence *)

Lemma last_cons_default {A : Type} (l : list A) (a d : A) :
  List.last (a :: l) d = List.last l a.
Proof.
  revert a d. induction l as [|x l IH]; intros a d; [reflexivity|].
  change (List.last (a :: x :: l) d) with (List.last (x :: l) d).
  now rewrite (IH x d), (IH x a).
Qed.

Lemma writeStates_other (p q : string) (data : list byte) (upto : nat) (fs : FS) :
  q <> p ->
  Forall (fun fs' : FS => fs' !! q = fs !! q) (writeStates p data upto fs).
Proof.
  intros Hq. unfold writeStates. apply Forall_forall. intros fs' Hin.
  apply list_elem_of_In, in_map_iff in Hin. destruct Hin as (n & <- & _).
  now apply lookup_insert_ne.
Qed.

Lemma writeStates_last (p : string) (data : list byte) (fs : FS) :
  lastState (<[p := []]> fs) (writeStates p data (length data) (<[p := []]> fs)) !! p
  = Some data.
Proof.
  unfold lastState, writeStates. destruct (length data) as [|k] eqn:Hlen.
  - apply length_zero_iff_nil in Hlen. subst data. cbn. apply lookup_insert_eq.
  - rewrite seq_S, map_app. cbn [map]. rewrite last_last.
    rewrite lookup_insert_eq. f_equal. apply firstn_all2. cbn. lia.
Qed.

Section BloomFile.

Context {BloomFilter : Type} (serialize : BloomFilter -> list byte).
Context (Join : string -> string -> string).
Context (bloomFilterFilename backupBloomFilterFilename : string).


End BloomFile.


End ArchiveFacts.

(* ===================================================================== *)
(** ** The refresh pipeline                                               *)
(* ===================================================================== *)

Module DBFacts.
Import Parser DB Samples.
Local Open Scope list_scope.

Section Worker.

Context {B E : Type} {HB : RomBatch B E} {P : Type}.
Context (Parse : string -> option Dat * slice * option P).

Lemma parseAndIndex_calls (b : B) (path : string) :
  exists rest,
    snd (parseAndIndex Parse b path) = CallParse path :: rest
    /\ ~ In CallFlush rest /\ ~ In CallClose rest.
Proof.
  unfold parseAndIndex. destruct (Parse path) as [[dat sha1Bytes] [e|]].
  - exists []. cbn. tauto.
  - exists [CallIndexDat dat sha1Bytes]. cbn. intuition discriminate.
Qed.

Lemma Process_below (b : B) (path : string) (size : Z) :
  batch_Size b < MaxBatchSize ->
  Process Parse (mkRefreshWorker (Some b)) path size
  = let '(err, b', log) := parseAndIndex Parse b path in
    Some (err, mkRefreshWorker (Some b'), CallSize :: log).
Proof.
  intros Hlt. unfold Process, parseAndIndex. cbn [romBatch].
  destruct (MaxBatchSize <=? batch_Size b) eqn:Hge;
    [apply Z.leb_le in Hge; lia|].
  destruct (Parse path) as [[dat sha1Bytes] [e|]]; [reflexivity|].
  destruct (batch_IndexDat dat sha1Bytes b); reflexivity.
Qed.

Lemma Process_above (b : B) (path : string) (size : Z) :
  MaxBatchSize <= batch_Size b ->
  Process Parse (mkRefreshWorker (Some b)) path size
  = match batch_Flush b with
    | (Some e, b') =>
        Some (Some (ErrFailedToFlush e), mkRefreshWorker (Some b'),
              [CallSize; CallSize; CallFlush])
    | (None, b') =>
        let '(err, b'', log) := parseAndIndex Parse b' path in
        Some (err, mkRefreshWorker (Some b''),
              [CallSize; CallSize; CallFlush] ++ log)
    end.
Proof.
  intros Hge. unfold Process, parseAndIndex. cbn [romBatch].
  apply Z.leb_le in Hge. rewrite Hge.
  destruct (batch_Flush b) as [[e|] b']; [reflexivity|].
  destruct (Parse path) as [[dat sha1Bytes] [e|]]; [reflexivity|].
  destruct (batch_IndexDat dat sha1Bytes b'); reflexivity.
Qed.

(** C5.  [Process] on a worker that holds the batch [b] returns, keeps
    holding a batch and never calls [Close].  When the size of [b] is at or
    above [MaxBatchSize] = 10485760 its calls start with the flush, before
    any parsing or indexing: after a failed flush nothing else is called,
    after a successful one the file is parsed and indexed into the flushed
    batch, with no second flush.  When the size is below the threshold no
    flush is called and the file is parsed and indexed into [b]. *)
Theorem Process_flushes_at_threshold (b : B) (path : string) (size : Z) :
  MaxBatchSize = 10485760
  /\ exists (err : option (processError E P)) (b' : B) (log : list call),
      Process Parse (mkRefreshWorker (Some b)) path size
      = Some (err, mkRefreshWorker (Some b'), log)
      /\ ~ In CallClose log
      /\ (MaxBatchSize <= batch_Size b ->
          exists rest : list call,
            log = [CallSize; CallSize; CallFlush] ++ rest
            /\ ~ In CallFlush rest
            /\ (forall e : E, fst (batch_Flush b) = Some e ->
                rest = [] /\ err = Some (ErrFailedToFlush e)
                /\ b' = snd (batch_Flush b))
            /\ (fst (batch_Flush b) = None ->
                (err, b', rest) = parseAndIndex Parse (snd (batch_Flush b)) path))
      /\ (batch_Size b < MaxBatchSize ->
          ~ In CallFlush log
          /\ (err, b', log)
             = (fst (fst (parseAndIndex Parse b path)),
                snd (fst (parseAndIndex Parse b path)),
                CallSize :: snd (parseAndIndex Parse b path))).
Proof.
  split; [reflexivity|].
  destruct (Z.lt_ge_cases (batch_Size b) MaxBatchSize) as [Hlt|Hge].
  - rewrite Process_below by assumption.
    destruct (parseAndIndex_calls b path) as (rest & Hlog & Hnf & Hnc).
    destruct (parseAndIndex Parse b path) as [[err b'] log] eqn:Hpi.
    cbn [snd] in Hlog. subst log.
    exists err, b', (CallSize :: CallParse path :: rest).
    split; [reflexivity|].
    split; [cbn [In]; intuition discriminate|].
    split; [lia|]. intros _.
    split; [cbn [In]; intuition discriminate|reflexivity].
  - rewrite Process_above by assumption.
    destruct (batch_Flush b) as [[e|] bf] eqn:Hfl.
    + exists (Some (ErrFailedToFlush e)), bf, [CallSize; CallSize; CallFlush].
      split; [reflexivity|].
      split; [cbn [In]; intuition discriminate|].
      split; [|lia]. intros _. exists [].
      split; [reflexivity|]. split; [cbn; tauto|].
      split; [|discriminate]. cbn [fst snd]. intros e' [= <-]. auto.
    + destruct (parseAndIndex_calls bf path) as (rest & Hlog & Hnf & Hnc).
      destruct (parseAndIndex Parse bf path) as [[err b'] log] eqn:Hpi.
      cbn [snd] in Hlog. subst log.
      exists err, b', ([CallSize; CallSize; CallFlush] ++ CallParse path :: rest).
      split; [reflexivity|].
      split; [cbn [In app]; intuition discriminate|].
      split; [|lia]. intros _. exists (CallParse path :: rest).
      split; [reflexivity|].
      split; [cbn [In]; intuition discriminate|].
      split; [discriminate|]. intros _. cbn [snd]. now rewrite Hpi.
Qed.

End Worker.

(** The sample batch: at 12000000 bytes the worker flushes first and the
    batch holds one catalog afterwards; at 6000000 bytes it does not
    flush. *)
Lemma Process_flushes_at_threshold_witness :
  Process sampleParse (mkRefreshWorker (Some 12000000)) "a.dat" 0
  = Some (None, mkRefreshWorker (Some 6000000),
          [CallSize; CallSize; CallFlush; CallParse "a.dat";
           CallIndexDat (Some emptyDat) (Some [x00])])
  /\ Process sampleParse (mkRefreshWorker (Some 6000000)) "a.dat" 0
     = Some (None, mkRefreshWorker (Some 12000000),
             [CallSize; CallParse "a.dat";
              CallIndexDat (Some emptyDat) (Some [x00])]).
Proof.
  split.
  - destruct (Process_flushes_at_threshold sampleParse 12000000 "a.dat" 0)
      as (_ & err & b' & log & Hrun & _ & Habove & _).
    rewrite Hrun.
    destruct Habove as (rest & -> & _ & _ & Hok); [unfold MaxBatchSize; cbn; lia|].
    specialize (Hok eq_refl). injection Hok as -> -> ->. reflexivity.
  - destruct (Process_flushes_at_threshold sampleParse 6000000 "a.dat" 0)
      as (_ & err & b' & log & Hrun & _ & _ & Hbelow).
    rewrite Hrun.
    destruct Hbelow as (_ & Heq); [unfold MaxBatchSize; cbn; lia|].
    injection Heq as -> -> ->. reflexivity.
Defined.

Section RefreshRun.

Context {D B E : Type} {HD : RomDB D B E} {P ProgressTracker : Type}.
Context (Work : string -> list string -> @refreshMaster D ProgressTracker ->
                (string * option (@workError E P)) * D * list call).

(** C3.  In every run of [Refresh] the call of [OrphanDats] is the first
    call made and has returned before the walk is started: the walk is
    handed the index as [OrphanDats] left it, and every call the walk
    issues, [IndexDat] among them, comes later in the order of calls.  When
    [OrphanDats] returns an error, [Refresh] returns that error and has
    made no other call: no walk, no indexing write. *)
Theorem Refresh_orphans_first (romdb : D) (datsPath : string)
    (numWorkers : Z) (pt : ProgressTracker) :
  exists (res : string * option (@workError E P)) (romdb' : D)
         (log : list call),
    Refresh Work romdb datsPath numWorkers pt = (res, romdb', log)
    /\ log !! 0%nat = Some CallOrphanDats
    /\ (forall (i : nat) (dat : option Dat) (sha1 : slice),
        log !! i = Some (CallIndexDat dat sha1) -> (0 < i)%nat)
    /\ (forall (i : nat) (name : string) (paths : list string),
        log !! i = Some (CallWork name paths) -> (0 < i)%nat)
    /\ (forall e : E, fst (db_OrphanDats romdb) = Some e ->
        res = (""%string, Some (ErrDB e))
        /\ romdb' = snd (db_OrphanDats romdb)
        /\ log = [CallOrphanDats])
    /\ (fst (db_OrphanDats romdb) = None ->
        exists walk : list call,
          Work "refresh dats" [datsPath]
            (mkRefreshMaster (snd (db_OrphanDats romdb)) numWorkers pt)
          = (res, romdb', walk)
          /\ log = CallOrphanDats
                   :: CallWork "refresh dats" [datsPath] :: walk).
Proof.
  unfold Refresh. destruct (db_OrphanDats romdb) as [[e|] db1] eqn:Ho.
  - exists (""%string, Some (ErrDB e)), db1, [CallOrphanDats].
    split; [reflexivity|]. split; [reflexivity|].
    split; [intros [|i] dat sha1 Hl; [discriminate Hl | lia]|].
    split; [intros [|i] name paths Hl; [discriminate Hl | lia]|].
    split; [|discriminate]. cbn [fst snd]. intros e' [= <-]. auto.
  - destruct (Work "refresh dats" [datsPath] (mkRefreshMaster db1 numWorkers pt))
      as [[res db2] walk] eqn:Hw.
    exists res, db2, (CallOrphanDats :: CallWork "refresh dats" [datsPath] :: walk).
    split; [reflexivity|]. split; [reflexivity|].
    split; [intros [|i] dat sha1 Hl; [discriminate Hl | lia]|].
    split; [intros [|i] name paths Hl; [discriminate Hl | lia]|].
    split; [discriminate|]. intros _. exists walk. cbn [snd]. auto.
Qed.

End RefreshRun.

(** A refresh of the sample tree with one worker: the orphan marking comes
    first, then the walk with its two indexing writes.  With an index whose
    orphan marking fails nothing else is called. *)
Lemma Refresh_orphans_first_witness :
  Refresh (oneWorker sampleParse sampleTree) [] "dats" 1 tt
  = (("refresh dats"%string, None),
     ["orphaned"; "flushed"]%string,
     [CallOrphanDats; CallWork "refresh dats" ["dats"%string]; CallStartBatch;
      CallSize; CallParse "dats/a.dat";
      CallIndexDat (Some emptyDat) (Some [x00]);
      CallSize; CallParse "dats/b.xml";
      CallIndexDat (Some emptyDat) (Some [x00]);
      CallClose; CallDBFlush])
  /\ Refresh (HD := failingDB) (oneWorker (HD := failingDB) sampleParse sampleTree)
       [] "dats" 1 tt
     = ((""%string, Some (ErrDB "index is read-only"%string)), [],
        [CallOrphanDats]).
Proof.
  split.
  - destruct (Refresh_orphans_first (oneWorker sampleParse sampleTree)
                [] "dats" 1 tt)
      as (res & db' & log & Hrun & _ & _ & _ & _ & Hok).
    rewrite Hrun. destruct (Hok eq_refl) as (walk & Hw & ->).
    vm_compute in Hw. injection Hw as <- <- <-. reflexivity.
  - destruct (Refresh_orphans_first (HD := failingDB)
                (oneWorker (HD := failingDB) sampleParse sampleTree)
                [] "dats" 1 tt)
      as (res & db' & log & Hrun & _ & _ & _ & Herr & _).
    rewrite Hrun.
    destruct (Herr "index is read-only"%string eq_refl) as (-> & -> & ->).
    reflexivity.
Defined.

End DBFacts.

(* ===================================================================== *)
(** ** Hash normalization in the XML path: [fixHashes]                    *)
(* ===================================================================== *)

Module FixHashesFacts.
Import Hex Strings Parser Samples.
Local Open Scope list_scope.

Lemma length_string_of_list_byte (l : list byte) :
  String.length (string_of_list_byte l) = length l.
Proof.
  unfold string_of_list_byte.
  induction l as [|b l IH]; [reflexivity|].
  cbn [map string_of_list_ascii String.length]. now rewrite IH.
Qed.

(** Decoding gives at most half as many bytes as the text has
    characters. *)
Lemma Decode_length (n : nat) (s : string) :
  (String.length s <= n)%nat ->
  (2 * length (fst (Decode s)) <= String.length s)%nat.
Proof.
  revert s; induction n as [|n IH]; intros s Hn.
  - destruct s; [cbn; lia|cbn in Hn; lia].
  - destruct s as [|p [|q s]]; [cbn; lia| |].
    + cbn [Decode]. destruct (15 <? reverseHexTable p)%N; cbn; lia.
    + cbn [Decode].
      destruct (15 <? reverseHexTable p)%N; [cbn; lia|].
      destruct (15 <? reverseHexTable q)%N; [cbn; lia|].
      specialize (IH s ltac:(cbn in Hn; lia)).
      destruct (Decode s) as [out err]. cbn [fst length String.length] in *. lia.
Qed.

(** A field that is present stays present: [fixHash] ends with the
    assignment of the slice that [DecodeString] returned. *)
Lemma fixHash_Some (text : list byte) :
  fixHash (Some text) = Some (fst (Decode (string_of_list_byte text))).
Proof.
  unfold fixHash, DecodeString.
  destruct (Decode (string_of_list_byte text)) as [out err]. reflexivity.
Qed.

Lemma fixHash_None : fixHash None = None.
Proof. reflexivity. Qed.

(** One field: a second pass changes nothing exactly when the first pass
    left the field nil or empty. *)
Lemma fixHash_twice (h : slice) :
  fixHash (fixHash h) = fixHash h <-> nilOrEmpty (fixHash h).
Proof.
  destruct h as [text|]; [|cbn; unfold nilOrEmpty; tauto].
  rewrite fixHash_Some.
  set (raw := fst (Decode (string_of_list_byte text))).
  rewrite fixHash_Some. unfold nilOrEmpty. split.
  - intros [= Heq]. right. f_equal.
    pose proof (Decode_length _ (string_of_list_byte raw) (Nat.le_refl _)) as Hl.
    rewrite Heq, length_string_of_list_byte in Hl.
    destruct raw; [reflexivity|cbn in Hl; lia].
  - intros [Hn|[= ->]]; [discriminate|reflexivity].
Qed.

Lemma fixHashes_fields (rom : Rom) :
  fixHashes rom
  = mkRom (rName rom) (rSize rom) (fixHash (rCrc rom)) (fixHash (rMd5 rom))
      (fixHash (rSha1 rom)).
Proof. reflexivity. Qed.

(** C7, as amended.  [fixHashes] is not idempotent in general: a second
    pass takes the raw bytes for hex text again.  Applying it twice gives
    the same [Crc], [Md5] and [Sha1] as applying it once if and only if each
    of the three fields is nil or empty after the first pass; the name and
    the size are never touched. *)
Theorem fixHashes_twice (rom : Rom) :
  (rCrc (fixHashes (fixHashes rom)) = rCrc (fixHashes rom)
   /\ rMd5 (fixHashes (fixHashes rom)) = rMd5 (fixHashes rom)
   /\ rSha1 (fixHashes (fixHashes rom)) = rSha1 (fixHashes rom)
   <-> nilOrEmpty (rCrc (fixHashes rom))
       /\ nilOrEmpty (rMd5 (fixHashes rom))
       /\ nilOrEmpty (rSha1 (fixHashes rom)))
  /\ rName (fixHashes (fixHashes rom)) = rName rom
  /\ rSize (fixHashes (fixHashes rom)) = rSize rom.
Proof.
  rewrite !fixHashes_fields. cbn [rCrc rMd5 rSha1 rName rSize].
  rewrite !fixHash_twice. tauto.
Qed.

(** C7 as stated fails: a rom decoded from the XML attribute
    crc="1a2b3c4d" has the bytes 1a 2b 3c 4d after one pass and an empty
    [Crc] after two. *)
Lemma fixHashes_twice_counterexample :
  rCrc (fixHashes xmlRom) = Some [x1a; x2b; x3c; x4d]
  /\ rCrc (fixHashes (fixHashes xmlRom)) = Some []
  /\ rCrc (fixHashes (fixHashes xmlRom)) <> rCrc (fixHashes xmlRom).
Proof. split; [reflexivity|]. split; [reflexivity|discriminate]. Qed.

(** C1, the XML half, fails on the code.  A hash field that is present
    before [fixHashes] holds afterwards the bytes that [DecodeString]
    returned for its text, whether the text decodes or not: on malformed
    text these are the bytes decoded before the error, and the field is not
    nil.  The name and the size are kept. *)
Theorem fixHashes_keeps_decoded_prefix (rom : Rom) :
  (forall text : list byte, rCrc rom = Some text ->
     rCrc (fixHashes rom) = Some (fst (Decode (string_of_list_byte text))))
  /\ (forall text : list byte, rMd5 rom = Some text ->
     rMd5 (fixHashes rom) = Some (fst (Decode (string_of_list_byte text))))
  /\ (forall text : list byte, rSha1 rom = Some text ->
     rSha1 (fixHashes rom) = Some (fst (Decode (string_of_list_byte text))))
  /\ rName (fixHashes rom) = rName rom
  /\ rSize (fixHashes rom) = rSize rom.
Proof.
  rewrite fixHashes_fields. cbn [rCrc rMd5 rSha1 rName rSize].
  repeat split; intros text ->; apply fixHash_Some.
Qed.

(** The rom with the malformed sha1 "12zz": decoding fails at the "z", and
    [Sha1] is the byte 12 afterwards. *)
Lemma fixHashes_keeps_decoded_prefix_witness :
  rSha1 xmlRomBadSha1 = Some (list_byte_of_string "12zz")
  /\ snd (DecodeString "12zz") = Some (InvalidByteError "z")
  /\ rSha1 (fixHashes xmlRomBadSha1) = Some [x12]
  /\ rSha1 (fixHashes xmlRomBadSha1) <> None.
Proof.
  destruct (fixHashes_keeps_decoded_prefix xmlRomBadSha1)
    as (_ & _ & Hsha1 & _).
  specialize (Hsha1 (list_byte_of_string "12zz") eq_refl).
  split; [reflexivity|]. split; [reflexivity|].
  rewrite Hsha1. split; [reflexivity|discriminate].
Defined.

(** The whole rom after the pass. *)
Example fixHashes_malformed_sha1 :
  fixHashes xmlRomBadSha1
  = mkRom "a.bin" 3 (Some [x1a; x2b; x3c; x4d]) None (Some [x12]).
Proof. reflexivity. Qed.

End FixHashesFacts.

(* ===================================================================== *)
(** ** The text grammar: rom statements with a bad hash                   *)
(* ===================================================================== *)

Module TextGrammarFacts.
Import Hex Strings Parser Samples.
Local Open Scope list_scope.

Section Statements.

Context (rank : itemType -> Z).

Lemma nextItem_length (ll : lexer) :
  (length (snd (nextItem ll)) <= length ll)%nat.
Proof. destruct ll; cbn; lia. Qed.

Lemma consumeStringValue_length (ll : lexer) :
  (length (snd (consumeStringValue rank ll)) <= length ll)%nat.
Proof.
  unfold consumeStringValue. pose proof (nextItem_length ll) as Hn.
  destruct (nextItem ll) as [i ll1]. cbn [snd] in Hn.
  destruct (typ i); try destruct (unquote (val i));
    try destruct (rank itemValue <? rank _); cbn [snd]; exact Hn.
Qed.

Lemma consumeIntegerValue_length (ll : lexer) :
  (length (snd (consumeIntegerValue ll)) <= length ll)%nat.
Proof.
  unfold consumeIntegerValue. pose proof (nextItem_length ll) as Hn.
  destruct (nextItem ll) as [i ll1]. cbn [snd] in Hn.
  destruct (typ i); try destruct (unquote (val i)); cbn [snd]; exact Hn.
Qed.

Lemma consumeHexBytes_length (n : Z) (ll : lexer) :
  (length (snd (consumeHexBytes n ll)) <= length ll)%nat.
Proof.
  unfold consumeHexBytes. pose proof (nextItem_length ll) as Hn.
  destruct (nextItem ll) as [i ll1]. cbn [snd] in Hn.
  destruct (typ i); try destruct (unquote (val i)); cbn [snd]; exact Hn.
Qed.

Lemma consumeStringValue_fuel (ll : lexer) :
  fst (consumeStringValue rank ll) <> OutOfFuel.
Proof.
  unfold consumeStringValue. destruct (nextItem ll) as [i ll1].
  destruct (typ i); try destruct (unquote (val i));
    try destruct (rank itemValue <? rank _); cbn [fst]; discriminate.
Qed.

Lemma consumeIntegerValue_fuel (ll : lexer) :
  fst (consumeIntegerValue ll) <> OutOfFuel.
Proof.
  unfold consumeIntegerValue. destruct (nextItem ll) as [i ll1].
  destruct (typ i); try destruct (unquote (val i)); cbn [fst]; discriminate.
Qed.

Lemma consumeHexBytes_fuel (n : Z) (ll : lexer) :
  fst (consumeHexBytes n ll) <> OutOfFuel.
Proof.
  unfold consumeHexBytes. destruct (nextItem ll) as [i ll1].
  destruct (typ i); try destruct (unquote (val i)); cbn [fst]; discriminate.
Qed.

(** Case analysis on the result of a [consume...] call, closing the goal
    [_ <> OutOfFuel /\ length _ <= length _] from the facts in the
    context. *)
Ltac consume_cases c :=
  destruct c as [[[? [?|]]| |] ?]; cbn [fst snd] in *;
  split; congruence || lia.

(** A round of [romStmt]'s loop does not run out of fuel and leaves no more
    items than it found. *)
Lemma romRound_sound (r : Rom) (i : item) (ll : lexer) :
  fst (romRound rank r i ll) <> OutOfFuel
  /\ (length (snd (romRound rank r i ll)) <= length ll)%nat.
Proof.
  unfold romRound.
  pose proof (consumeStringValue_length ll) as Hs.
  pose proof (consumeIntegerValue_length ll) as Hi.
  pose proof (consumeStringValue_fuel ll) as Fs.
  pose proof (consumeIntegerValue_fuel ll) as Fi.
  pose proof (consumeHexBytes_length 8 ll) as H8.
  pose proof (consumeHexBytes_length 32 ll) as H32.
  pose proof (consumeHexBytes_length 40 ll) as H40.
  pose proof (consumeHexBytes_fuel 8 ll) as F8.
  pose proof (consumeHexBytes_fuel 32 ll) as F32.
  pose proof (consumeHexBytes_fuel 40 ll) as F40.
  destruct (typ i); cbn [fst snd]; try (split; [discriminate|lia]).
  - consume_cases (consumeStringValue rank ll).
  - consume_cases (consumeIntegerValue ll).
  - consume_cases (consumeHexBytes 8 ll).
  - consume_cases (consumeHexBytes 32 ll).
  - consume_cases (consumeHexBytes 40 ll).
Qed.

(** [romStmt]'s loop returns when it has more fuel than there are items
    left. *)
Lemma romLoop_total (fuel : nat) (r : Rom) (i : item) (ll : lexer) :
  (length ll < fuel)%nat ->
  fst (romLoop rank fuel r i ll) <> OutOfFuel
  /\ (length (snd (romLoop rank fuel r i ll)) <= length ll)%nat.
Proof.
  revert r i ll. induction fuel as [|fuel IH]; intros r i ll Hf; [lia|].
  cbn [romLoop]. destruct (endsStmt (typ i)); [cbn; split; [discriminate|lia]|].
  destruct (romRound_sound r i ll) as [Hr Hl].
  destruct (romRound rank r i ll) as [[[r1|res]| |] ll1]; cbn [fst snd] in *;
    try (split; [congruence|lia]).
  destruct ll1 as [|i1 ll2]; cbn [nextItem].
  - destruct fuel; cbn; split; discriminate || lia.
  - destruct (IH r1 i1 ll2) as [H1 H2]; [cbn in Hl; lia|].
    split; [exact H1|cbn in Hl |- *; lia].
Qed.

(** [romStmt] always returns or panics. *)
Lemma romStmt_total (ll : lexer) :
  fst (romStmt rank ll) <> OutOfFuel
  /\ (length (snd (romStmt rank ll)) <= length ll)%nat.
Proof.
  unfold romStmt. pose proof (nextItem_length ll) as H1.
  destruct (nextItem ll) as [i ll1]. cbn [snd] in H1.
  destruct (matchItem i itemOpenBrace);
    [cbn; split; [discriminate|lia]|].
  pose proof (nextItem_length ll1) as H2.
  destruct (nextItem ll1) as [i1 ll2]. cbn [snd] in H2.
  destruct (romLoop_total (S (length ll2)) emptyRom i1 ll2) as [Ha Hb]; [lia|].
  split; [exact Ha|lia].
Qed.

(** When the loop of [romStmt] is at a [md5], [crc] or [sha1] keyword and
    the coercion of the value fails, [romStmt] returns a nil rom and no
    error, whatever was collected so far and whatever follows. *)
Lemma romLoop_bad_hash (fuel : nat) (r : Rom) (i : item) (ll ll' : lexer)
    (n : Z) (v : slice) (e : parseError) :
  hashLength (typ i) = Some n ->
  consumeHexBytes n ll = (Returns (v, Some e), ll') ->
  romLoop rank (S fuel) r i ll = (Returns (None, None), ll').
Proof.
  intros Hk Hc. cbn [romLoop]. unfold romRound.
  destruct (typ i); try discriminate Hk; injection Hk as <-;
    cbn [endsStmt]; rewrite Hc; reflexivity.
Qed.

Lemma romLoop_reaches_bad_hash (r r' : Rom) (i i' : item) (ll ll' ll'' : lexer)
    (n : Z) (v : slice) (e : parseError) :
  romReaches rank r i ll r' i' ll' ->
  hashLength (typ i') = Some n ->
  consumeHexBytes n ll' = (Returns (v, Some e), ll'') ->
  forall fuel : nat, (length ll < fuel)%nat ->
  romLoop rank fuel r i ll = (Returns (None, None), ll'').
Proof.
  intros Hreach Hk Hc.
  induction Hreach as [r i ll | r r1 r' i i' ll ll1 ll' Hend Hround Hreach IH];
    intros fuel Hf.
  - destruct fuel; [lia|]. eapply romLoop_bad_hash; eauto.
  - destruct fuel as [|fuel]; [lia|]. cbn [romLoop]. rewrite Hend, Hround.
    pose proof (romRound_sound r i ll) as [_ Hl]. rewrite Hround in Hl.
    cbn [snd] in Hl. destruct ll1 as [|i1 ll2]; cbn [nextItem fst snd] in *.
    + exfalso. inversion Hreach; subst; cbn in *; discriminate.
    + apply (IH Hk Hc). cbn in Hl. lia.
Qed.

(** The text half of C1.  A rom statement whose fields are taken without
    error up to a [md5], [crc] or [sha1] field whose value fails the
    coercion makes [romStmt] return a nil rom and no error. *)
Lemma romStmt_bad_hash (open i0 i' : item) (ll0 ll' ll'' : lexer) (r' : Rom)
    (n : Z) (v : slice) (e : parseError) :
  typ open = itemOpenBrace ->
  romReaches rank emptyRom i0 ll0 r' i' ll' ->
  hashLength (typ i') = Some n ->
  consumeHexBytes n ll' = (Returns (v, Some e), ll'') ->
  romStmt rank (open :: i0 :: ll0) = (Returns (None, None), ll'').
Proof.
  intros Ho Hreach Hk Hc. unfold romStmt, matchItem. cbn [nextItem].
  rewrite bool_decide_eq_true_2 by exact Ho.
  eapply romLoop_reaches_bad_hash; eauto.
Qed.

(** The same for the loops of [gameStmt], [datStmt] and [parse]. *)
Lemma gameRound_sound (g : Game) (i : item) (ll : lexer) :
  fst (gameRound rank g i ll) <> OutOfFuel
  /\ (length (snd (gameRound rank g i ll)) <= length ll)%nat.
Proof.
  unfold gameRound.
  pose proof (consumeStringValue_length ll) as Hs.
  pose proof (consumeStringValue_fuel ll) as Fs.
  pose proof (romStmt_total ll) as [Fr Hr].
  destruct (typ i); cbn [fst snd]; try (split; [discriminate|lia]).
  - destruct (romStmt rank ll) as [[[[r|] [e|]]| |] ll1]; cbn [fst snd] in *;
      split; congruence || lia.
  - consume_cases (consumeStringValue rank ll).
  - consume_cases (consumeStringValue rank ll).
Qed.

Lemma gameLoop_total (fuel : nat) (g : Game) (i : item) (ll : lexer) :
  (length ll < fuel)%nat ->
  fst (gameLoop rank fuel g i ll) <> OutOfFuel
  /\ (length (snd (gameLoop rank fuel g i ll)) <= length ll)%nat.
Proof.
  revert g i ll. induction fuel as [|fuel IH]; intros g i ll Hf; [lia|].
  cbn [gameLoop]. destruct (endsStmt (typ i)); [cbn; split; [discriminate|lia]|].
  destruct (gameRound_sound g i ll) as [Hr Hl].
  destruct (gameRound rank g i ll) as [[[g1|res]| |] ll1]; cbn [fst snd] in *;
    try (split; [congruence|lia]).
  destruct ll1 as [|i1 ll2]; cbn [nextItem].
  - destruct fuel; cbn; split; discriminate || lia.
  - destruct (IH g1 i1 ll2) as [H1 H2]; [cbn in Hl; lia|].
    split; [exact H1|cbn in Hl |- *; lia].
Qed.

Lemma gameStmt_total (ll : lexer) :
  fst (gameStmt rank ll) <> OutOfFuel
  /\ (length (snd (gameStmt rank ll)) <= length ll)%nat.
Proof.
  unfold gameStmt. pose proof (nextItem_length ll) as H1.
  destruct (nextItem ll) as [i ll1]. cbn [snd] in H1.
  destruct (matchItem i itemOpenBrace); [cbn; split; [discriminate|lia]|].
  pose proof (nextItem_length ll1) as H2.
  destruct (nextItem ll1) as [i1 ll2]. cbn [snd] in H2.
  destruct (gameLoop_total (S (length ll2)) emptyGame i1 ll2) as [Ha Hb]; [lia|].
  split; [exact Ha|lia].
Qed.

Lemma datRound_sound (i : item) (p : parser) :
  fst (datRound rank i p) <> OutOfFuel
  /\ (length (p_ll (snd (datRound rank i p))) <= length (p_ll p))%nat.
Proof.
  unfold datRound.
  pose proof (consumeStringValue_length (p_ll p)) as Hs.
  pose proof (consumeStringValue_fuel (p_ll p)) as Fs.
  destruct (typ i); cbn [fst snd]; try (split; [discriminate|lia]);
    destruct (consumeStringValue rank (p_ll p)) as [[[v [e|]]| |] ll1];
    cbn [fst snd p_ll] in *; split; congruence || lia.
Qed.

Lemma datLoop_total (fuel : nat) (i : item) (p : parser) :
  (length (p_ll p) < fuel)%nat ->
  fst (datLoop rank fuel i p) <> OutOfFuel
  /\ (length (p_ll (snd (datLoop rank fuel i p))) <= length (p_ll p))%nat.
Proof.
  revert i p. induction fuel as [|fuel IH]; intros i p Hf; [lia|].
  cbn [datLoop]. destruct (endsStmt (typ i)); [cbn; split; [discriminate|lia]|].
  destruct (datRound_sound i p) as [Hr Hl].
  destruct (datRound rank i p) as [[[u|res]| |] p1]; cbn [fst snd] in *;
    try (split; [congruence|lia]).
  destruct p1 as [[|i1 ll2] d1]; cbn [nextItem p_ll p_d] in *.
  - destruct fuel; cbn; split; discriminate || lia.
  - destruct (IH i1 (mkParser ll2 d1)) as [H1 H2]; [cbn in *; lia|].
    split; [exact H1|cbn in *; lia].
Qed.

Lemma datStmt_total (p : parser) :
  fst (datStmt rank p) <> OutOfFuel
  /\ (length (p_ll (snd (datStmt rank p))) <= length (p_ll p))%nat.
Proof.
  unfold datStmt. pose proof (nextItem_length (p_ll p)) as H1.
  destruct (nextItem (p_ll p)) as [i ll1]. cbn [snd p_ll] in *.
  destruct (matchItem i itemOpenBrace); [cbn; split; [discriminate|lia]|].
  pose proof (nextItem_length ll1) as H2.
  destruct (nextItem ll1) as [i1 ll2]. cbn [snd] in H2.
  destruct (datLoop_total (S (length ll2)) i1 (mkParser ll2 (p_d p)))
    as [Ha Hb]; [cbn; lia|].
  split; [exact Ha|cbn in *; lia].
Qed.

Lemma parseRound_sound (i : item) (p : parser) :
  fst (parseRound rank i p) <> OutOfFuel
  /\ (length (p_ll (snd (parseRound rank i p))) <= length (p_ll p))%nat.
Proof.
  unfold parseRound.
  pose proof (datStmt_total p) as [Fd Hd].
  pose proof (gameStmt_total (p_ll p)) as [Fg Hg].
  destruct (typ i); cbn [fst snd]; try (split; [discriminate|lia]).
  - destruct (datStmt rank p) as [[[e|]| |] p1]; cbn [fst snd] in *;
      split; congruence || lia.
  - destruct (gameStmt rank (p_ll p)) as [[[[g|] [e|]]| |] ll1];
      cbn [fst snd p_ll] in *; split; congruence || lia.
Qed.

Lemma parseLoop_total (fuel : nat) (i : item) (p : parser) :
  (length (p_ll p) < fuel)%nat ->
  fst (parseLoop rank fuel i p) <> OutOfFuel.
Proof.
  revert i p. induction fuel as [|fuel IH]; intros i p Hf; [lia|].
  cbn [parseLoop]. destruct (endsParse (typ i)); [cbn; discriminate|].
  destruct (parseRound_sound i p) as [Hr Hl].
  destruct (parseRound rank i p) as [[[u|res]| |] p1]; cbn [fst snd] in *;
    try congruence.
  destruct p1 as [[|i1 ll2] d1]; cbn [nextItem p_ll p_d] in *.
  - destruct fuel; cbn; discriminate.
  - apply IH. cbn in *. lia.
Qed.

(** [parse] always returns or panics. *)
Lemma parse_total (p : parser) : fst (parse rank p) <> OutOfFuel.
Proof.
  unfold parse. destruct (nextItem (p_ll p)) as [i ll1].
  apply parseLoop_total. cbn. lia.
Qed.

(** ... and the enclosing [gameStmt] goes on with its rom list as it was:
    the rom is absent from it. *)
Lemma gameRound_nil_rom (g : Game) (i : item) (ll ll' : lexer) :
  typ i = itemRom ->
  romStmt rank ll = (Returns (None, None), ll') ->
  gameRound rank g i ll = (Returns (Goes g), ll').
Proof. intros Hi Hr. unfold gameRound. rewrite Hi, Hr. reflexivity. Qed.

End Statements.

(** The sample game: [romStmt] gives up at the malformed sha1 of the first
    rom, so the game is left with an empty rom list; the loop of [gameStmt]
    then skips the rest of that rom statement and takes its closing brace
    for the one of the game. *)
Example gameStmt_sample :
  gameStmt sampleRank sampleGameItems
  = (Returns (Some (mkGame "g" "" [] [] [] []), None),
     sampleTokenize (list_byte_of_string "rom ( name b.bin size 4 ) )")).
Proof. reflexivity. Qed.

End TextGrammarFacts.

(* ===================================================================== *)
(** ** The readers: line numbers and digests                              *)
(* ===================================================================== *)

Module ReaderFacts.
Import Hex Strings Parser Samples.
Local Open Scope list_scope.

(** *** [ParseXml] and the line counter *)

(** A [Read] through the line-counting reader leaves the caller's counter
    as it was. *)
Lemma lineCountingReader_Read_line (lr : lineCountingReader) :
  lc_line (snd (lineCountingReader_Read lr)) = lc_line lr.
Proof.
  unfold lineCountingReader_Read.
  destruct (lineCountingReader_Read_body lr). reflexivity.
Qed.

Lemma readCalls_line (n : nat) (lr : lineCountingReader) :
  lc_line (snd (readCalls n lr)) = lc_line lr.
Proof.
  revert lr. induction n as [|n IH]; intros lr; [reflexivity|].
  cbn [readCalls].
  pose proof (lineCountingReader_Read_line lr) as H1.
  destruct (lineCountingReader_Read lr) as [res lr1]. cbn [snd] in H1.
  specialize (IH lr1). destruct (readCalls n lr1) as [rest lr2].
  cbn [snd] in *. congruence.
Qed.

Section Xml.

Context (Sum : list byte -> list byte) (Normalize : Dat -> Dat).
Context {xmlError : Type} (xmlDecode : Reader -> nat * (Dat * option xmlError)).

(** C8 fails on the code.  Whatever the input and wherever the decoder
    fails, the line number in the error of [ParseXml] is 0: the newlines are
    counted on copies of the reader and the count is lost. *)
Theorem ParseXml_error_line (r : Reader) (path : string) (d : option Dat)
    (digest : slice) (line : Z) (e : xmlError) :
  ParseXml Sum Normalize xmlError xmlDecode r path
  = (d, digest, Some (ErrXmlParsing line e)) ->
  line = 0.
Proof.
  unfold ParseXml. destruct (xmlDecode r) as [calls [dat [err|]]].
  - pose proof (readCalls_line calls
                  (mkLineCountingReader (mkHashingReader r []) 0)) as Hl.
    destruct (readCalls calls _) as [bytes lr]. cbn [snd lc_line] in Hl.
    intros [= _ _ <- _]. exact Hl.
  - destruct (readCalls calls _) as [bytes lr]. discriminate.
Qed.

End Xml.

(** On the sample input the decoder has read three lines when it fails,
    and the error of [ParseXml] says line 0. *)
Lemma ParseXml_error_line_witness :
  exists line : Z,
    ParseXml (fun b => b) (fun d => d) string sampleXmlDecode
      sampleXmlStream "a.xml"
    = (None, None,
       Some (ErrXmlParsing line "element <game> closed by </datafile>"%string))
    /\ line = 0
    /\ countLines 0
         (fst (readCalls (fst (sampleXmlDecode sampleXmlStream))
                 (mkLineCountingReader (mkHashingReader sampleXmlStream []) 0)))
       = 3.
Proof.
  eexists. split; [reflexivity|].
  split; [|reflexivity].
  apply (ParseXml_error_line (fun b => b) (fun d => d) sampleXmlDecode
           sampleXmlStream "a.xml" None None 0
           "element <game> closed by </datafile>"%string).
  reflexivity.
Defined.

(** *** [ParseDat] and the digest *)

Lemma readToEnd_bytes (fuel : nat) (r : Reader) (h : list byte) :
  (length r < fuel)%nat ->
  fst (readToEnd fuel (mkHashingReader r h)) = deliveredBytes r
  /\ hr_h (snd (readToEnd fuel (mkHashingReader r h))) = h ++ hashedBytes r.
Proof.
  revert r h. induction fuel as [|fuel IH]; intros r h Hf; [lia|].
  cbn [readToEnd]. unfold hashingReader_Read. cbn [hr_ir hr_h].
  destruct r as [|[buf [e|]] rest]; cbn [Read snd fst].
  - cbn. now rewrite app_nil_r.
  - cbn. now rewrite app_nil_r.
  - destruct (IH rest (h ++ buf)) as [H1 H2]; [cbn in Hf; lia|].
    destruct (readToEnd fuel (mkHashingReader rest (h ++ buf))) as [bytes hr].
    cbn [fst snd deliveredBytes hashedBytes] in *.
    rewrite H1, H2, app_assoc. auto.
Qed.

Lemma hashedBytes_clean (r : Reader) :
  cleanStream r = true -> hashedBytes r = deliveredBytes r.
Proof.
  induction r as [|[buf [e|]] rest IH]; intros Hc; [reflexivity| |].
  - cbn in *. destruct buf; [reflexivity|discriminate].
  - cbn in *. now rewrite IH.
Qed.

Section Text.

Context (Sum : list byte -> list byte) (Normalize : Dat -> Dat).
Context (rank : itemType -> Z) (tokenize : list byte -> lexer).
Context (lineNumber : lexer -> Z).

(** C9 fails on the code.  The digest that a successful [ParseDat]
    returns is the digest of the bytes delivered by the calls that reported
    no error; the bytes that a call delivers together with an error, the end
    of the stream included, are taken by the lexer and are not hashed. *)
Theorem ParseDat_digest (r : Reader) (path : string) (d : option Dat)
    (digest : slice) :
  ParseDat Sum Normalize rank tokenize lineNumber r path
  = Returns (d, digest, None) ->
  digest = Some (Sum (hashedBytes r))
  /\ fst (readToEnd (S (length r)) (mkHashingReader r [])) = deliveredBytes r.
Proof.
  unfold ParseDat.
  destruct (readToEnd_bytes (S (length r)) r []) as [Hd Hh]; [lia|].
  destruct (readToEnd (S (length r)) (mkHashingReader r [])) as [input hr].
  cbn [fst snd] in Hd, Hh. rewrite Hh.
  destruct (parse rank (mkParser (tokenize input) emptyDat)) as [[[e|]| |] p];
    intros [= ]; subst; split; reflexivity.
Qed.

(** On a stream that never hands over bytes together with an error the
    digest is the one of the bytes taken from the stream, however the reads
    are cut. *)
Lemma ParseDat_digest_clean (r : Reader) (path : string) (d : option Dat)
    (digest : slice) :
  cleanStream r = true ->
  ParseDat Sum Normalize rank tokenize lineNumber r path
  = Returns (d, digest, None) ->
  digest = Some (Sum (deliveredBytes r)).
Proof.
  intros Hc Hp. rewrite <- (hashedBytes_clean r Hc).
  unfold ParseDat in Hp.
  destruct (readToEnd_bytes (S (length r)) r []) as [_ Hh]; [lia|].
  destruct (readToEnd (S (length r)) (mkHashingReader r [])) as [input hr].
  cbn [snd] in Hh. rewrite Hh in Hp.
  destruct (parse rank (mkParser (tokenize input) emptyDat)) as [[[e|]| |] p];
    inversion Hp; subst; reflexivity.
Qed.

(** [ParseDat] always returns or panics. *)
Lemma ParseDat_total (r : Reader) (path : string) :
  ParseDat Sum Normalize rank tokenize lineNumber r path <> OutOfFuel.
Proof.
  unfold ParseDat.
  destruct (readToEnd (S (length r)) (mkHashingReader r [])) as [input hr].
  pose proof (TextGrammarFacts.parse_total rank
                (mkParser (tokenize input) emptyDat)) as Ht.
  destruct (parse rank (mkParser (tokenize input) emptyDat)) as [[[e|]| |] p];
    cbn [fst] in Ht; congruence.
Qed.

End Text.

(** The sample stream hands over "game ( name g )" together with the end
    of the stream: the parse succeeds on these bytes and the digest returned
    is the one of no bytes at all.  The same bytes, with the end of the
    stream reported in a call of its own, give the digest of the bytes. *)
Lemma ParseDat_digest_witness :
  exists digest : slice,
    ParseDat (fun b => b) (fun d => d) sampleRank sampleTokenize (fun _ => 0)
      sampleEofStream "a.dat"
    = Returns (Some (mkDat "" "" [mkGame "g" "" [] [] [] []] []), digest, None)
    /\ digest = Some []
    /\ deliveredBytes sampleEofStream = sampleText
    /\ sampleText <> []
    /\ ParseDat (fun b => b) (fun d => d) sampleRank sampleTokenize
         (fun _ => 0) sampleCleanStream "a.dat"
       = Returns (Some (mkDat "" "" [mkGame "g" "" [] [] [] []] []),
                  Some sampleText, None).
Proof.
  eexists. split; [reflexivity|].
  split.
  - apply (ParseDat_digest (fun b => b) (fun d => d) sampleRank sampleTokenize
             (fun _ => 0) sampleEofStream "a.dat"
             (Some (mkDat "" "" [mkGame "g" "" [] [] [] []] [])) (Some [])).
    reflexivity.
  - split; [reflexivity|]. split; [discriminate|reflexivity].
Defined.

End ReaderFacts.

(* ===================================================================== *)
(** ** Decimal text and the generation file                               *)
(* ===================================================================== *)

Module GenerationFacts.
Import Parser Archive Strconv Generation Samples.
Local Open Scope list_scope.

(** *** Reading back decimal text *)

Lemma digitVal_digitChar (d : Z) :
  0 <= d <= 9 -> digitVal (digitChar d) = Some d.
Proof.
  intros Hd.
  assert (Hc : In d [0; 1; 2; 3; 4; 5; 6; 7; 8; 9]) by (cbn [In]; lia).
  cbn [In] in Hc.
  repeat (destruct Hc as [<-|Hc]; [reflexivity|]). contradiction.
Qed.

Lemma parseDigits_digit (a d : Z) (rest : string) :
  0 <= d <= 9 ->
  parseDigits a (String (digitChar d) rest) = parseDigits (10 * a + d) rest.
Proof. intros Hd. cbn [parseDigits]. now rewrite digitVal_digitChar. Qed.

(** [formatBits] writes [u] so that [parseDigits] reads it back: what was
    read before is shifted by the digits of [u]. *)
Lemma parseDigits_formatBits (fuel : nat) (u : Z) (acc : string) :
  0 <= u < 10 ^ Z.of_nat fuel -> (0 < fuel)%nat ->
  exists k : Z,
    0 < k /\ u < 10 ^ k
    /\ forall a : Z,
        parseDigits a (formatBits fuel u acc) = parseDigits (a * 10 ^ k + u) acc.
Proof.
  revert u acc. induction fuel as [|fuel IH]; intros u acc Hu Hf; [lia|].
  cbn [formatBits].
  assert (Hm : 0 <= u mod 10 <= 9) by (pose proof (Z.mod_pos_bound u 10); lia).
  pose proof (Z.div_mod u 10 ltac:(lia)) as Hdm.
  destruct (u / 10 =? 0) eqn:Hq.
  - apply Z.eqb_eq in Hq. exists 1. split; [lia|]. split; [lia|].
    intros a. rewrite parseDigits_digit by assumption. f_equal. lia.
  - apply Z.eqb_neq in Hq.
    assert (Hq0 : 0 < u / 10) by (pose proof (Z.div_pos u 10); lia).
    assert (Hfu : (0 < fuel)%nat).
    { destruct fuel; [|lia]. cbn in Hu. assert (u / 10 = 0) by (apply Z.div_small; lia). lia. }
    destruct (IH (u / 10) (String (digitChar (u mod 10)) acc)) as (k & Hk & Hlt & Hp).
    + split; [lia|]. apply Z.div_lt_upper_bound; [lia|].
      rewrite Nat2Z.inj_succ, Z.pow_succ_r in Hu by lia. lia.
    + exact Hfu.
    + exists (k + 1). split; [lia|].
      rewrite Z.pow_add_r by lia. split; [lia|].
      intros a. rewrite Hp, parseDigits_digit by assumption. f_equal. lia.
Qed.

Lemma formatBits_head (fuel : nat) (u : Z) (acc : string) :
  0 <= u -> (0 < fuel)%nat ->
  exists (d : Z) (rest : string),
    0 <= d <= 9 /\ formatBits fuel u acc = String (digitChar d) rest.
Proof.
  revert u acc. induction fuel as [|fuel IH]; intros u acc Hu Hf; [lia|].
  cbn [formatBits].
  assert (Hm : 0 <= u mod 10 <= 9) by (pose proof (Z.mod_pos_bound u 10); lia).
  destruct (u / 10 =? 0) eqn:Hq; [eauto|].
  destruct fuel as [|fuel]; [cbn; eauto|].
  apply IH; [apply Z.div_pos; lia|lia].
Qed.

Lemma Atoi_digits (d : Z) (rest : string) :
  0 <= d <= 9 ->
  Atoi (String (digitChar d) rest)
  = match parseDigits 0 (String (digitChar d) rest) with
    | None => (0, Some ErrSyntax)
    | Some n =>
        if n <? - 2 ^ 63 then (- 2 ^ 63, Some ErrRange)
        else if 2 ^ 63 - 1 <? n then (2 ^ 63 - 1, Some ErrRange)
        else (n, None)
    end.
Proof.
  intros Hd.
  assert (Hc : In d [0; 1; 2; 3; 4; 5; 6; 7; 8; 9]) by (cbn [In]; lia).
  cbn [In] in Hc.
  repeat (destruct Hc as [<-|Hc]; [reflexivity|]). contradiction.
Qed.

Lemma FormatUint_parse (u : Z) :
  0 <= u <= 2 ^ 63 ->
  exists (d : Z) (rest : string),
    0 <= d <= 9 /\ FormatUint u = String (digitChar d) rest
    /\ parseDigits 0 (FormatUint u) = Some u.
Proof.
  intros Hu. unfold FormatUint.
  destruct (formatBits_head 20 u "" ltac:(lia) ltac:(lia)) as (d & rest & Hd & Hh).
  destruct (parseDigits_formatBits 20 u "") as (k & _ & _ & Hp);
    [change (Z.of_nat 20) with 20; lia|lia|].
  exists d, rest. split; [exact Hd|]. split; [exact Hh|].
  rewrite Hp. cbn [parseDigits]. f_equal; lia.
Qed.

(** [Atoi] reads back what [FormatInt] writes. *)
Lemma Atoi_FormatInt (n : Z) :
  - 2 ^ 63 <= n < 2 ^ 63 -> Atoi (FormatInt n) = (n, None).
Proof.
  intros Hn. unfold FormatInt. destruct (n <? 0) eqn:Hneg.
  - apply Z.ltb_lt in Hneg.
    destruct (FormatUint_parse (- n)) as (d & rest & Hd & Hh & Hp); [lia|].
    unfold Atoi. rewrite Hp. rewrite Hh.
    destruct (- - n <? - 2 ^ 63) eqn:H1; [apply Z.ltb_lt in H1; lia|].
    destruct (2 ^ 63 - 1 <? - - n) eqn:H2; [apply Z.ltb_lt in H2; lia|].
    f_equal. lia.
  - apply Z.ltb_ge in Hneg.
    destruct (FormatUint_parse n) as (d & rest & Hd & Hh & Hp); [lia|].
    rewrite Hh, Atoi_digits by assumption. rewrite <- Hh, Hp.
    destruct (n <? - 2 ^ 63) eqn:H1; [apply Z.ltb_lt in H1; lia|].
    destruct (2 ^ 63 - 1 <? n) eqn:H2; [apply Z.ltb_lt in H2; lia|].
    reflexivity.
Qed.

Lemma FormatInt_not_dash (n : Z) :
  - 2 ^ 63 <= n < 2 ^ 63 -> String.eqb (FormatInt n) "-" = false.
Proof.
  intros Hn. apply String.eqb_neq. unfold FormatInt.
  destruct (n <? 0) eqn:Hneg.
  - apply Z.ltb_lt in Hneg.
    destruct (FormatUint_parse (- n)) as (d & rest & _ & Hh & _); [lia|].
    rewrite Hh. discriminate.
  - apply Z.ltb_ge in Hneg.
    destruct (FormatUint_parse n) as (d & rest & Hd & Hh & _); [lia|].
    rewrite Hh. intros [= Hc _].
    assert (Hin : In d [0; 1; 2; 3; 4; 5; 6; 7; 8; 9]) by (cbn [In]; lia).
    cbn [In] in Hin.
    repeat (destruct Hin as [<-|Hin]; [discriminate Hc|]). contradiction.
Qed.

(** X1.  [stringValue2Int] reads the decimal text of every [int] back as
    that number, without error; the token "-" reads as 0. *)
Theorem stringValue2Int_decimal (n : Z) :
  - 2 ^ 63 <= n < 2 ^ 63 ->
  stringValue2Int (FormatInt n) = (n, None)
  /\ stringValue2Int "-" = (0, None).
Proof.
  intros Hn. split; [|reflexivity].
  unfold stringValue2Int. rewrite FormatInt_not_dash by assumption.
  now apply Atoi_FormatInt.
Qed.

Lemma stringValue2Int_decimal_witness :
  FormatInt (-42) = "-42"%string
  /\ stringValue2Int "-42" = (-42, None)
  /\ stringValue2Int "-" = (0, None).
Proof.
  destruct (stringValue2Int_decimal (-42)) as [H1 H2]; [lia|].
  split; [reflexivity|]. split; [exact H1|exact H2].
Defined.

(** *** The generation file *)

(** After the file has been created empty, writing the first [k] bytes of
    [data] leaves these bytes in it. *)
Lemma writeStates_lastState (p : string) (data : list byte) (k : nat) (fs : FS) :
  lastState (<[p := []]> fs) (writeStates p data k (<[p := []]> fs))
  = <[p := take k data]> fs.
Proof.
  unfold lastState, writeStates. destruct k as [|k].
  - cbn. reflexivity.
  - rewrite seq_S, map_app. cbn [map]. rewrite last_last.
    apply insert_insert_eq.
Qed.

Section GenerationFile.

Context (Join : string -> string -> string).

Lemma WriteGenerationFile_eq (flt : genFaults) (root : string) (size : Z) (fs : FS) :
  gfCreate flt = None ->
  WriteGenerationFile Join flt root size fs
  = (None,
     <[Join root generationFilename :=
         match gfWrite flt with
         | Some (m, _) => take m (list_byte_of_string (FormatInt size))
         | None => list_byte_of_string (FormatInt size)
         end]> fs).
Proof.
  intros Hc. unfold WriteGenerationFile, Create, WriteTo, createFaults.
  cbn [failCreate failWrite]. rewrite Hc.
  destruct (gfWrite flt) as [[m e]|]; rewrite writeStates_lastState; f_equal.
  - f_equal. rewrite <- take_take. now rewrite firstn_all.
  - f_equal. apply firstn_all.
Qed.

(** X2.  What [WriteGenerationFile] has written, [ReadGenerationFile]
    reads back: for every [int64] size the read returns that size without
    error and leaves the file system as the write left it. *)
Theorem generation_file_round_trip (root : string) (size : Z) (fs : FS) :
  - 2 ^ 63 <= size < 2 ^ 63 ->
  fst (WriteGenerationFile Join noGenFaults root size fs) = None
  /\ ReadGenerationFile Join noGenFaults root
       (snd (WriteGenerationFile Join noGenFaults root size fs))
     = ((size, None), snd (WriteGenerationFile Join noGenFaults root size fs)).
Proof.
  intros Hs. rewrite WriteGenerationFile_eq by reflexivity.
  cbn [fst snd gfWrite noGenFaults]. split; [reflexivity|].
  unfold ReadGenerationFile, Open. cbn [gfOpen gfRead noGenFaults].
  rewrite lookup_insert_eq. unfold ParseInt.
  rewrite string_of_list_byte_of_string, Atoi_FormatInt by assumption.
  reflexivity.
Qed.

(** X3.  On a root without a generation file [ReadGenerationFile] returns
    0 without error and leaves the file there with the text "0"; the next
    read returns 0 again and changes nothing. *)
Theorem ReadGenerationFile_missing (root : string) (fs : FS) :
  fs !! Join root generationFilename = None ->
  let fs' : FS := <[Join root generationFilename := list_byte_of_string "0"]> fs in
  ReadGenerationFile Join noGenFaults root fs = ((0, None), fs')
  /\ ReadGenerationFile Join noGenFaults root fs' = ((0, None), fs').
Proof.
  intros Hm fs'. split.
  - unfold ReadGenerationFile, Open. cbn [gfOpen noGenFaults]. rewrite Hm.
    cbn [isNotExist]. rewrite WriteGenerationFile_eq by reflexivity.
    reflexivity.
  - unfold ReadGenerationFile, Open. cbn [gfOpen gfRead noGenFaults].
    unfold fs'. rewrite lookup_insert_eq. reflexivity.
Qed.


End GenerationFile.

Lemma generation_file_round_trip_witness :
  ReadGenerationFile sampleJoin noGenFaults "db"
    (snd (WriteGenerationFile sampleJoin noGenFaults "db" (-9223372036854775808) ∅))
  = ((-9223372036854775808, None),
     {[ "db/romba-generation"%string
        := list_byte_of_string "-9223372036854775808" ]}).
Proof.
  destruct (generation_file_round_trip sampleJoin "db" (-9223372036854775808) ∅)
    as [_ Hr]; [lia|].
  rewrite Hr. reflexivity.
Defined.

Lemma ReadGenerationFile_missing_witness :
  ReadGenerationFile sampleJoin noGenFaults "db" ∅
  = ((0, None), {[ "db/romba-generation"%string := list_byte_of_string "0" ]}).
Proof.
  destruct (ReadGenerationFile_missing sampleJoin "db" ∅) as [Hr _].
  - apply lookup_empty.
  - rewrite Hr. reflexivity.
Defined.


End GenerationFacts.

(* ===================================================================== *)
(** ** Which files the refresh admits                                     *)
(* ===================================================================== *)

Module AcceptFacts.
Import Parser DB Samples.
Local Open Scope list_scope.

Lemma list_ascii_of_string_app (s t : string) :
  list_ascii_of_string (s ++ t)%string
  = list_ascii_of_string s ++ list_ascii_of_string t.
Proof.
  induction s as [|c s IH]; [reflexivity|].
  rewrite HexFacts.append_String. cbn [list_ascii_of_string app]. now rewrite IH.
Qed.

Lemma string_of_list_ascii_app (l l' : list ascii) :
  string_of_list_ascii (l ++ l')
  = (string_of_list_ascii l ++ string_of_list_ascii l')%string.
Proof.
  induction l as [|c l IH]; [reflexivity|].
  cbn [app string_of_list_ascii]. rewrite HexFacts.append_String. now rewrite IH.
Qed.

(** The scan of [filepath.Ext] returns nothing or what it has passed. *)
Lemma extFrom_passed (rpath acc : list ascii) :
  extFrom rpath acc = ""%string
  \/ exists k : nat,
       extFrom rpath acc = string_of_list_ascii (rev (firstn k rpath) ++ acc).
Proof.
  revert acc. induction rpath as [|c rest IH]; intros acc; [now left|].
  cbn [extFrom]. destruct (Ascii.eqb c "/"); [now left|].
  destruct (Ascii.eqb c ".").
  - right. exists 1%nat. reflexivity.
  - destruct (IH (c :: acc)) as [He|[k Hk]]; [now left|].
    right. exists (S k). rewrite Hk. cbn [firstn rev].
    now rewrite <- app_assoc.
Qed.

(** The extension is a suffix of the path. *)
Lemma Ext_suffix (path : string) :
  exists p : string, path = (p ++ Ext path)%string.
Proof.
  unfold Ext.
  destruct (extFrom_passed (rev (list_ascii_of_string path)) []) as [He|[k Hk]].
  - rewrite He. exists path. clear.
    induction path as [|c s IH]; [reflexivity|].
    rewrite HexFacts.append_String. now rewrite <- IH.
  - rewrite Hk, app_nil_r.
    exists (string_of_list_ascii
              (rev (skipn k (rev (list_ascii_of_string path))))).
    rewrite <- string_of_list_ascii_app, <- rev_app_distr, firstn_skipn.
    now rewrite rev_involutive, string_of_list_ascii_of_string.
Qed.

Lemma Ext_dat (p : string) : Ext (p ++ ".dat") = ".dat"%string.
Proof.
  unfold Ext. rewrite list_ascii_of_string_app, rev_app_distr. reflexivity.
Qed.

Lemma Ext_xml (p : string) : Ext (p ++ ".xml") = ".xml"%string.
Proof.
  unfold Ext. rewrite list_ascii_of_string_app, rev_app_distr. reflexivity.
Qed.

(** X5.  [Accept] admits exactly the paths that end in ".dat" or in
    ".xml", whatever comes before and in this spelling only. *)
Theorem Accept_iff {D ProgressTracker : Type}
    (pm : @refreshMaster D ProgressTracker) (path : string) :
  Accept pm path = true
  <-> (exists p : string, path = (p ++ ".dat")%string)
      \/ (exists p : string, path = (p ++ ".xml")%string).
Proof.
  unfold Accept. rewrite orb_true_iff, !String.eqb_eq. split.
  - destruct (Ext_suffix path) as [p Hp].
    intros [He|He]; rewrite He in Hp; eauto.
  - intros [[p ->]|[p ->]]; [left; apply Ext_dat|right; apply Ext_xml].
Qed.

End AcceptFacts.

(* ===================================================================== *)
(** ** The format dispatcher: [isXML] and [Parse]                         *)
(* ===================================================================== *)

Module ParseFileFacts.
Import Hex Strings Parser Archive Generation ParseFile Samples MoreSamples.
Local Open Scope list_scope.

Lemma prefix_iff (pre s : string) :
  String.prefix pre s = true <-> exists t : string, s = (pre ++ t)%string.
Proof.
  revert s. induction pre as [|a pre IH]; intros s.
  - split; [intros _; now exists s|intros _; destruct s; reflexivity].
  - destruct s as [|b s]; cbn [String.prefix].
    + split; [discriminate|intros [t Ht]; discriminate Ht].
    + destruct (ascii_dec a b) as [->|Hab].
      * rewrite IH. split; intros [t Ht]; exists t.
        -- rewrite HexFacts.append_String. now rewrite Ht.
        -- rewrite HexFacts.append_String in Ht. now injection Ht.
      * split; [discriminate|]. intros [t Ht].
        rewrite HexFacts.append_String in Ht. injection Ht as Hc _. congruence.
Qed.

Lemma list_byte_of_string_app (s t : string) :
  list_byte_of_string (s ++ t)%string
  = list_byte_of_string s ++ list_byte_of_string t.
Proof.
  unfold list_byte_of_string.
  rewrite AcceptFacts.list_ascii_of_string_app. apply map_app.
Qed.

Lemma string_of_list_byte_app (l l' : list byte) :
  string_of_list_byte (l ++ l')
  = (string_of_list_byte l ++ string_of_list_byte l')%string.
Proof.
  unfold string_of_list_byte.
  rewrite map_app. apply AcceptFacts.string_of_list_ascii_app.
Qed.

(** The two answers of [isXML] on an existing file. *)
Lemma isXML_cases (path : string) (fs : FS) (content : list byte) :
  fs !! path = Some content ->
  (isXML noParseFaults path fs = (true, None)
   /\ exists rest : list byte, content = list_byte_of_string "<?xml" ++ rest)
  \/ isXML noParseFaults path fs = (false, None).
Proof.
  intros Hf. unfold isXML, Open. cbn [pfOpenSniff pfReadSniff noParseFaults].
  rewrite Hf. unfold HasPrefix.
  destruct (String.prefix "<?xml" (string_of_list_byte (take 256 content)))
    eqn:Hp; [left|now right].
  split; [reflexivity|]. apply prefix_iff in Hp. destruct Hp as [t Ht].
  exists (list_byte_of_string t ++ drop 256 content).
  apply (f_equal list_byte_of_string) in Ht.
  rewrite list_byte_of_string_of_list_byte, list_byte_of_string_app in Ht.
  rewrite app_assoc, <- Ht. symmetry. apply take_drop.
Qed.

(** X6.  [isXML], when its system calls succeed on an existing file, says
    yes exactly when the content of the file starts with the five bytes
    "<?xml"; looking at the first 256 bytes only makes no difference, and a
    shorter file is not XML. *)
Theorem isXML_iff (path : string) (fs : FS) (content : list byte) :
  fs !! path = Some content ->
  exists b : bool,
    isXML noParseFaults path fs = (b, None)
    /\ (b = true
        <-> exists rest : list byte,
              content = list_byte_of_string "<?xml" ++ rest).
Proof.
  intros Hf. unfold isXML, Open. cbn [pfOpenSniff pfReadSniff noParseFaults].
  rewrite Hf. eexists. split; [reflexivity|].
  unfold HasPrefix. rewrite prefix_iff. split.
  - intros [t Ht]. exists (list_byte_of_string t ++ drop 256 content).
    apply (f_equal list_byte_of_string) in Ht.
    rewrite list_byte_of_string_of_list_byte, list_byte_of_string_app in Ht.
    rewrite app_assoc, <- Ht. symmetry. apply take_drop.
  - intros [rest ->]. exists (string_of_list_byte (take 251 rest)).
    change (take 256 (list_byte_of_string "<?xml" ++ rest))
      with (list_byte_of_string "<?xml" ++ take 251 rest).
    now rewrite string_of_list_byte_app.
Qed.

Lemma isXML_iff_witness :
  isXML noParseFaults "a.dat" {[ "a.dat"%string := sampleText ]} = (false, None)
  /\ isXML noParseFaults "b.xml"
       {[ "b.xml"%string := list_byte_of_string "<?xml version" ]}
     = (true, None).
Proof.
  split.
  - destruct (isXML_iff "a.dat" {[ "a.dat"%string := sampleText ]} sampleText)
      as (b & Hrun & Hb); [apply lookup_singleton_eq|].
    rewrite Hrun. destruct b; [|reflexivity].
    destruct Hb as [Hb _]. destruct (Hb eq_refl) as [rest Hrest].
    discriminate Hrest.
  - destruct (isXML_iff "b.xml"
                {[ "b.xml"%string := list_byte_of_string "<?xml version" ]}
                (list_byte_of_string "<?xml version"))
      as (b & Hrun & Hb); [apply lookup_singleton_eq|].
    rewrite Hrun. f_equal. apply Hb.
    exists (list_byte_of_string " version"). reflexivity.
Defined.

Section TextFiles.

Context (Sum : list byte -> list byte) (Normalize : Dat -> Dat).
Context {xmlError : Type} (xmlDecode : Reader -> nat * (Dat * option xmlError)).
Context (rank : itemType -> Z) (tokenize : list byte -> lexer).
Context (lineNumber : lexer -> Z) (fileReads : list byte -> Reader).

(** X7.  For a file that does not start with "<?xml" and whose reads hand
    over its content without mixing bytes and errors (as the reads of a file
    do), a [Parse] that succeeds returns the digest of the whole content of
    the file, however the reads are cut. *)
Theorem Parse_text_digest (path : string) (fs : FS) (content : list byte)
    (d : option Dat) (digest : slice) :
  fs !! path = Some content ->
  (forall rest : list byte, content <> list_byte_of_string "<?xml" ++ rest) ->
  cleanStream (fileReads content) = true ->
  deliveredBytes (fileReads content) = content ->
  Parse Sum Normalize xmlError xmlDecode rank tokenize lineNumber fileReads
    noParseFaults path fs
  = Returns (d, digest, None) ->
  digest = Some (Sum content).
Proof.
  intros Hf Hnx Hclean Hdel. unfold Parse.
  destruct (isXML_cases path fs content Hf) as [[Hx [rest Hrest]]|Hx].
  { exfalso. exact (Hnx rest Hrest). }
  rewrite Hx. unfold Open. cbn [pfOpen noParseFaults]. rewrite Hf.
  destruct (ParseDat Sum Normalize rank tokenize lineNumber (fileReads content) path)
    as [[[d' digest'] err']| |] eqn:Hp; try discriminate.
  intros [= <- <- He]. destruct err'; [discriminate|].
  rewrite <- Hdel.
  eapply ReaderFacts.ParseDat_digest_clean; eauto.
Qed.

End TextFiles.

Lemma Parse_text_digest_witness :
  exists (d : option Dat) (digest : slice),
    Parse (fun b => b) (fun d => d) string sampleXmlDecode sampleRank
      sampleTokenize (fun _ => 0) sampleFileReads noParseFaults "a.dat"
      {[ "a.dat"%string := sampleText ]}
    = Returns (d, digest, None)
    /\ digest = Some sampleText.
Proof.
  eexists _, _. split; [reflexivity|].
  apply (Parse_text_digest (fun b => b) (fun d => d) sampleXmlDecode sampleRank
           sampleTokenize (fun _ => 0) sampleFileReads "a.dat"
           {[ "a.dat"%string := sampleText ]} sampleText
           (Some (mkDat "" "" [mkGame "g" "" [] [] [] []] []))
           (Some sampleText)).
  - apply lookup_singleton_eq.
  - intros rest H. vm_compute in H. discriminate H.
  - reflexivity.
  - reflexivity.
  - reflexivity.
Defined.

End ParseFileFacts.

(* ===================================================================== *)
(** ** The text grammar: what a rom statement yields                      *)
(* ===================================================================== *)

Module RomStatementFacts.
Import Hex Strings Parser Strconv Printing Samples MoreSamples.
Local Open Scope list_scope.

Section Statements.

Context (rank : itemType -> Z).

(** *** A rom is returned at a closing brace only *)

Lemma nextItem_cases (ll : lexer) :
  (ll = [] /\ nextItem ll = (mkItem itemEOF "", []))
  \/ exists i rest, ll = i :: rest /\ nextItem ll = (i, rest).
Proof. destruct ll as [|i rest]; [left|right]; eauto. Qed.

(** A [consume...] call takes the first item, if there is one. *)
Ltac consume_taken c ll :=
  unfold c; destruct (nextItem_cases ll) as [[-> ->]|(j & rest & -> & ->)];
  [exists [] | exists [j]];
  destruct (typ _); try destruct (unquote _); try destruct (_ <? _);
  reflexivity.

Lemma consumeStringValue_taken (ll : lexer) :
  exists taken, ll = taken ++ snd (consumeStringValue rank ll).
Proof. consume_taken consumeStringValue ll. Qed.

Lemma consumeIntegerValue_taken (ll : lexer) :
  exists taken, ll = taken ++ snd (consumeIntegerValue ll).
Proof. consume_taken consumeIntegerValue ll. Qed.

Lemma consumeHexBytes_taken (n : Z) (ll : lexer) :
  exists taken, ll = taken ++ snd (consumeHexBytes n ll).
Proof. consume_taken consumeHexBytes ll. Qed.

(** A round of [romStmt]'s loop takes items from the front, and when it
    makes the function return, it is not with a rom. *)
Lemma romRound_taken (r : Rom) (i : item) (ll : lexer) :
  (exists taken, ll = taken ++ snd (romRound rank r i ll))
  /\ (forall res, fst (romRound rank r i ll) = Returns (Leaves res) ->
      fst res = None).
Proof.
  unfold romRound.
  pose proof (consumeStringValue_taken ll) as Hs.
  pose proof (consumeIntegerValue_taken ll) as Hi.
  pose proof (consumeHexBytes_taken 8 ll) as H8.
  pose proof (consumeHexBytes_taken 32 ll) as H32.
  pose proof (consumeHexBytes_taken 40 ll) as H40.
  destruct (typ i); cbn [fst snd];
    try (split; [now exists []|discriminate]).
  - destruct (consumeStringValue rank ll) as [[[v [e|]]| |] ll1];
      cbn [fst snd] in *; (split; [assumption|]); intros res [= <-] || intros res [=];
      reflexivity.
  - destruct (consumeIntegerValue ll) as [[[v [e|]]| |] ll1];
      cbn [fst snd] in *; (split; [assumption|]); intros res [= <-] || intros res [=];
      reflexivity.
  - destruct (consumeHexBytes 8 ll) as [[[v [e|]]| |] ll1];
      cbn [fst snd] in *; (split; [assumption|]); intros res [= <-] || intros res [=];
      reflexivity.
  - destruct (consumeHexBytes 32 ll) as [[[v [e|]]| |] ll1];
      cbn [fst snd] in *; (split; [assumption|]); intros res [= <-] || intros res [=];
      reflexivity.
  - destruct (consumeHexBytes 40 ll) as [[[v [e|]]| |] ll1];
      cbn [fst snd] in *; (split; [assumption|]); intros res [= <-] || intros res [=];
      reflexivity.
Qed.

Lemma romLoop_at_brace (fuel : nat) (r r' : Rom) (i : item) (ll ll' : lexer) :
  romLoop rank fuel r i ll = (Returns (Some r', None), ll') ->
  exists (body : list item) (close : item),
    i :: ll = body ++ close :: ll' /\ typ close = itemCloseBrace.
Proof.
  revert r i ll. induction fuel as [|fuel IH]; intros r i ll.
  - cbn [romLoop]. destruct (endsStmt (typ i)) eqn:He; [|discriminate].
    unfold afterLoop. destruct (typ i) eqn:Ht; try discriminate.
    intros [= _ <-]. now exists [], i.
  - cbn [romLoop]. destruct (endsStmt (typ i)) eqn:He.
    + unfold afterLoop. destruct (typ i) eqn:Ht; try discriminate.
      intros [= _ <-]. now exists [], i.
    + destruct (romRound_taken r i ll) as [[taken Htaken] Hres].
      destruct (romRound rank r i ll) as [[[r1|res]| |] ll1];
        cbn [fst snd] in *; try discriminate.
      * destruct ll1 as [|i1 ll2]; cbn [nextItem].
        -- destruct fuel; cbn; discriminate.
        -- intros Hl. destruct (IH _ _ _ Hl) as (body & close & Hb & Hc).
           exists (i :: taken ++ body), close. split; [|exact Hc].
           rewrite Htaken, Hb. cbn [app]. now rewrite <- app_assoc.
      * intros [= -> <-]. specialize (Hres _ eq_refl). discriminate Hres.
Qed.

(** X8.  When [romStmt] returns a rom, the items it has taken are an
    opening brace, some items, and a closing brace, and the lexer is left
    right after that closing brace: no rom comes out of a statement that is
    cut short. *)
Theorem romStmt_at_brace (ll ll' : lexer) (r : Rom) :
  romStmt rank ll = (Returns (Some r, None), ll') ->
  exists (open : item) (body : list item) (close : item),
    ll = open :: body ++ close :: ll'
    /\ typ open = itemOpenBrace /\ typ close = itemCloseBrace.
Proof.
  unfold romStmt, matchItem.
  destruct ll as [|open ll1]; cbn [nextItem]; [discriminate|].
  destruct (bool_decide (typ open = itemOpenBrace)) eqn:Ho; [|discriminate].
  apply bool_decide_eq_true_1 in Ho.
  destruct ll1 as [|i1 ll2]; cbn [nextItem]; [cbn; discriminate|].
  intros Hl. apply romLoop_at_brace in Hl.
  destruct Hl as (body & close & Hb & Hc).
  exists open, body, close. now rewrite Hb.
Qed.

(** *** A statement that describes a rom is parsed to that rom *)

Lemma romReaches_trans (r1 r2 r3 : Rom) (i1 i2 i3 : item) (l1 l2 l3 : lexer) :
  romReaches rank r1 i1 l1 r2 i2 l2 -> romReaches rank r2 i2 l2 r3 i3 l3 ->
  romReaches rank r1 i1 l1 r3 i3 l3.
Proof.
  induction 1 as [|r r1' r' i i' ll ll1 ll' He Hr Hreach IH]; [auto|].
  intros H23. eapply reaches_round; eauto.
Qed.

(** When the rounds that go on lead to an item that ends the statement,
    the loop returns what that item decides. *)
Lemma romLoop_reaches_end (r r' : Rom) (i i' : item) (ll ll' : lexer) :
  romReaches rank r i ll r' i' ll' ->
  endsStmt (typ i') = true ->
  forall fuel : nat, (length ll < fuel)%nat ->
  romLoop rank fuel r i ll = (Returns (afterLoop i' (Some r') None), ll').
Proof.
  intros Hreach Hend.
  induction Hreach as [r i ll | r r1 r' i i' ll ll1 ll' He Hround Hreach IH];
    intros fuel Hf.
  - destruct fuel; cbn [romLoop]; now rewrite Hend.
  - destruct fuel as [|fuel]; [lia|]. cbn [romLoop]. rewrite He, Hround.
    pose proof (TextGrammarFacts.romRound_sound rank r i ll) as [_ Hl].
    rewrite Hround in Hl. cbn [snd] in Hl.
    destruct ll1 as [|i1 ll2]; cbn [nextItem fst snd] in *.
    + inversion Hreach; subst; [|cbn in *; discriminate].
      destruct fuel; reflexivity.
    + apply (IH Hend). cbn in Hl. lia.
Qed.

Lemma stringValue2Bytes_full (raw : list byte) (expectedLength : Z) :
  raw <> [] -> expectedLength <= 2 * Z.of_nat (length raw) ->
  stringValue2Bytes (EncodeToString raw) expectedLength = (Some raw, None).
Proof.
  intros Hne Hlen.
  assert (Hhex : isHex (EncodeToString raw) = true).
  { clear. induction raw as [|b raw IH]; [reflexivity|].
    destruct (HexFacts.hextable_digit b) as (Hh & Hl & Bh & Bl).
    cbn [EncodeToString isHex]. rewrite Hh, Hl, IH.
    apply N.leb_le in Bh, Bl. now rewrite Bh, Bl. }
  assert (Hl : len (EncodeToString raw) = 2 * Z.of_nat (length raw)).
  { clear. unfold len. induction raw as [|b raw IH]; [reflexivity|].
    cbn [EncodeToString String.length length]. lia. }
  unfold stringValue2Bytes.
  assert (E1 : String.eqb (EncodeToString raw) "-" = false).
  { apply String.eqb_neq. intros E. rewrite E in Hhex. discriminate Hhex. }
  assert (E2 : String.eqb (EncodeToString raw) "" = false).
  { apply String.eqb_neq. destruct raw; [congruence|discriminate]. }
  rewrite E1, E2. cbn [orb]. rewrite (HexFacts.TrimSpace_isHex _ Hhex).
  destruct (len (EncodeToString raw) <? expectedLength) eqn:Hlt;
    [apply Z.ltb_lt in Hlt; lia|].
  unfold DecodeString. now rewrite HexFacts.Decode_EncodeToString.
Qed.

(** The round of a [name] field and of a [size] field. *)
Lemma romReaches_name (r : Rom) (w v : string) (i' : item) (ll' : lexer) :
  romReaches rank r (mkItem itemName w) (mkItem itemValue v :: i' :: ll')
    (setRName r v) i' ll'.
Proof. eapply reaches_round; [reflexivity|reflexivity|apply reaches_here]. Qed.

Lemma romReaches_size (r : Rom) (w : string) (n : Z) (i' : item) (ll' : lexer) :
  - 2 ^ 63 <= n < 2 ^ 63 ->
  romReaches rank r (mkItem itemSize w)
    (mkItem itemValue (FormatInt n) :: i' :: ll') (setRSize r n) i' ll'.
Proof.
  intros Hn.
  eapply reaches_round with (r1 := setRSize r n) (ll1 := i' :: ll');
    [reflexivity| |apply reaches_here].
  unfold romRound, consumeIntegerValue, stringValue2Int.
  cbn [typ val nextItem].
  rewrite GenerationFacts.FormatInt_not_dash, GenerationFacts.Atoi_FormatInt
    by assumption.
  reflexivity.
Qed.

(** The rounds of the items of one hash field. *)
Lemma romReaches_hash (kw : itemType) (word : string) (n : Z) (h : slice)
    (set : Rom -> slice -> Rom) (r : Rom) (k : item) (tail : lexer)
    (i : item) (ll : lexer) :
  (kw = itemCrc /\ n = 8 /\ set = setRCrc /\ rCrc r = None)
  \/ (kw = itemMd5 /\ n = 32 /\ set = setRMd5 /\ rMd5 r = None)
  \/ (kw = itemSha1 /\ n = 40 /\ set = setRSha1 /\ rSha1 r = None) ->
  fullHash n h ->
  hashItems kw word h ++ k :: tail = i :: ll ->
  romReaches rank r i ll (set r h) k tail.
Proof.
  intros Hkw Hfull Hitems. destruct h as [raw|].
  - cbn [hashItems app] in Hitems. injection Hitems as <- <-.
    destruct Hfull as [Hne Hlen].
    eapply reaches_round with (r1 := set r (Some raw)) (ll1 := k :: tail);
      [| |apply reaches_here].
    + destruct Hkw as [(-> & _)|[(-> & _)|(-> & _)]]; reflexivity.
    + destruct Hkw as [(-> & -> & -> & _)|[(-> & -> & -> & _)|(-> & -> & -> & _)]];
        unfold romRound, consumeHexBytes; cbn [typ val nextItem];
        rewrite stringValue2Bytes_full by assumption; reflexivity.
  - cbn [hashItems app] in Hitems. injection Hitems as <- <-.
    replace (set r None) with r; [apply reaches_here|].
    destruct r; destruct Hkw as [(_ & _ & -> & E)|[(_ & _ & -> & E)|(_ & _ & -> & E)]];
      cbn in E; subst; reflexivity.
Qed.

(** The rounds over the items of a printed rom: from the empty rom at the
    [name] keyword to the rom itself at the closing brace. *)
Lemma romItems_reaches (r : Rom) (rest : lexer) :
  printableRom r ->
  exists ll0 : lexer,
    romItems r ++ rest
    = mkItem itemOpenBrace "(" :: mkItem itemName "name" :: ll0
    /\ romReaches rank emptyRom (mkItem itemName "name") ll0
         r (mkItem itemCloseBrace ")") rest.
Proof.
  intros (Hsize & Hcrc & Hmd5 & Hsha1). destruct r as [n s c m h].
  cbn [rSize rCrc rMd5 rSha1] in *.
  unfold romItems. cbn [rName rSize rCrc rMd5 rSha1]. cbn [app].
  set (close := mkItem itemCloseBrace ")").
  set (tail3 := hashItems itemSha1 "sha1" h ++ [close]).
  set (tail2 := hashItems itemMd5 "md5" m ++ tail3).
  set (tail1 := (hashItems itemCrc "crc" c ++ tail2) ++ rest).
  assert (H1 : exists i1 l1, tail1 = i1 :: l1
             /\ romReaches rank (mkRom n s None None None) i1 l1
                  (mkRom n s c m h) close rest).
  { unfold tail1, tail2, tail3.
    assert (H3 : exists i3 l3, hashItems itemSha1 "sha1" h ++ close :: rest = i3 :: l3)
      by (destruct h; cbn; eauto).
    destruct H3 as (i3 & l3 & E3).
    assert (H2 : exists i2 l2, hashItems itemMd5 "md5" m ++ i3 :: l3 = i2 :: l2)
      by (destruct m; cbn; eauto).
    destruct H2 as (i2 & l2 & E2).
    assert (H1 : exists i1 l1, hashItems itemCrc "crc" c ++ i2 :: l2 = i1 :: l1)
      by (destruct c; cbn; eauto).
    destruct H1 as (i1 & l1 & E1).
    exists i1, l1. split.
    - rewrite <- !app_assoc. cbn [app]. rewrite E3, E2. exact E1.
    - change (mkRom n s c m h)
        with (setRSha1 (setRMd5 (setRCrc (mkRom n s None None None) c) m) h).
      eapply romReaches_trans;
        [apply (romReaches_hash itemCrc "crc" 8 c setRCrc _ i2 l2 i1 l1);
         [left; auto|exact Hcrc|exact E1]|].
      eapply romReaches_trans;
        [apply (romReaches_hash itemMd5 "md5" 32 m setRMd5 _ i3 l3 i2 l2);
         [right; left; auto|exact Hmd5|exact E2]|].
      apply (romReaches_hash itemSha1 "sha1" 40 h setRSha1 _ close rest i3 l3);
        [right; right; auto|exact Hsha1|exact E3]. }
  destruct H1 as (i1 & l1 & E1 & Hreach).
  eexists. split; [reflexivity|].
  eapply romReaches_trans; [apply romReaches_name|].
  rewrite E1.
  eapply romReaches_trans; [apply romReaches_size; exact Hsize|].
  exact Hreach.
Qed.

(** A statement whose rounds lead to its closing brace gives the rom
    collected on the way. *)
Lemma romStmt_of_reaches (open i0 close : item) (ll0 rest : lexer) (r : Rom) :
  typ open = itemOpenBrace -> typ close = itemCloseBrace ->
  romReaches rank emptyRom i0 ll0 r close rest ->
  romStmt rank (open :: i0 :: ll0) = (Returns (Some r, None), rest).
Proof.
  intros Ho Hc Hreach. unfold romStmt, matchItem. cbn [nextItem].
  rewrite bool_decide_eq_true_2 by exact Ho.
  rewrite (romLoop_reaches_end emptyRom r i0 close ll0 rest Hreach);
    [|now rewrite Hc|lia].
  unfold afterLoop. now rewrite Hc.
Qed.

(** X9.  A statement [( name N size S crc C md5 M sha1 H )] whose size is
    an [int] and whose hashes are nil (and then left out) or at least of
    canonical length is parsed by [romStmt] to the rom with exactly these
    fields, and the lexer is left at what follows the statement. *)
Theorem romStmt_romItems (r : Rom) (rest : lexer) :
  printableRom r ->
  romStmt rank (romItems r ++ rest) = (Returns (Some r, None), rest).
Proof.
  intros Hr. destruct (romItems_reaches r rest Hr) as (ll0 & Hitems & Hreach).
  rewrite Hitems.
  apply romStmt_of_reaches with (close := mkItem itemCloseBrace ")").
  - reflexivity.
  - reflexivity.
  - exact Hreach.
Qed.

End Statements.


Lemma romStmt_at_brace_witness :
  romStmt sampleRank sampleRomItems
  = (Returns (Some (mkRom "b.bin" 4 None None None), None),
     [mkItem itemCloseBrace ")"])
  /\ exists (open : item) (body : list item) (close : item),
       sampleRomItems = open :: body ++ close :: [mkItem itemCloseBrace ")"]
       /\ typ open = itemOpenBrace /\ typ close = itemCloseBrace.
Proof.
  split; [reflexivity|].
  apply (romStmt_at_brace sampleRank sampleRomItems
           [mkItem itemCloseBrace ")"] (mkRom "b.bin" 4 None None None)).
  reflexivity.
Defined.

Lemma romStmt_romItems_witness :
  printableRom sampleCrcRom
  /\ romItems sampleCrcRom
     = [mkItem itemOpenBrace "("; mkItem itemName "name";
        mkItem itemValue "b.bin"; mkItem itemSize "size"; mkItem itemValue "4";
        mkItem itemCrc "crc"; mkItem itemValue "1a2b3c4d";
        mkItem itemCloseBrace ")"]
  /\ romStmt sampleRank (romItems sampleCrcRom ++ [mkItem itemCloseBrace ")"])
     = (Returns (Some sampleCrcRom, None), [mkItem itemCloseBrace ")"]).
Proof.
  assert (Hp : printableRom sampleCrcRom).
  { unfold printableRom, sampleCrcRom, fullHash. cbn [rSize rCrc rMd5 rSha1].
    repeat split; try lia; try discriminate. }
  split; [exact Hp|]. split; [reflexivity|].
  apply (romStmt_romItems sampleRank sampleCrcRom [mkItem itemCloseBrace ")"] Hp).
Defined.

End RomStatementFacts.

(* ===================================================================== *)
(** ** The XML path: what the normalization keeps and decodes             *)
(* ===================================================================== *)

Module XmlFacts.
Import Hex Strings Parser Printing Samples MoreSamples.
Local Open Scope list_scope.

Lemma fixHash_hexText (raw : list byte) :
  fixHash (Some (hexText raw)) = Some raw.
Proof.
  unfold fixHash, hexText, DecodeString.
  rewrite string_of_list_byte_of_string, HexFacts.Decode_EncodeToString.
  reflexivity.
Qed.

(** X10.  [fixHashes] turns every hash that the XML decoder left as hex
    text into the raw bytes the text spells, leaves an absent hash absent,
    and keeps the name and the size: the rom with the hex texts of [crc],
    [md5] and [sha1] becomes the rom with [crc], [md5] and [sha1]. *)
Theorem fixHashes_hexText (name : string) (size : Z) (crc md5 sha1 : slice) :
  fixHashes (mkRom name size (option_map hexText crc) (option_map hexText md5)
               (option_map hexText sha1))
  = mkRom name size crc md5 sha1.
Proof.
  unfold fixHashes, setRCrc, setRMd5, setRSha1.
  cbn [rName rSize rCrc rMd5 rSha1].
  destruct crc, md5, sha1; cbn [option_map]; rewrite ?fixHash_hexText;
    reflexivity.
Qed.

Lemma fixHash_is_Some (h : slice) :
  bool_decide (is_Some (fixHash h)) = bool_decide (is_Some h).
Proof.
  destruct h as [t|]; [|reflexivity].
  unfold fixHash, DecodeString.
  destruct (Decode (string_of_list_byte t)) as [out err]. reflexivity.
Qed.

Lemma romShape_fixHashes (r : Rom) : romShape (fixHashes r) = romShape r.
Proof.
  unfold romShape, fixHashes, setRCrc, setRMd5, setRSha1.
  cbn [rName rSize rCrc rMd5 rSha1]. now rewrite !fixHash_is_Some.
Qed.

Lemma map_romShape_fixHashes (l : list Rom) :
  map romShape (map fixHashes l) = map romShape l.
Proof.
  induction l as [|r l IH]; [reflexivity|].
  cbn [map]. now rewrite romShape_fixHashes, IH.
Qed.

Lemma gameShape_fixGame (g : Game) : gameShape (fixGame g) = gameShape g.
Proof.
  unfold gameShape, fixGame. cbn [gName gDescription gRoms gDisks gParts gRegions].
  now rewrite !map_romShape_fixHashes.
Qed.

Lemma map_gameShape_fixGame (l : list Game) :
  map gameShape (map fixGame l) = map gameShape l.
Proof.
  induction l as [|g l IH]; [reflexivity|].
  cbn [map]. now rewrite gameShape_fixGame, IH.
Qed.

(** X11.  The normalization pass of [ParseXml] over the games and the
    software of a catalog changes the values of hashes only: the names and
    descriptions, the number and order of the games and of their roms,
    disks, parts and regions, every name and size, and which hashes are
    present are what the decoder left. *)
Theorem fixDat_shape (d : Dat) : datShape (fixDat d) = datShape d.
Proof.
  unfold datShape, fixDat. cbn [dName dDescription dGames dSoftware].
  now rewrite !map_gameShape_fixGame.
Qed.

(** The hash after [n] calls through the line-counting reader. *)
Lemma readCalls_hashed (n : nat) (lr : lineCountingReader) :
  hr_h (lc_ir (snd (readCalls n lr)))
  = hr_h (lc_ir lr) ++ hashedFirst n (hr_ir (lc_ir lr)).
Proof.
  revert lr. induction n as [|n IH]; intros [[r h] line];
    [cbn; now rewrite app_nil_r|].
  cbn [readCalls]. unfold lineCountingReader_Read, lineCountingReader_Read_body,
    hashingReader_Read. cbn [lc_ir lc_line hr_ir hr_h].
  destruct r as [|[buf [e|]] rest]; cbn [Read].
  - specialize (IH (mkLineCountingReader (mkHashingReader [] h) line)).
    destruct (readCalls n _) as [bytes lr']. cbn [snd lc_ir hr_h hr_ir] in *.
    rewrite IH. destruct n; reflexivity.
  - specialize (IH (mkLineCountingReader (mkHashingReader rest h) line)).
    destruct (readCalls n _) as [bytes lr']. cbn [snd lc_ir hr_h hr_ir] in *.
    exact IH.
  - specialize (IH (mkLineCountingReader (mkHashingReader rest (h ++ buf)) line)).
    destruct (readCalls n _) as [bytes lr']. cbn [snd lc_ir hr_h hr_ir] in *.
    rewrite IH. cbn [hashedFirst]. now rewrite app_assoc.
Qed.

Section Xml.

Context (Sum : list byte -> list byte) (Normalize : Dat -> Dat).
Context {xmlError : Type} (xmlDecode : Reader -> nat * (Dat * option xmlError)).

(** X12.  When [ParseXml] succeeds, the catalog it returns is the decoded
    one, normalized, and the digest is the one of the bytes that the calls
    of the decoder received without error: bytes of the stream that the
    decoder did not read are not part of it. *)
Theorem ParseXml_success (r : Reader) (path : string) (d' : option Dat)
    (digest : slice) :
  ParseXml Sum Normalize xmlError xmlDecode r path = (d', digest, None) ->
  exists (calls : nat) (d : Dat),
    xmlDecode r = (calls, (d, None))
    /\ d' = Some (Normalize (fixDat d))
    /\ digest = Some (Sum (hashedFirst calls r)).
Proof.
  unfold ParseXml. destruct (xmlDecode r) as [calls [d [e|]]].
  - destruct (readCalls calls _); discriminate.
  - pose proof (readCalls_hashed calls
                  (mkLineCountingReader (mkHashingReader r []) 0)) as Hh.
    destruct (readCalls calls _) as [bytes lr]. cbn [snd lc_ir hr_h hr_ir] in Hh.
    intros [= <- <-]. exists calls, d. rewrite Hh. auto.
Qed.

End Xml.

(** A decoder that stops after the first call: the digest is the one of the
    first chunk. *)
Lemma ParseXml_success_witness :
  exists digest : slice,
    ParseXml (fun b => b) (fun d => d) string
      (fun _ => (1%nat, (mkDat "" "" [mkGame "g" "" [xmlRom] [] [] []] [], None)))
      sampleCleanStream "a.xml"
    = (Some (mkDat "" "" [mkGame "g" "" [mkRom "a.bin" 3 (Some [x1a; x2b; x3c; x4d]) None None] [] [] []] []),
       digest, None)
    /\ digest = Some (firstn 6 sampleText).
Proof.
  eexists. split; [reflexivity|].
  destruct (ParseXml_success (xmlError := string) (fun b => b) (fun d => d)
              (fun _ => (1%nat, (mkDat "" "" [mkGame "g" "" [xmlRom] [] [] []] [], None)))
              sampleCleanStream "a.xml" _ _ eq_refl)
    as (calls & d & Hdec & _ & Hdig).
  injection Hdec as <- <-. rewrite Hdig. reflexivity.
Defined.

End XmlFacts.

(* ===================================================================== *)
(** ** Loading and writing the filters and the sizes                      *)
(* ===================================================================== *)

Module PersistFacts.
Import Parser Archive Generation Persist Samples MoreSamples.
Local Open Scope list_scope.

Lemma lastState_cons (fs a : FS) (l : list FS) :
  lastState fs (a :: l) = lastState a l.
Proof. apply ArchiveFacts.last_cons_default. Qed.

Section Filters.

Context {BloomFilter : Type} (serialize : BloomFilter -> list byte).
Context {readError : Type}.
Context (ReadFrom : list byte -> BloomFilter -> BloomFilter * option readError).
Context (Join : string -> string -> string).
Context (bloomFilterFilename backupBloomFilterFilename : string).

Local Abbreviation primaryOf root := (Join root bloomFilterFilename).
Local Abbreviation backupOf root := (Join root backupBloomFilterFilename).
Local Abbreviation withBackup :=
  (writeBloomFilterWithBackup serialize Join bloomFilterFilename
     backupBloomFilterFilename).
Local Abbreviation load := (loadBloomFilter ReadFrom Join bloomFilterFilename).

(** A run without faults writes the whole filter under the primary name. *)
Lemma withBackup_noFaults (root : string) (bf : BloomFilter) (fs : FS) :
  exists states : list FS,
    withBackup root bf noFaults fs = (None, states)
    /\ lastState fs states !! primaryOf root = Some (serialize bf).
Proof.
  unfold writeBloomFilterWithBackup, PathExists, Rename, Create, WriteTo.
  cbn [noFaults failExists failRename failCreate failWrite].
  destruct (fs !! primaryOf root) as [old|] eqn:Hold.
  - rewrite bool_decide_eq_true_2 by eauto.
    eexists. split; [reflexivity|].
    cbn [app]. rewrite !lastState_cons. apply ArchiveFacts.writeStates_last.
  - rewrite bool_decide_eq_false_2 by (intros [x Hx]; discriminate).
    eexists. split; [reflexivity|].
    cbn [app]. rewrite !lastState_cons. apply ArchiveFacts.writeStates_last.
Qed.

Lemma load_present (root : string) (bf0 : BloomFilter) (fs : FS)
    (data : list byte) :
  fs !! primaryOf root = Some data ->
  load root bf0 noFaults None fs
  = (let (b, e) := ReadFrom data bf0 in (b, option_map LoadRead e)).
Proof.
  intros Hd. unfold loadBloomFilter, PathExists, Open.
  cbn [noFaults failExists]. rewrite Hd.
  rewrite bool_decide_eq_true_2 by eauto. reflexivity.
Qed.

(** X13.  What either way of writing the filter has put on disk,
    [loadBloomFilter] hands to [bf.ReadFrom]: after a [writeBloomFilter] to
    the filter file of a root, or a [writeBloomFilterWithBackup] on the
    root, in which no system call fails, loading on the same root reads
    exactly the serialized bytes of the written filter, whatever was in the
    directory before. *)
Theorem load_after_write (root : string) (bf bf0 : BloomFilter) (fs : FS) :
  (exists states : list FS,
     writeBloomFilter serialize (primaryOf root) bf noFaults fs = (None, states)
     /\ load root bf0 noFaults None (lastState fs states)
        = (let (b, e) := ReadFrom (serialize bf) bf0 in
           (b, option_map LoadRead e)))
  /\ (exists states : list FS,
        withBackup root bf noFaults fs = (None, states)
        /\ load root bf0 noFaults None (lastState fs states)
           = (let (b, e) := ReadFrom (serialize bf) bf0 in
              (b, option_map LoadRead e))).
Proof.
  split.
  - unfold writeBloomFilter, Create, WriteTo.
    cbn [noFaults failCreate failWrite].
    eexists. split; [reflexivity|]. apply load_present.
    cbn [app]. rewrite lastState_cons. apply ArchiveFacts.writeStates_last.
  - destruct (withBackup_noFaults root bf fs) as (states & Hrun & Hlast).
    exists states. split; [exact Hrun|]. now apply load_present.
Qed.

(** X14.  A run of [writeBloomFilterWithBackup] that has moved the old
    filter to the backup name and then fails to create the new file reports
    the error and leaves the root without a filter file; the old filter lies
    under the backup name, and a following [loadBloomFilter] does not look
    there: it returns no error and leaves the filter as it was passed in. *)
Theorem load_after_failed_create (root : string) (bf bf0 : BloomFilter)
    (flt : faults) (fs : FS) (old : list byte) (e : osError) :
  primaryOf root <> backupOf root ->
  fs !! primaryOf root = Some old ->
  failExists flt = None -> failRename flt = None -> failCreate flt = Some e ->
  exists fs' : FS,
    withBackup root bf flt fs = (Some e, [fs'])
    /\ fs' !! primaryOf root = None
    /\ fs' !! backupOf root = Some old
    /\ load root bf0 noFaults None fs' = (bf0, None).
Proof.
  intros Hne Hold Hex Hren Hcr.
  exists (<[backupOf root := old]> (delete (primaryOf root) fs)).
  assert (Hp : (<[backupOf root := old]> (delete (primaryOf root) fs) : FS)
               !! primaryOf root = None).
  { rewrite lookup_insert_ne by congruence. apply lookup_delete_eq. }
  split.
  { unfold writeBloomFilterWithBackup, PathExists, Rename, Create.
    rewrite Hex, Hren, Hold, bool_decide_eq_true_2 by eauto.
    cbn [lastState List.last]. rewrite Hcr. reflexivity. }
  split; [exact Hp|]. split; [apply lookup_insert_eq|].
  unfold loadBloomFilter, PathExists. cbn [noFaults failExists].
  rewrite Hp, bool_decide_eq_false_2 by (intros [x Hx]; discriminate).
  reflexivity.
Qed.

(** X15.  On a root that has no filter file, [writeBloomFilterWithBackup]
    does what [writeBloomFilter] does on the filter file, error and states
    alike, whatever fails: nothing is renamed, and no file but the filter
    file changes, so no backup appears. *)
Theorem withBackup_fresh (root : string) (bf : BloomFilter) (flt : faults)
    (fs : FS) :
  fs !! primaryOf root = None -> failExists flt = None ->
  withBackup root bf flt fs
  = writeBloomFilter serialize (primaryOf root) bf flt fs
  /\ Forall (fun fs' : FS =>
               forall p : string, p <> primaryOf root -> fs' !! p = fs !! p)
       (snd (withBackup root bf flt fs)).
Proof.
  intros Hnone Hex.
  unfold writeBloomFilterWithBackup, writeBloomFilter, PathExists, Create, WriteTo.
  rewrite Hex, Hnone, bool_decide_eq_false_2 by (intros [x Hx]; discriminate).
  cbn [lastState List.last].
  assert (Hw : forall upto,
            Forall (fun fs' : FS =>
                      forall p, p <> primaryOf root -> fs' !! p = fs !! p)
              (<[primaryOf root := []]> fs
                 :: writeStates (primaryOf root) (serialize bf) upto
                      (<[primaryOf root := []]> fs))).
  { intros upto. constructor.
    - intros p Hp. now apply lookup_insert_ne.
    - apply Forall_forall. intros fs' Hin p Hp.
      pose proof (ArchiveFacts.writeStates_other (primaryOf root) p (serialize bf)
                    upto (<[primaryOf root := []]> fs) Hp) as Hall.
      rewrite Forall_forall in Hall. rewrite (Hall _ Hin).
      now apply lookup_insert_ne. }
  destruct (failCreate flt) as [e|]; [split; [reflexivity|constructor]|].
  destruct (failWrite flt) as [[n e]|]; (split; [reflexivity|apply Hw]).
Qed.

(** *** [writeSizes] *)

Context (writeSizeFile : string -> Z -> FS -> option osError * FS).

Local Abbreviation writeRoot' :=
  (writeRoot serialize Join bloomFilterFilename backupBloomFilterFilename
     writeSizeFile).
Local Abbreviation writeRoots' :=
  (writeRoots serialize Join bloomFilterFilename backupBloomFilterFilename
     writeSizeFile).
Local Abbreviation writeSizes' :=
  (writeSizes serialize Join bloomFilterFilename backupBloomFilterFilename
     writeSizeFile).

Lemma setTouched_same (dr : depotRoot BloomFilter) :
  setTouched BloomFilter dr (touched dr) = dr.
Proof. now destruct dr. Qed.

Lemma setTouched_twice (dr : depotRoot BloomFilter) (a b : bool) :
  setTouched BloomFilter (setTouched BloomFilter dr a) b
  = setTouched BloomFilter dr b.
Proof. reflexivity. Qed.

(** One root: only [touched] can change, and only from dirty to clean. *)
Lemma writeRoot_frame (flt : faults) (dr : depotRoot BloomFilter) (fs : FS) :
  setTouched BloomFilter (fst (writeRoot' flt dr fs)) false
  = setTouched BloomFilter dr false
  /\ (touched (fst (writeRoot' flt dr fs)) = true -> touched dr = true)
  /\ (touched dr = false -> writeRoot' flt dr fs = (dr, fs)).
Proof.
  unfold writeRoot. destruct (touched dr) eqn:Ht.
  - split; [|split; [reflexivity|discriminate]].
    destruct (writeSizeFile (dr_path dr) (size dr) fs) as [[e|] fs1].
    + destruct (bloomReady dr); [|reflexivity].
      destruct (writeBloomFilterWithBackup _ _ _ _ _ _ _ _) as [[e'|] states];
        reflexivity.
    + cbn [setTouched bloomReady].
      destruct (bloomReady dr); [|reflexivity].
      cbn [dr_path bf].
      destruct (writeBloomFilterWithBackup _ _ _ _ _ _ _ _) as [[e'|] states];
        reflexivity.
  - split; [reflexivity|]. split; [cbn [fst]; congruence|reflexivity].
Qed.

(** The root at [k] afterwards is what the loop body makes of the root at
    [k], run on the file system the earlier roots have left. *)
Lemma writeRoots_lookup (plan : nat -> faults) (rs : list (depotRoot BloomFilter)) :
  forall (i k : nat) (fs : FS) (dr : depotRoot BloomFilter),
    rs !! k = Some dr ->
    exists fsk : FS,
      fst (writeRoots' plan i rs fs) !! k
      = Some (fst (writeRoot' (plan (i + k)%nat) dr fsk)).
Proof.
  induction rs as [|r rs IH]; intros i k fs dr Hk; [discriminate|].
  cbn [writeRoots].
  destruct (writeRoot' (plan i) r fs) as [r' fs1] eqn:Hr.
  destruct k as [|k].
  - injection Hk as <-. exists fs.
    destruct (writeRoots' plan (S i) rs fs1) as [rest fs2].
    cbn [fst]. rewrite Nat.add_0_r, Hr. reflexivity.
  - destruct (IH (S i) k fs1 dr Hk) as [fsk Hfsk]. exists fsk.
    destruct (writeRoots' plan (S i) rs fs1) as [rest fs2].
    cbn [fst] in *. replace (i + S k)%nat with (S i + k)%nat by lia.
    exact Hfsk.
Qed.

Lemma writeRoots_length (plan : nat -> faults) (rs : list (depotRoot BloomFilter)) :
  forall (i : nat) (fs : FS),
    length (fst (writeRoots' plan i rs fs)) = length rs.
Proof.
  induction rs as [|r rs IH]; intros i fs; [reflexivity|].
  cbn [writeRoots]. destruct (writeRoot' (plan i) r fs) as [r' fs1].
  specialize (IH (S i) fs1).
  destruct (writeRoots' plan (S i) rs fs1) as [rest fs2].
  cbn [fst length] in *. now rewrite IH.
Qed.

Lemma writeRoots_clean (plan : nat -> faults) (rs : list (depotRoot BloomFilter)) :
  forall (i : nat) (fs : FS),
    Forall (fun dr => touched dr = false) rs ->
    writeRoots' plan i rs fs = (rs, fs).
Proof.
  induction rs as [|r rs IH]; intros i fs Hall; [reflexivity|].
  inversion Hall as [|? ? Hr Hrs]; subst. cbn [writeRoots].
  destruct (writeRoot_frame (plan i) r fs) as (_ & _ & Hc).
  rewrite (Hc Hr), (IH _ _ Hrs). reflexivity.
Qed.

(** X16.  [writeSizes] changes nothing of a root but its dirty flag, and
    never sets it: the depot has the same roots in the same order with the
    same path, size, limit and filter, and a root that is dirty afterwards
    was dirty before.  When no root is dirty it does nothing at all: no
    file is written. *)
Theorem writeSizes_frame (plan : nat -> faults) (depot : Depot BloomFilter)
    (fs : FS) :
  length (roots (fst (writeSizes' plan depot fs))) = length (roots depot)
  /\ (forall (k : nat) (dr : depotRoot BloomFilter),
        roots depot !! k = Some dr ->
        exists dr' : depotRoot BloomFilter,
          roots (fst (writeSizes' plan depot fs)) !! k = Some dr'
          /\ setTouched BloomFilter dr' false = setTouched BloomFilter dr false
          /\ (touched dr' = true -> touched dr = true))
  /\ (Forall (fun dr => touched dr = false) (roots depot) ->
      writeSizes' plan depot fs = (depot, fs)).
Proof.
  unfold writeSizes. split; [|split].
  - pose proof (writeRoots_length plan (roots depot) 0 fs) as Hl.
    destruct (writeRoots' plan 0 (roots depot) fs). exact Hl.
  - intros k dr Hk.
    destruct (writeRoots_lookup plan (roots depot) 0 k fs dr Hk) as [fsk Hfsk].
    destruct (writeRoots' plan 0 (roots depot) fs) as [rs fs'].
    cbn [fst roots] in *. eexists. split; [exact Hfsk|].
    destruct (writeRoot_frame (plan (0 + k)%nat) dr fsk) as (Hf & Ht & _).
    split; assumption.
  - intros Hall. rewrite (writeRoots_clean plan _ 0 fs Hall).
    now destruct depot.
Qed.

(** X17.  When no call fails ([writeSizeFile] returns no error and the
    filter writes meet no fault), every root is clean after
    [writeSizes]. *)
Theorem writeSizes_all_clean (plan : nat -> faults) (depot : Depot BloomFilter)
    (fs : FS) :
  (forall (p : string) (s : Z) (fs0 : FS), fst (writeSizeFile p s fs0) = None) ->
  (forall i : nat, plan i = noFaults) ->
  Forall (fun dr => touched dr = false)
    (roots (fst (writeSizes' plan depot fs))).
Proof.
  intros Hsize Hplan. apply Forall_lookup. intros k dr' Hk.
  destruct (roots depot !! k) as [dr|] eqn:Hdr.
  - unfold writeSizes in Hk.
    destruct (writeRoots_lookup plan (roots depot) 0 k fs dr Hdr) as [fsk Hfsk].
    destruct (writeRoots' plan 0 (roots depot) fs) as [rs fs'].
    cbn [fst roots] in *. rewrite Hfsk in Hk. injection Hk as <-.
    rewrite Hplan. unfold writeRoot. destruct (touched dr) eqn:Ht; [|exact Ht].
    specialize (Hsize (dr_path dr) (size dr) fsk).
    destruct (writeSizeFile (dr_path dr) (size dr) fsk) as [err fs1].
    cbn [fst] in Hsize. subst err. cbn [setTouched bloomReady dr_path bf].
    destruct (bloomReady dr); [|reflexivity].
    destruct (withBackup_noFaults (dr_path dr) (bf dr) fs1) as (st & -> & _).
    reflexivity.
  - apply lookup_ge_None in Hdr. apply lookup_lt_Some in Hk.
    destruct (writeSizes_frame plan depot fs) as (Hlen & _). lia.
Qed.

(** A filter write whose existence test or whose create fails returns an
    error, whatever is on disk. *)
Lemma withBackup_fails (root : string) (bf : BloomFilter) (flt : faults) (fs : FS) :
  failExists flt <> None \/ failCreate flt <> None ->
  fst (withBackup root bf flt fs) <> None.
Proof.
  intros Hf.
  unfold writeBloomFilterWithBackup, PathExists, Rename, Create.
  destruct (failExists flt) as [e|]; [discriminate|].
  destruct Hf as [Hf|Hf]; [congruence|].
  destruct (failCreate flt) as [e|]; [|congruence].
  destruct (bool_decide (is_Some (fs !! primaryOf root))); [|discriminate].
  destruct (failRename flt); [discriminate|].
  destruct (fs !! primaryOf root); discriminate.
Qed.

(** X18.  A dirty root stays dirty when one of its two writes fails, even
    if the other one succeeds: when [writeSizeFile] fails for it, or when
    its filter is ready and the existence test or the create of the filter
    write fails.  A later [writeSizes] will then write it again. *)
Theorem writeSizes_failure_stays_dirty (plan : nat -> faults)
    (depot : Depot BloomFilter) (fs : FS) (k : nat) (dr : depotRoot BloomFilter) :
  roots depot !! k = Some dr ->
  touched dr = true ->
  (forall fs0 : FS, fst (writeSizeFile (dr_path dr) (size dr) fs0) <> None)
  \/ (bloomReady dr = true
      /\ (failExists (plan k) <> None \/ failCreate (plan k) <> None)) ->
  exists dr' : depotRoot BloomFilter,
    roots (fst (writeSizes' plan depot fs)) !! k = Some dr'
    /\ touched dr' = true.
Proof.
  intros Hk Ht Hfail. unfold writeSizes.
  destruct (writeRoots_lookup plan (roots depot) 0 k fs dr Hk) as [fsk Hfsk].
  destruct (writeRoots' plan 0 (roots depot) fs) as [rs fs'].
  cbn [fst roots] in *. eexists. split; [exact Hfsk|].
  unfold writeRoot. rewrite Ht.
  destruct (writeSizeFile (dr_path dr) (size dr) fsk) as [err fs1] eqn:Hw.
  destruct Hfail as [Hs|[Hready Hflt]].
  - specialize (Hs fsk). rewrite Hw in Hs. cbn [fst] in Hs.
    destruct err as [e|]; [|congruence].
    destruct (bloomReady dr); [|exact Ht].
    destruct (writeBloomFilterWithBackup _ _ _ _ _ _ _ _) as [[e'|] states];
      [reflexivity|exact Ht].
  - change (0 + k)%nat with k.
    pose proof (withBackup_fails (dr_path dr) (bf dr) (plan k) fs1 Hflt) as He.
    destruct err as [e0|]; cbn [setTouched bloomReady dr_path bf];
      rewrite Hready;
      destruct (withBackup (dr_path dr) (bf dr) (plan k) fs1) as [[e'|] states];
      solve [reflexivity | cbn [fst] in He; congruence].
Qed.

End Filters.


Lemma load_after_failed_create_witness :
  exists fs' : FS,
    writeBloomFilterWithBackup (fun bf : list byte => bf) sampleJoin
      "bloomfilter" "backupbloomfilter" "d" [x02; x03] createDenied sampleFS
    = (Some (ErrOS "permission denied"), [fs'])
    /\ loadBloomFilter sampleReadFrom sampleJoin "bloomfilter" "d" [x09]
         noFaults None fs'
       = ([x09], None).
Proof.
  destruct (load_after_failed_create (fun bf : list byte => bf) sampleReadFrom
              sampleJoin "bloomfilter" "backupbloomfilter" "d" [x02; x03] [x09]
              createDenied sampleFS [x01] (ErrOS "permission denied"))
    as (fs' & Hrun & _ & _ & Hload).
  - discriminate.
  - apply lookup_singleton_eq.
  - reflexivity.
  - reflexivity.
  - reflexivity.
  - exists fs'. split; assumption.
Defined.

Lemma withBackup_fresh_witness :
  writeBloomFilterWithBackup (fun bf : list byte => bf) sampleJoin
    "bloomfilter" "backupbloomfilter" "e" [x02; x03] sampleFaults sampleFS
  = writeBloomFilter (fun bf : list byte => bf) "e/bloomfilter" [x02; x03]
      sampleFaults sampleFS.
Proof.
  destruct (withBackup_fresh (fun bf : list byte => bf) sampleJoin
              "bloomfilter" "backupbloomfilter" "e" [x02; x03] sampleFaults
              sampleFS) as [Heq _].
  - apply lookup_singleton_ne. discriminate.
  - reflexivity.
  - exact Heq.
Defined.

Lemma writeSizes_all_clean_witness :
  Forall (fun dr : depotRoot (list byte) => touched dr = false)
    (roots (fst (writeSizes (fun bf : list byte => bf) sampleJoin "bloomfilter"
                   "backupbloomfilter" sampleWriteSizeFile (fun _ => noFaults)
                   sampleDirtyDepot sampleFS))).
Proof.
  apply (writeSizes_all_clean (fun bf : list byte => bf) sampleJoin
           "bloomfilter" "backupbloomfilter" sampleWriteSizeFile
           (fun _ => noFaults) sampleDirtyDepot sampleFS).
  - reflexivity.
  - reflexivity.
Defined.

Lemma writeSizes_failure_stays_dirty_witness :
  exists dr' : depotRoot (list byte),
    roots (fst (writeSizes (fun bf : list byte => bf) sampleJoin "bloomfilter"
                  "backupbloomfilter" sampleWriteSizeFile (fun _ => createDenied)
                  sampleDirtyDepot sampleFS)) !! 0%nat = Some dr'
    /\ touched dr' = true.
Proof.
  apply (writeSizes_failure_stays_dirty (fun bf : list byte => bf) sampleJoin
           "bloomfilter" "backupbloomfilter" sampleWriteSizeFile
           (fun _ => createDenied) sampleDirtyDepot sampleFS 0
           (mkDepotRoot "depot0" true [x02; x03] true 5 100 0)).
  - reflexivity.
  - reflexivity.
  - right. split; [reflexivity|]. right. discriminate.
Defined.

End PersistFacts.

(* ===================================================================== *)
(** ** [adjustSize]: range, frame, and sequences of calls                 *)
(* ===================================================================== *)

Module AdjustSizeFacts.
Import Parser Archive Samples.
Local Open Scope list_scope.

Section AdjustSize.

Context {BloomFilter : Type} (bf_Add : BloomFilter -> list byte -> BloomFilter).

(** X19.  [adjustSize] panics exactly when the index is out of range.
    Otherwise the depot keeps its number of roots, and the root at the
    index keeps its path, its readiness, its size limit (the new size is
    not compared with it) and its count of filter additions (which is not
    incremented); its filter gets the bytes of the id text added when the
    id is not empty and the filter is ready, and is left alone otherwise. *)
Theorem adjustSize_in_range (depot : Depot BloomFilter) (index delta : Z)
    (sha1Hex : string) :
  (adjustSize bf_Add depot index delta sha1Hex = None
   <-> index < 0 \/ Z.of_nat (length (roots depot)) <= index)
  /\ (forall depot' : Depot BloomFilter,
        adjustSize bf_Add depot index delta sha1Hex = Some depot' ->
        length (roots depot') = length (roots depot)
        /\ exists dr dr' : depotRoot BloomFilter,
             roots depot !! Z.to_nat index = Some dr
             /\ roots depot' !! Z.to_nat index = Some dr'
             /\ dr_path dr' = dr_path dr
             /\ bloomReady dr' = bloomReady dr
             /\ maxSize dr' = maxSize dr
             /\ numBfAdded dr' = numBfAdded dr
             /\ bf dr'
                = if negb (String.eqb sha1Hex "") && bloomReady dr
                  then bf_Add (bf dr) (list_byte_of_string sha1Hex)
                  else bf dr).
Proof.
  destruct (Z.ltb_spec index 0) as [Hneg|Hpos].
  { unfold adjustSize. rewrite (proj2 (Z.ltb_lt index 0) Hneg).
    split; [split; [intros _; now left|reflexivity]|discriminate]. }
  destruct (roots depot !! Z.to_nat index) as [dr|] eqn:Hdr.
  - rewrite (ArchiveFacts.adjustSize_eq bf_Add depot index delta sha1Hex dr Hpos Hdr).
    pose proof (lookup_lt_Some _ _ _ Hdr) as Hlt.
    split; [split; [discriminate|lia]|].
    intros depot' [= <-]. cbn [roots].
    split; [apply length_insert|].
    exists dr, (adjusted bf_Add dr delta sha1Hex).
    split; [reflexivity|]. split; [now apply list_lookup_insert_eq|].
    repeat split; reflexivity.
  - unfold adjustSize. rewrite (proj2 (Z.ltb_ge index 0) Hpos), Hdr.
    apply lookup_ge_None in Hdr.
    split; [split; [intros _; lia|reflexivity]|discriminate].
Qed.

(** The size after a call, for an index in range. *)
Lemma adjustSize_size (depot : Depot BloomFilter) (index delta : Z)
    (sha1Hex : string) (dr : depotRoot BloomFilter) :
  0 <= index -> roots depot !! Z.to_nat index = Some dr ->
  exists (depot' : Depot BloomFilter) (dr' : depotRoot BloomFilter),
    adjustSize bf_Add depot index delta sha1Hex = Some depot'
    /\ roots depot' !! Z.to_nat index = Some dr'
    /\ size dr' = Z.max 0 (wrap64 (size dr + delta)).
Proof.
  intros Hi Hdr.
  exists (mkDepot (<[Z.to_nat index := adjusted bf_Add dr delta sha1Hex]> (roots depot))),
         (adjusted bf_Add dr delta sha1Hex).
  split; [now apply ArchiveFacts.adjustSize_eq|].
  split; [|reflexivity]. cbn [roots]. apply list_lookup_insert_eq.
  eapply lookup_lt_Some; eauto.
Qed.

(** X20.  Adding [delta] bytes to a shard and then removing them gives the
    size back, as long as the sum fits in an [int64].  The other order does
    not: removing more than the shard holds clamps the size at 0, and adding
    the same amount then leaves [delta], not the old size. *)
Theorem adjustSize_add_remove (depot : Depot BloomFilter) (index delta : Z)
    (id1 id2 : string) (dr : depotRoot BloomFilter) :
  0 <= index -> roots depot !! Z.to_nat index = Some dr ->
  0 <= size dr -> 0 <= delta -> size dr + delta < 2 ^ 63 ->
  (exists (depot1 depot2 : Depot BloomFilter) (dr2 : depotRoot BloomFilter),
     adjustSize bf_Add depot index delta id1 = Some depot1
     /\ adjustSize bf_Add depot1 index (- delta) id2 = Some depot2
     /\ roots depot2 !! Z.to_nat index = Some dr2
     /\ size dr2 = size dr)
  /\ (size dr < delta ->
      exists (depot1 depot2 : Depot BloomFilter) (dr2 : depotRoot BloomFilter),
        adjustSize bf_Add depot index (- delta) id1 = Some depot1
        /\ adjustSize bf_Add depot1 index delta id2 = Some depot2
        /\ roots depot2 !! Z.to_nat index = Some dr2
        /\ size dr2 = delta).
Proof.
  intros Hi Hdr Hs Hd Hfit. split; [|intros Hless].
  - destruct (adjustSize_size depot index delta id1 dr Hi Hdr)
      as (depot1 & dr1 & Hrun1 & Hdr1 & Hs1).
    destruct (adjustSize_size depot1 index (- delta) id2 dr1 Hi Hdr1)
      as (depot2 & dr2 & Hrun2 & Hdr2 & Hs2).
    exists depot1, depot2, dr2. repeat split; try assumption.
    rewrite Hs2, Hs1. rewrite (ArchiveFacts.wrap64_small (size dr + delta)) by lia.
    rewrite ArchiveFacts.wrap64_small by lia. lia.
  - destruct (adjustSize_size depot index (- delta) id1 dr Hi Hdr)
      as (depot1 & dr1 & Hrun1 & Hdr1 & Hs1).
    destruct (adjustSize_size depot1 index delta id2 dr1 Hi Hdr1)
      as (depot2 & dr2 & Hrun2 & Hdr2 & Hs2).
    exists depot1, depot2, dr2. repeat split; try assumption.
    rewrite Hs2, Hs1. rewrite (ArchiveFacts.wrap64_small (size dr + - delta)) by lia.
    rewrite ArchiveFacts.wrap64_small by lia. lia.
Qed.

End AdjustSize.

Lemma adjustSize_add_remove_witness :
  exists (depot1 depot2 : Depot (list (list byte)))
         (dr2 : depotRoot (list (list byte))),
    adjustSize sampleAdd sampleDepot 0 9 "ab" = Some depot1
    /\ adjustSize sampleAdd depot1 0 (-9) "" = Some depot2
    /\ roots depot2 !! 0%nat = Some dr2
    /\ size dr2 = 5.
Proof.
  destruct (adjustSize_add_remove sampleAdd sampleDepot 0 9 "ab" "" sampleRoot)
    as [Hadd _].
  - lia.
  - reflexivity.
  - cbn. lia.
  - lia.
  - cbn. lia.
  - exact Hadd.
Defined.

End AdjustSizeFacts.

(* ===================================================================== *)
(** ** Printed games and catalogs: what [gameStmt] and [parse] read back  *)
(* ===================================================================== *)

Module CatalogFacts.
Import Hex Strings Parser Strconv Printing CatalogText Samples MoreSamples.
Local Open Scope list_scope.

Section Statements.

Context (rank : itemType -> Z).

Lemma gameReaches_trans (g1 g2 g3 : Game) (i1 i2 i3 : item) (l1 l2 l3 : lexer) :
  gameReaches rank g1 i1 l1 g2 i2 l2 -> gameReaches rank g2 i2 l2 g3 i3 l3 ->
  gameReaches rank g1 i1 l1 g3 i3 l3.
Proof.
  induction 1 as [|g g1' g' i i' ll ll1 ll' He Hr Hreach IH]; [auto|].
  intros H23. eapply game_round; eauto.
Qed.

(** When the rounds that go on lead to an item that ends the statement,
    the loop returns what that item decides. *)
Lemma gameLoop_reaches_end (g g' : Game) (i i' : item) (ll ll' : lexer) :
  gameReaches rank g i ll g' i' ll' ->
  endsStmt (typ i') = true ->
  forall fuel : nat, (length ll < fuel)%nat ->
  gameLoop rank fuel g i ll = (Returns (afterLoop i' (Some g') None), ll').
Proof.
  intros Hreach Hend.
  induction Hreach as [g i ll | g g1 g' i i' ll ll1 ll' He Hround Hreach IH];
    intros fuel Hf.
  - destruct fuel; cbn [gameLoop]; now rewrite Hend.
  - destruct fuel as [|fuel]; [lia|]. cbn [gameLoop]. rewrite He, Hround.
    pose proof (TextGrammarFacts.gameRound_sound rank g i ll) as [_ Hl].
    rewrite Hround in Hl. cbn [snd] in Hl.
    destruct ll1 as [|i1 ll2]; cbn [nextItem fst snd] in *.
    + inversion Hreach; subst; [|cbn in *; discriminate].
      destruct fuel; reflexivity.
    + apply (IH Hend). cbn in Hl. lia.
Qed.

Lemma gameStmt_of_reaches (open i0 close : item) (ll0 rest : lexer) (g : Game) :
  typ open = itemOpenBrace -> typ close = itemCloseBrace ->
  gameReaches rank emptyGame i0 ll0 g close rest ->
  gameStmt rank (open :: i0 :: ll0) = (Returns (Some g, None), rest).
Proof.
  intros Ho Hc Hreach. unfold gameStmt, matchItem. cbn [nextItem].
  rewrite bool_decide_eq_true_2 by exact Ho.
  rewrite (gameLoop_reaches_end emptyGame g i0 close ll0 rest Hreach);
    [|now rewrite Hc|lia].
  unfold afterLoop. now rewrite Hc.
Qed.

(** The rounds of a [name] field and of a [description] field. *)
Lemma gameReaches_name (g : Game) (w v : string) (i' : item) (ll' : lexer) :
  gameReaches rank g (mkItem itemName w) (mkItem itemValue v :: i' :: ll')
    (setGName g v) i' ll'.
Proof. eapply game_round; [reflexivity|reflexivity|apply game_here]. Qed.

Lemma gameReaches_description (g : Game) (w v : string) (i' : item) (ll' : lexer) :
  gameReaches rank g (mkItem itemDescription w)
    (mkItem itemValue v :: i' :: ll') (setGDescription g v) i' ll'.
Proof. eapply game_round; [reflexivity|reflexivity|apply game_here]. Qed.

(** The rounds over printed rom statements: every rom is appended. *)
Lemma gameReaches_roms (roms : list Rom) :
  Forall printableRom roms ->
  forall (g : Game) (k : item) (tail : lexer) (i : item) (ll : lexer),
    romsItems roms ++ k :: tail = i :: ll ->
    gameReaches rank g i ll (setGRoms g (gRoms g ++ roms)) k tail.
Proof.
  induction 1 as [|r roms Hr Hroms IH]; intros g k tail i ll Hitems.
  - cbn in Hitems. injection Hitems as <- <-.
    rewrite app_nil_r. destruct g; apply game_here.
  - unfold romsItems in Hitems. cbn [map concat app] in Hitems.
    fold (romsItems roms) in Hitems. rewrite <- app_assoc in Hitems.
    injection Hitems as <- <-.
    assert (Hnext : exists i1 l1, romsItems roms ++ k :: tail = i1 :: l1)
      by (destruct (romsItems roms ++ k :: tail) eqn:E;
          [destruct (romsItems roms); discriminate|eauto]).
    destruct Hnext as (i1 & l1 & E1).
    destruct (RomStatementFacts.romItems_reaches rank r
                (romsItems roms ++ k :: tail) Hr) as (ll0 & Hll0 & Hreach).
    eapply game_round with (g1 := setGRoms g (gRoms g ++ [r]))
                           (ll1 := romsItems roms ++ k :: tail).
    + reflexivity.
    + unfold gameRound. cbn [typ].
      change (romStmt rank _)
        with (romStmt rank (romItems r ++ romsItems roms ++ k :: tail)).
      rewrite Hll0.
      rewrite (RomStatementFacts.romStmt_of_reaches rank
                 (mkItem itemOpenBrace "(") (mkItem itemName "name")
                 (mkItem itemCloseBrace ")") ll0 _ r eq_refl eq_refl Hreach).
      reflexivity.
    + rewrite E1. cbn [nextItem fst snd].
      replace (setGRoms g (gRoms g ++ r :: roms))
        with (setGRoms (setGRoms g (gRoms g ++ [r]))
                (gRoms (setGRoms g (gRoms g ++ [r])) ++ roms))
        by (cbn [setGRoms gRoms gName gDescription gDisks gParts gRegions];
            now rewrite <- app_assoc).
      apply IH. exact E1.
Qed.

(** The rounds over items that the loop passes over. *)
Lemma gameReaches_inert (skipped : list item) :
  Forall (fun i => inert i = true) skipped ->
  forall (g : Game) (k : item) (tail : lexer) (i : item) (ll : lexer),
    skipped ++ k :: tail = i :: ll ->
    gameReaches rank g i ll g k tail.
Proof.
  induction 1 as [|x skipped Hx Hs IH]; intros g k tail i ll Hitems.
  - cbn in Hitems. injection Hitems as <- <-. apply game_here.
  - cbn [app] in Hitems. injection Hitems as <- <-.
    assert (Hnext : exists i1 l1, skipped ++ k :: tail = i1 :: l1)
      by (destruct skipped; cbn; eauto).
    destruct Hnext as (i1 & l1 & E1).
    eapply game_round with (g1 := g) (ll1 := skipped ++ k :: tail).
    + unfold inert in Hx. destruct (typ x); try discriminate; reflexivity.
    + unfold gameRound, inert in *. destruct (typ x); try discriminate; reflexivity.
    + rewrite E1. cbn [nextItem fst snd]. apply IH. exact E1.
Qed.

(** The head of a printed game. *)
Lemma gameReaches_head (n d : string) (i' : item) (ll' : lexer) :
  gameReaches rank emptyGame (mkItem itemName "name")
    (mkItem itemValue n :: mkItem itemDescription "description"
       :: mkItem itemValue d :: i' :: ll')
    (mkGame n d [] [] [] []) i' ll'.
Proof.
  eapply gameReaches_trans; [apply gameReaches_name|].
  apply (gameReaches_description (setGName emptyGame n)).
Qed.

(** A printed game is read back by [gameStmt]. *)
Lemma gameStmt_gameItems (g : Game) (rest : lexer) :
  printableGame g ->
  gameStmt rank (gameItems g ++ rest) = (Returns (Some g, None), rest).
Proof.
  intros (Hroms & Hd & Hp & Hr). destruct g as [n d roms disks parts regions].
  cbn [gRoms gDisks gParts gRegions] in *. subst disks parts regions.
  unfold gameItems. cbn [gName gDescription gRoms]. cbn [app].
  rewrite <- app_assoc. cbn [app].
  set (close := mkItem itemCloseBrace ")").
  assert (Hnext : exists i1 l1, romsItems roms ++ close :: rest = i1 :: l1)
    by (destruct (romsItems roms); cbn; eauto).
  destruct Hnext as (i1 & l1 & E1). rewrite E1.
  apply gameStmt_of_reaches with (close := close); [reflexivity|reflexivity|].
  eapply gameReaches_trans; [apply gameReaches_head|].
  apply (gameReaches_roms roms Hroms (mkGame n d [] [] [] []) close rest i1 l1 E1).
Qed.

(** [parse]'s loop over printed games: every game is appended, and the
    loop ends at the end of the input. *)
Lemma parseLoop_games (games : list Game) :
  Forall printableGame games ->
  forall (d0 : Dat) (fuel : nat),
    (length (gamesItems games) < fuel)%nat ->
    parseLoop rank fuel (fst (nextItem (gamesItems games)))
      (mkParser (snd (nextItem (gamesItems games))) d0)
    = (Returns None, mkParser [] (setDGames d0 (dGames d0 ++ games))).
Proof.
  induction 1 as [|g games Hg Hgames IH]; intros d0 fuel Hf.
  - cbn [gamesItems map concat nextItem fst snd].
    rewrite app_nil_r. destruct fuel; destruct d0; reflexivity.
  - change (gamesItems (g :: games))
      with ((mkItem itemGame "game" :: gameItems g) ++ gamesItems games) in *.
    cbn [app nextItem fst snd length] in Hf |- *.
    destruct fuel as [|fuel]; [lia|].
    cbn [parseLoop typ endsParse]. unfold parseRound. cbn [typ p_ll p_d].
    rewrite (gameStmt_gameItems g (gamesItems games) Hg).
    cbn [p_ll p_d].
    destruct (nextItem (gamesItems games)) as [i1 l1] eqn:E1.
    specialize (IH (setDGames d0 (dGames d0 ++ [g])) fuel).
    cbn [fst snd] in IH. rewrite IH.
    + cbn [setDGames dGames dName dDescription dSoftware].
      now rewrite <- app_assoc.
    + rewrite length_app in Hf. lia.
Qed.

(** X21.  Print/parse round trip of a catalog: the items of the header
    statement [clrmamepro ( name N description D )] followed by the
    statements [game ( name .. description .. rom ( .. ) .. )] of its games
    are parsed by [parse], from the empty catalog, to exactly that catalog,
    with no error and with the input used up, whenever the catalog has
    only what the text format can say (no software lists, no disks, parts
    or regions, printable roms). *)
Theorem parse_datItems (d : Dat) :
  printableDat d ->
  parse rank (mkParser (datItems d) emptyDat) = (Returns None, mkParser [] d).
Proof.
  intros (Hgames & Hsw). destruct d as [n ds games sw].
  cbn [dGames dSoftware] in *. subst sw.
  unfold parse, datItems. cbn [dName dDescription dGames p_ll p_d app nextItem].
  set (fuel := length _).
  assert (Hfuel : (length (gamesItems games) < fuel)%nat)
    by (subst fuel; cbn [length]; lia).
  clearbody fuel.
  cbn [parseLoop typ endsParse]. unfold parseRound.
  cbn [typ]. unfold datStmt, matchItem. cbn [p_ll p_d nextItem typ].
  rewrite bool_decide_eq_true_2 by reflexivity. cbn [length].
  cbn [datLoop typ endsStmt datRound consumeStringValue nextItem p_ll p_d val
       afterLoop snd setDName setDDescription dName dDescription dGames
       dSoftware emptyDat].
  change (setDDescription (setDName emptyDat n) ds) with (mkDat n ds [] []).
  pose proof (parseLoop_games games Hgames (mkDat n ds [] []) fuel Hfuel)
    as Hloop.
  destruct (nextItem (gamesItems games)) as [i1 l1].
  cbn [fst snd] in Hloop. rewrite Hloop. reflexivity.
Qed.

(** X22.  One rom with a malformed hash ends its game early.  In a game
    statement whose head and first roms are well formed, a rom statement
    [rom ( name N size S KW bad .. )] whose hash value [bad] fails the
    coercion is given up at that value: the loop of [gameStmt] then passes
    over what is left of the rom statement and takes the closing brace of
    the rom for the one of the game.  The game comes back without error
    with the roms before the malformed one only, and everything after the
    rom's closing brace (the later roms and the closing brace of the game)
    is left in the lexer. *)
Theorem gameStmt_bad_hash (n d : string) (roms : list Rom)
    (rn : string) (rs : Z) (kw bad : item) (hlen : Z)
    (skipped : list item) (rest : lexer) :
  Forall printableRom roms ->
  - 2 ^ 63 <= rs < 2 ^ 63 ->
  hashLength (typ kw) = Some hlen ->
  typ bad = itemValue ->
  snd (stringValue2Bytes (val bad) hlen) <> None ->
  Forall (fun i => inert i = true) skipped ->
  gameStmt rank
    ([mkItem itemOpenBrace "("; mkItem itemName "name"; mkItem itemValue n;
      mkItem itemDescription "description"; mkItem itemValue d]
     ++ romsItems roms
     ++ [mkItem itemRom "rom"; mkItem itemOpenBrace "(";
         mkItem itemName "name"; mkItem itemValue rn;
         mkItem itemSize "size"; mkItem itemValue (FormatInt rs); kw; bad]
     ++ skipped ++ mkItem itemCloseBrace ")" :: rest)
  = (Returns (Some (mkGame n d roms [] [] []), None), rest).
Proof.
  intros Hroms Hrs Hkw Hbad Herr Hskip. cbn [app].
  set (close := mkItem itemCloseBrace ")").
  set (badRom := mkItem itemRom "rom" :: mkItem itemOpenBrace "("
                   :: mkItem itemName "name" :: mkItem itemValue rn
                   :: mkItem itemSize "size" :: mkItem itemValue (FormatInt rs)
                   :: kw :: bad :: skipped ++ close :: rest).
  assert (Hnext : exists i1 l1,
             romsItems roms ++ badRom = i1 :: l1)
    by (destruct (romsItems roms); cbn; eauto).
  destruct Hnext as (i1 & l1 & E1).
  change (romsItems roms
          ++ mkItem itemRom "rom" :: mkItem itemOpenBrace "("
             :: mkItem itemName "name" :: mkItem itemValue rn
             :: mkItem itemSize "size" :: mkItem itemValue (FormatInt rs)
             :: kw :: bad :: skipped ++ close :: rest)
    with (romsItems roms ++ badRom).
  rewrite E1.
  apply gameStmt_of_reaches with (close := close); [reflexivity|reflexivity|].
  eapply gameReaches_trans; [apply gameReaches_head|].
  eapply gameReaches_trans.
  { apply (gameReaches_roms roms Hroms (mkGame n d [] [] [] [])
             (mkItem itemRom "rom") (List.tl badRom) i1 l1 E1). }
  cbn [setGRoms gRoms gName gDescription gDisks gParts gRegions app List.tl badRom].
  assert (Hnext : exists i2 l2, skipped ++ close :: rest = i2 :: l2)
    by (destruct skipped; cbn; eauto).
  destruct Hnext as (i2 & l2 & E2).
  destruct (stringValue2Bytes (val bad) hlen) as [v [e|]] eqn:Hv;
    [|cbn in Herr; congruence].
  eapply game_round with (g1 := mkGame n d roms [] [] [])
                         (ll1 := skipped ++ close :: rest).
  - reflexivity.
  - apply TextGrammarFacts.gameRound_nil_rom; [reflexivity|].
    eapply (TextGrammarFacts.romStmt_bad_hash rank (mkItem itemOpenBrace "(")
              (mkItem itemName "name") kw _ (bad :: skipped ++ close :: rest)
              (skipped ++ close :: rest)
              (setRSize (setRName emptyRom rn) rs) hlen v (ErrHex e)).
    + reflexivity.
    + eapply RomStatementFacts.romReaches_trans;
        [apply RomStatementFacts.romReaches_name|].
      apply RomStatementFacts.romReaches_size. exact Hrs.
    + exact Hkw.
    + unfold consumeHexBytes. cbn [nextItem]. rewrite Hbad, Hv. reflexivity.
  - rewrite E2. cbn [nextItem fst snd].
    apply (gameReaches_inert skipped Hskip _ close rest i2 l2 E2).
Qed.

End Statements.


Lemma parse_datItems_witness :
  printableDat sampleDat
  /\ parse sampleRank (mkParser (datItems sampleDat) emptyDat)
     = (Returns None, mkParser [] sampleDat).
Proof.
  assert (Hd : printableDat sampleDat).
  { unfold printableDat, printableGame, printableRom, sampleDat, sampleCrcRom.
    cbn [dGames dSoftware gRoms gDisks gParts gRegions rSize rCrc rMd5 rSha1
         fullHash].
    repeat constructor; try lia; try discriminate. }
  split; [exact Hd|]. apply (parse_datItems sampleRank sampleDat Hd).
Defined.

Lemma gameStmt_bad_hash_witness :
  gameStmt sampleRank
    ([mkItem itemOpenBrace "("; mkItem itemName "name"; mkItem itemValue "g";
      mkItem itemDescription "description"; mkItem itemValue "a game"]
     ++ romsItems [sampleCrcRom]
     ++ [mkItem itemRom "rom"; mkItem itemOpenBrace "(";
         mkItem itemName "name"; mkItem itemValue "a.bin";
         mkItem itemSize "size"; mkItem itemValue (FormatInt 3);
         mkItem itemSha1 "sha1"; mkItem itemValue "zz"]
     ++ [mkItem itemMd5 "md5"; mkItem itemValue "00"]
     ++ mkItem itemCloseBrace ")"
        :: romsItems [sampleCrcRom] ++ [mkItem itemCloseBrace ")"])
  = (Returns (Some (mkGame "g" "a game" [sampleCrcRom] [] [] []), None),
     romsItems [sampleCrcRom] ++ [mkItem itemCloseBrace ")"]).
Proof.
  apply (gameStmt_bad_hash sampleRank "g" "a game" [sampleCrcRom] "a.bin" 3
           (mkItem itemSha1 "sha1") (mkItem itemValue "zz") 40
           [mkItem itemMd5 "md5"; mkItem itemValue "00"]).
  - unfold printableRom, sampleCrcRom.
    cbn [rSize rCrc rMd5 rSha1 fullHash].
    repeat constructor; try lia; try discriminate.
  - lia.
  - reflexivity.
  - reflexivity.
  - vm_compute. discriminate.
  - repeat constructor.
Defined.

End CatalogFacts.

(* ===================================================================== *)
(** ** Hash values longer than the canonical length                       *)
(* ===================================================================== *)

Module LongHashFacts.
Import Hex Strings Parser.
Local Open Scope list_scope.

Lemma Decode_isHex_odd (n : nat) (s : string) :
  String.length s = S (2 * n) -> isHex s = true ->
  exists raw, Decode s = (raw, Some ErrLength) /\ length raw = n.
Proof.
  revert s; induction n as [|n IH]; intros s Hlen Hhex.
  - destruct s as [|p [|q s]]; cbn [String.length] in Hlen; try lia.
    cbn [isHex] in Hhex. apply andb_prop in Hhex as [Hp _].
    apply N.leb_le in Hp. exists []. cbn [Decode].
    destruct (N.ltb_spec 15 (reverseHexTable p)); [lia|auto].
  - destruct s as [|p [|q s]]; cbn [String.length] in Hlen; try lia.
    cbn [isHex] in Hhex. apply andb_prop in Hhex as [Hp Hhex].
    apply andb_prop in Hhex as [Hq Hhex].
    destruct (IH s) as (raw & Hd & Hl); [lia|assumption|].
    exists (packByte (reverseHexTable p) (reverseHexTable q) :: raw).
    cbn [Decode]. apply N.leb_le in Hp, Hq.
    destruct (N.ltb_spec 15 (reverseHexTable p)); [lia|].
    destruct (N.ltb_spec 15 (reverseHexTable q)); [lia|].
    rewrite Hd. cbn [length]. auto.
Qed.

(** X23.  [stringValue2Bytes] enforces no upper bound: a string of hex
    digits at least as long as the canonical length is decoded as it is,
    neither cut nor refused for its length.  With an even number of digits
    the result is all its bytes (more than the canonical number when the
    string is longer) and no error; with an odd number it is the bytes of
    the whole pairs together with [hex.ErrLength]. *)
Theorem stringValue2Bytes_long (input : string) (expectedLength : Z) :
  input <> "" -> isHex input = true -> expectedLength <= len input ->
  exists raw : list byte,
    fst (stringValue2Bytes input expectedLength) = Some raw
    /\ Z.of_nat (length raw) = len input / 2
    /\ snd (stringValue2Bytes input expectedLength)
       = (if Z.even (len input) then None else Some ErrLength)
    /\ (Z.even (len input) = true -> EncodeToString raw = toLower input).
Proof.
  intros Hne Hhex Hlen.
  assert (Hrun : stringValue2Bytes input expectedLength = DecodeString input).
  { unfold stringValue2Bytes.
    assert (E1 : String.eqb input "-" = false)
      by (apply String.eqb_neq; intros ->; discriminate Hhex).
    apply String.eqb_neq in Hne. rewrite E1, Hne. cbn [orb].
    rewrite (HexFacts.TrimSpace_isHex _ Hhex).
    destruct (len input <? expectedLength) eqn:Hlt;
      [apply Z.ltb_lt in Hlt; lia|reflexivity]. }
  rewrite Hrun. unfold DecodeString, len.
  destruct (Nat.Even_or_Odd (String.length input)) as [[n Hn]|[n Hn]].
  - destruct (HexFacts.Decode_isHex_even n input Hn Hhex) as (raw & Hd & Hl & He).
    exists raw. rewrite Hd. cbn [fst snd].
    replace (Z.of_nat (String.length input)) with (2 * Z.of_nat n) by lia.
    replace (2 * Z.of_nat n) with (Z.of_nat n * 2) by lia.
    rewrite Z.div_mul by lia.
    replace (Z.even (Z.of_nat n * 2)) with true
      by (symmetry; apply Z.even_spec; exists (Z.of_nat n); lia).
    repeat split; auto; lia.
  - replace (2 * n + 1)%nat with (S (2 * n)) in Hn by lia.
    destruct (Decode_isHex_odd n input Hn Hhex) as (raw & Hd & Hl).
    exists raw. rewrite Hd. cbn [fst snd].
    replace (Z.of_nat (String.length input)) with (1 + Z.of_nat n * 2) by lia.
    rewrite Z.div_add by lia. change (1 / 2) with 0.
    replace (1 + Z.of_nat n * 2) with (1 + 2 * Z.of_nat n) by lia.
    rewrite Z.even_add_mul_2.
    repeat split; auto; try lia; try discriminate.
Qed.

Lemma stringValue2Bytes_long_witness :
  exists raw : list byte,
    fst (stringValue2Bytes "0011223344" 8) = Some raw
    /\ Z.of_nat (length raw) = 5
    /\ snd (stringValue2Bytes "0011223344" 8) = None.
Proof.
  destruct (stringValue2Bytes_long "0011223344" 8)
    as (raw & Hraw & Hlen & Herr & _).
  - discriminate.
  - reflexivity.
  - vm_compute. discriminate.
  - exists raw. split; [exact Hraw|]. split; [exact Hlen|exact Herr].
Defined.

End LongHashFacts.
